(** * eim: effective index method -- root finder, slab and slot solvers,
      field reconstruction and the strip composition; then the utilities
      around them (the vectors of libvec.h, the slot waveguide, the field in
      the transverse plane, the lists of the command line and the log).

    The C++ sources compute on [double].  The embedding is written once,
    over an interface of the operations the sources use ([Arith] for the
    arithmetic and comparisons of the language, [Libm] for the functions
    of <cmath>), and is instantiated twice:

    - [float], the binary64 numbers of the kernel, for the arithmetic of
      [opt::bisection]: this is what the compiled program computes;
    - [xreal], the real numbers extended with a NaN, for the code that
      calls <cmath>: there is no rounding, the square root of a negative
      number is NaN, NaN propagates through every operation and every
      comparison with it is false.  There are no infinities and no signed
      zeros: a division by zero is NaN, and [atan2] is the mathematical
      one.

    Statements that only depend on the control flow are proved over the
    interface, hence for both; values are computed in [float] where the
    code needs no <cmath>, in [xreal] elsewhere.

    A value of type [int] is an integer of [Z] within the 32 bits of the
    type; the one sum on [int] that can overflow ([j + 1] in
    [slab_equation]) and the conversion of a [size_t] to [int] are written
    with their wrap-around. *)

From Stdlib Require Import String Ascii.
From Stdlib Require Import ZArith QArith Floats Reals Lra Lia List Bool.
Import ListNotations.

(** ** The [double] interface *)

Declare Scope dbl_scope.
Delimit Scope dbl_scope with dbl.

Class Arith (D : Type) := {
  lit  : Q -> D;            (* a numeric literal, or an int converted *)
  add  : D -> D -> D;
  sub  : D -> D -> D;
  mul  : D -> D -> D;
  div  : D -> D -> D;
  neg  : D -> D;
  fabs : D -> D;            (* std::fabs *)
  ltb  : D -> D -> bool;    (* x < y *)
  leb  : D -> D -> bool;    (* x <= y *)
  eqb  : D -> D -> bool     (* x == y *)
}.

Class Libm (D : Type) {AD : Arith D} := {
  M_PI  : D;
  sqrt  : D -> D;
  pow   : D -> nat -> D;    (* pow(x, 2): only integer exponents occur *)
  atan2 : D -> D -> D;
  cos   : D -> D;
  sin   : D -> D;
  exp   : D -> D;
  tanh  : D -> D
}.

Notation "x + y" := (add x y) : dbl_scope.
Notation "x - y" := (sub x y) : dbl_scope.
Notation "x * y" := (mul x y) : dbl_scope.
Notation "x / y" := (div x y) : dbl_scope.
Notation "- x" := (neg x) : dbl_scope.
Notation "x <? y" := (ltb x y) : dbl_scope.
Notation "x <=? y" := (leb x y) : dbl_scope.
Notation "x >? y" := (ltb y x) : dbl_scope.
Notation "x >=? y" := (leb y x) : dbl_scope.

(** An [int] converted to [double]. *)
Definition of_int {D} `{Arith D} (z : Z) : D := lit (inject_Z z).

(** [int] is 32 bits wide, in two's complement.  [int_wrap z] is the value
    of that type that is congruent to [z]: what the conversion of a
    [size_t] to [int] gives (the calls that pass [mode_order] for [int j])
    and what the compiled program computes when an addition of two [int]
    overflows (which the language leaves undefined). *)
Definition INT_MIN : Z := -2147483648.
Definition INT_MAX : Z := 2147483647.
Definition int_wrap (z : Z) : Z :=
  ((z + 2147483648) mod 4294967296 - 2147483648)%Z.
(** [a + b] on [int]. *)
Definition int_add (a b : Z) : Z := int_wrap (a + b).
(** A [size_t] passed for an [int]. *)
Definition int_of_size_t (n : nat) : Z := int_wrap (Z.of_nat n).

(** [std::min(a, b)] is [(b < a) ? b : a], [std::max(a, b)] is
    [(a < b) ? b : a]. *)
Definition std_min {D} `{Arith D} (a b : D) : D := if (b <? a)%dbl then b else a.
Definition std_max {D} `{Arith D} (a b : D) : D := if (a <? b)%dbl then b else a.

(** ** binary64 *)

Definition float_of_Z (z : Z) : float :=
  if (z <? 0)%Z then PrimFloat.opp (PrimFloat.of_uint63 (Uint63.of_Z (- z)))
  else PrimFloat.of_uint63 (Uint63.of_Z z).

(** A literal [n/d] is the correctly rounded quotient of two integers that
    binary64 holds exactly (all literals of the sources are such). *)
Definition float_lit (q : Q) : float :=
  PrimFloat.div (float_of_Z (Qnum q)) (float_of_Z (Zpos (Qden q))).

#[export] Instance float_Arith : Arith float := {|
  lit := float_lit;
  add := PrimFloat.add;
  sub := PrimFloat.sub;
  mul := PrimFloat.mul;
  div := PrimFloat.div;
  neg := PrimFloat.opp;
  fabs := PrimFloat.abs;
  ltb := PrimFloat.ltb;
  leb := PrimFloat.leb;
  eqb := PrimFloat.eqb
|}.

(** [M_PI] of [<cmath>]: the binary64 number nearest to pi. *)
Definition M_PI_binary64 : float := 0x1.921fb54442d18p+1%float.

(** ** Real numbers with a NaN *)

Abbreviation xreal := (option R).

Definition xlift1 (op : R -> R) (x : xreal) : xreal :=
  match x with Some a => Some (op a) | None => None end.

Definition xlift2 (op : R -> R -> R) (x y : xreal) : xreal :=
  match x, y with Some a, Some b => Some (op a b) | _, _ => None end.

Definition xdiv (x y : xreal) : xreal :=
  match x, y with
  | Some a, Some b => if Req_dec_T b 0 then None else Some (a / b)%R
  | _, _ => None
  end.

Definition xcmp (P : R -> R -> Prop) (dec : forall a b, {P a b} + {~ P a b})
  (x y : xreal) : bool :=
  match x, y with
  | Some a, Some b => if dec a b then true else false
  | _, _ => false
  end.

Definition xsqrt (x : xreal) : xreal :=
  match x with
  | Some a => if Rle_dec 0 a then Some (R_sqrt.sqrt a) else None
  | None => None
  end.

(** The two-argument arc tangent of the C library on the reals (there are
    no signed zeros: [atan2(0, x)] is [PI] for [x < 0] and [atan2(0, 0)]
    is [0]). *)
Definition Ratan2 (y x : R) : R :=
  if Rlt_dec 0 x then atan (y / x)
  else if Rlt_dec x 0 then
    (if Rle_dec 0 y then atan (y / x) + PI else atan (y / x) - PI)
  else if Rlt_dec 0 y then PI / 2
  else if Rlt_dec y 0 then - (PI / 2)
  else 0.

#[export] Instance xreal_Arith : Arith xreal := {|
  lit q := Some (Q2R q);
  add := xlift2 Rplus;
  sub := xlift2 Rminus;
  mul := xlift2 Rmult;
  div := xdiv;
  neg := xlift1 Ropp;
  fabs := xlift1 Rabs;
  ltb := xcmp Rlt Rlt_dec;
  leb := xcmp Rle Rle_dec;
  eqb := xcmp (@eq R) Req_dec_T
|}.

#[export] Instance xreal_Libm : Libm xreal := {|
  M_PI := Some PI;
  sqrt := xsqrt;
  pow x n := xlift1 (fun a => a ^ n)%R x;
  atan2 := xlift2 Ratan2;
  cos := xlift1 Rtrigo_def.cos;
  sin := xlift1 Rtrigo_def.sin;
  exp := xlift1 Rtrigo_def.exp;
  tanh := xlift1 Rtrigo_def.tanh
|}.

(** ** inc/libopt.h *)

Module opt.

Inductive status_code := CONVERGED | DIVERGED | INVALID_RANGE.

Definition status_code_eqb (x y : status_code) : bool :=
  match x, y with
  | CONVERGED, CONVERGED | DIVERGED, DIVERGED
  | INVALID_RANGE, INVALID_RANGE => true
  | _, _ => false
  end.

Record Status (D : Type) := mkStatus {
  status : status_code;
  iterations : nat;
  residual : D
}.
Arguments mkStatus {D}.
Arguments status {D}.
Arguments iterations {D}.
Arguments residual {D}.

Section Bisection.
Context {D : Type} `{Arith D}.
Local Open Scope dbl_scope.

(** The default arguments [tol = 1e-4] and [max_iter = 100]. *)
Definition default_tol : D := lit (1 # 10000).
Definition default_max_iter : Z := 100.

(** The variables the [while] loop reads and writes.  [pa] and [pb] point
    to the parameters [a] and [b] themselves, so [*pa = ...] and
    [*pb = ...] overwrite [a] and [b]: [va] and [vb] are the one and only
    copy of the bracket. *)
Record vars := mkVars {
  va : D; vb : D; vfa : D; vfb : D;
  vmid : D; vfmid : D; viter : nat
}.

(** The [while] loop: [inl] is the [return] inside the body, [inr] the
    variables when the condition fails.  [budget] is [max_iter - iter]:
    the condition [iter < max_iter] holds while it is not zero. *)
Fixpoint bisection_loop (f : D -> D) (tol : D) (budget : nat) (v : vars)
  : (D * Status D) + vars :=
  match budget with
  | O => inr v
  | S budget' =>
    if (vmid v >? tol) && (fabs (vfmid v) >? tol) then
      let mid := (va v + vb v) / lit 2 in
      let fmid := f mid in
      if fabs fmid <? tol then
        inl (mid, mkStatus CONVERGED (viter v) (fabs fmid))
      else if vfa v * fmid <? lit 0 then
        bisection_loop f tol budget'
          (mkVars (va v) mid (vfa v) fmid mid fmid (S (viter v)))
      else
        bisection_loop f tol budget'
          (mkVars mid (vb v) fmid (vfb v) mid fmid (S (viter v)))
    else inr v
  end.

(** The statements after the loop. *)
Definition bisection_finish (f : D -> D) (tol : D) (v : vars) : D * Status D :=
  let mid := (va v + vb v) / lit 2 in
  let fmid := f mid in
  let s := if (vb v - va v) / lit 2 <=? tol then CONVERGED else DIVERGED in
  let s := if (fabs (mid - vb v) <? tol) || (fabs (mid - va v) <? tol)
           then DIVERGED else s in
  (mid, mkStatus s (viter v) (fabs fmid)).

Definition bisection (f : D -> D) (a b : D) (tol : D) (max_iter : Z)
  : D * Status D :=
  let fa := f a in
  let fb := f b in
  if fa * fb >? lit 0 then
    (a, mkStatus INVALID_RANGE 0 (std_min (fabs fa) (fabs fb)))
  else
    let mid := (a + b) / lit 2 in
    let fmid := f mid in
    match bisection_loop f tol (Z.to_nat max_iter)
            (mkVars a b fa fb mid fmid 0) with
    | inl r => r
    | inr v => bisection_finish f tol v
    end.

End Bisection.

End opt.

(** ** inc/eim.h, inc/strip.h, inc/slot.h *)

Module eim.

Inductive Mode := TE | TM.

(** [std::complex<double>] and the mixed operations the sources use. *)
Record field_t (D : Type) := mkField { re : D; im : D }.
Arguments mkField {D}.
Arguments re {D}.
Arguments im {D}.

Section Eim.
Context {D : Type} {AD : Arith D} {LD : Libm D}.
Local Open Scope dbl_scope.

Definition pi : D := M_PI.
Definition eps0 : D := lit (8854188 # 1000000000000000000).
Definition mu0 : D := lit 4 * pi * lit (1 # 10000000).
Definition c : D := lit 1 / sqrt (eps0 * mu0).
Definition eta0 : D := sqrt (mu0 / eps0).

(** *** The characteristic equation of the three-layer slab *)

(** In [(j+1)*pi] the sum is an [int], which is then converted. *)
Definition slab_equation (mode : Mode) (n1 n2 n3 lambda W : D) (j : Z)
  (neff : D) : D :=
  let k0 := lit 2 * pi * (lit 1 / lambda) in
  let gamma1 := k0 * sqrt (pow neff 2 - pow n1 2) in
  let gamma2 := k0 * sqrt (pow n2 2 - pow neff 2) in
  let gamma3 := k0 * sqrt (pow neff 2 - pow n3 2) in
  let lhs := gamma2 * W in
  match mode with
  | TE =>
    let rhs := - atan2 gamma2 gamma1 - atan2 gamma2 gamma3
               + of_int (int_add j 1) * pi in
    rhs - lhs
  | TM =>
    let rhs := - atan2 (pow n1 2 * gamma2) (pow n2 2 * gamma1)
               - atan2 (pow n3 2 * gamma2) (pow n2 2 * gamma3)
               + of_int (int_add j 1) * pi in
    rhs - lhs
  end.

(** One root find of [solve_slab]: the bracket is [[nmin, n2]], and the
    bound [nmin] replaces a root whose status is not CONVERGED. *)
Definition solve_mode (f : D -> D) (nmin nmax : D) : D :=
  let r := opt.bisection f nmin nmax opt.default_tol opt.default_max_iter in
  match opt.status (snd r) with
  | opt.CONVERGED => fst r
  | _ => nmin
  end.

Definition solve_slab (n1 n2 n3 lambda W : D) (j : Z) : D * D :=
  let slab_TE := slab_equation TE n1 n2 n3 lambda W j in
  let slab_TM := slab_equation TM n1 n2 n3 lambda W j in
  let nmin := std_min n1 n3 in
  (solve_mode slab_TE nmin n2, solve_mode slab_TM nmin n2).

(** *** The characteristic equations of the five-layer slot *)

Definition slot_cosh_equation (n_clad n_core n_slot lambda a b : D) (j : Z)
  (neff : D) : D :=
  let k0 := lit 2 * pi / lambda in
  let gamma_slot := k0 * sqrt (neff * neff - n_slot * n_slot) in
  let kappa_core := k0 * sqrt (n_core * n_core - neff * neff) in
  let gamma_clad := k0 * sqrt (neff * neff - n_clad * n_clad) in
  let term1 := atan2 (n_core * n_core * gamma_clad)
                     (n_clad * n_clad * kappa_core) in
  let term2 := atan2 (n_core * n_core * gamma_slot * tanh (gamma_slot * a))
                     (n_slot * n_slot * kappa_core) in
  let lhs := term1 + term2 + of_int j * pi in
  let rhs := kappa_core * (b - a) in
  rhs - lhs.

Definition slot_sinh_equation (n_clad n_core n_slot lambda a b : D) (j : Z)
  (neff : D) : D :=
  let k0 := lit 2 * pi / lambda in
  let gamma_slot := k0 * sqrt (neff * neff - n_slot * n_slot) in
  let kappa_core := k0 * sqrt (n_core * n_core - neff * neff) in
  let gamma_clad := k0 * sqrt (neff * neff - n_clad * n_clad) in
  let coth_term := lit 1 / tanh (gamma_slot * a) in
  let term1 := atan2 (n_core * n_core * gamma_clad)
                     (n_clad * n_clad * kappa_core) in
  let term2 := atan2 (n_core * n_core * gamma_slot * coth_term)
                     (n_slot * n_slot * kappa_core) in
  let lhs := term1 + term2 + of_int j * pi in
  let rhs := kappa_core * (b - a) in
  rhs - lhs.

Definition solve_slot_slab (n_clad n_core n_slot lambda w_slot w_core : D)
  (j : Z) : D * D :=
  let a := w_slot / lit 2 in
  let b := a + w_core in
  let cosh_func := slot_cosh_equation n_clad n_core n_slot lambda a b j in
  let sinh_func := slot_sinh_equation n_clad n_core n_slot lambda a b j in
  let nmin := std_max n_clad n_slot in
  (solve_mode cosh_func nmin n_core, solve_mode sinh_func nmin n_core).

(** *** [mode_1D]: the mode profile along one dimension *)

Definition of_real (x : D) : field_t D := mkField x (lit 0).
(* complex * double, complex / double, double * complex *)
Definition cmuld (z : field_t D) (d : D) : field_t D :=
  mkField (re z * d) (im z * d).
Definition cdivd (z : field_t D) (d : D) : field_t D :=
  mkField (re z / d) (im z / d).
Definition dmulc (d : D) (z : field_t D) : field_t D :=
  mkField (d * re z) (d * im z).
(* complex / complex *)
Definition cdiv (z w : field_t D) : field_t D :=
  let n := re w * re w + im w * im w in
  mkField ((re z * re w + im z * im w) / n)
          ((im z * re w - re z * im w) / n).
(* double / complex *)
Definition ddivc (d : D) (w : field_t D) : field_t D := cdiv (of_real d) w.

Section Mode1D.
Variable mode : Mode.
Variables neff n1 n2 n3 lambda W : D.
Variable j : Z.

Definition k0 : D := lit 2 * pi * (lit 1 / lambda).
Definition gamma1 : D := k0 * sqrt (pow neff 2 - pow n1 2).
Definition gamma2 : D := k0 * sqrt (pow n2 2 - pow neff 2).
Definition gamma3 : D := k0 * sqrt (pow neff 2 - pow n3 2).

Definition alpha : D :=
  - atan2 (gamma1 * match mode with TE => lit 1 | TM => pow n2 2 end)
          (gamma2 * match mode with TE => lit 1 | TM => pow n1 2 end)
  + of_int j * pi.

Definition C2 : D := lit 1.
Definition C1 : D :=
  C2 * cos alpha *
  match mode with TM => pow n2 2 / pow n1 2 | TE => lit 1 end.
Definition C3 : D :=
  C2 * cos (gamma2 * W + alpha) *
  match mode with TM => pow n2 2 / pow n3 2 | TE => lit 1 end.

(** The three expressions assigned to [A[i]]. *)
Definition A_box (x : D) : D := C1 * exp (gamma1 * x).
Definition A_core (x : D) : D := C2 * cos (gamma2 * x + alpha).
Definition A_clad (x : D) : D := C3 * exp (- gamma3 * (x - W)).

(** [j * 2.*pi*c/lambda], with the local [j(1.0, 1.0)]. *)
Definition jomega : field_t D :=
  cdivd (cmuld (cmuld (cmuld (mkField (lit 1) (lit 1)) (lit 2)) pi) c) lambda.

(** The values [calculate_field] assigns to [A[i]], [Bl[i]] and [Bn[i]]
    for the sample [xi]; [None] when no branch is taken (a NaN sample),
    and the three arrays keep what they held. *)
Definition field_at (xi : D) : option (field_t D * field_t D * field_t D) :=
  if xi <? lit 0 then
    let Ai := of_real (A_box xi) in
    let Bli := match mode with
               | TE => cdivd (cmuld Ai n1) eta0
               | TM => cdivd (cmuld Ai eta0) n1
               end in
    let Bni := match mode with
               | TE => cdiv (dmulc (- gamma1) Ai) (cmuld jomega mu0)
               | TM => cdiv (dmulc gamma1 Ai)
                            (cmuld (cmuld jomega eps0) (pow n1 2))
               end in
    Some (Ai, Bli, Bni)
  else if (xi >=? lit 0) && (xi <=? W) then
    let Ai := of_real (A_core xi) in
    let Bli := match mode with
               | TE => cdivd (cmuld Ai n1) eta0
               | TM => cdivd (cmuld Ai eta0) n1
               end in
    let normal := C2 * gamma2 * sin (gamma2 * xi + alpha) in
    let Bni := match mode with
               | TE => ddivc normal (cmuld jomega mu0)
               | TM => ddivc (- normal)
                             (cmuld (cmuld jomega eps0) (pow n2 2))
               end in
    Some (Ai, Bli, Bni)
  else if xi >? W then
    let Ai := of_real (A_clad xi) in
    let Bli := match mode with
               | TE => cdivd (cmuld Ai n1) eta0
               | TM => cdivd (cmuld Ai eta0) n1
               end in
    let Bni := match mode with
               | TE => cdiv (dmulc gamma3 Ai) (cmuld jomega mu0)
               | TM => cdiv (dmulc gamma3 Ai)
                            (cmuld (cmuld jomega eps0) (pow n3 2))
               end in
    Some (Ai, Bli, Bni)
  else None.

End Mode1D.

(** The output arrays [A], [Bl] and [Bn]. *)
Record fields := mkFields {
  A : list (field_t D); Bl : list (field_t D); Bn : list (field_t D)
}.

Fixpoint store {T : Type} (l : list T) (i : nat) (v : T) : list T :=
  match l, i with
  | [], _ => []
  | _ :: l', O => v :: l'
  | y :: l', S i' => y :: store l' i' v
  end.

Definition calculate_field (mode : Mode) (neff n1 n2 n3 lambda W : D) (j : Z)
  (x : list D) (i : nat) (o : fields) : fields :=
  match field_at mode neff n1 n2 n3 lambda W j (nth i x (lit 0)) with
  | Some (Ai, Bli, Bni) =>
    mkFields (store (A o) i Ai) (store (Bl o) i Bli) (store (Bn o) i Bni)
  | None => o
  end.

(** The serial loop [for (i = 0; i < xs; i++) calculate_field(i)]. *)
Definition mode_1D (mode : Mode) (x : list D) (o : fields)
  (neff n1 n2 n3 lambda W : D) (j : Z) : fields :=
  fold_left (fun o i => calculate_field mode neff n1 n2 n3 lambda W j x i o)
            (seq 0 (length x)) o.

End Eim.

End eim.

(** ** src/eim.cc: the strip waveguide *)

Section Strip.
Context {D : Type} {AD : Arith D} {LD : Libm D}.
Local Open Scope dbl_scope.
Import eim.

Record Waveguide := mkWaveguide {
  wavelength : D;
  t_rib : D;
  t_slab : D;
  w_rib : D;
  w_slab : D;
  n_box : D;
  n_core : D;
  n_clad : D;
  mode_order : nat;
  mode : Mode
}.

(** [t_slab ? n_core : n_clad]: a [double] is true when it is not zero. *)
Definition slab_core (wg : Waveguide) : D :=
  if negb (eqb (t_slab wg) (lit 0)) then n_core wg else n_clad wg.

(** The two vertical solves [n1] and [n2] of [operator()]; [n3] is a
    reference to [n1]. *)
Definition vertical_n1 (wg : Waveguide) : D * D :=
  solve_slab (n_box wg) (slab_core wg) (n_clad wg) (wavelength wg)
             (t_slab wg) 0.
Definition vertical_n2 (wg : Waveguide) : D * D :=
  solve_slab (n_box wg) (n_core wg) (n_clad wg) (wavelength wg)
             (t_rib wg) 0.

(** The three indices [operator()] passes to the lateral [solve_slab]. *)
Definition lateral_indices (wg : Waveguide) : D * D * D :=
  let n1 := vertical_n1 wg in
  let n2 := vertical_n2 wg in
  let n3 := n1 in
  match mode wg with
  | TE => (fst n1, fst n2, fst n3)
  | TM => (snd n1, snd n2, snd n3)
  end.

(** [Waveguide::operator()]. *)
Definition Waveguide_call (wg : Waveguide) : D :=
  let '(i1, i2, i3) := lateral_indices wg in
  let neff := solve_slab i1 i2 i3 (wavelength wg) (w_rib wg)
                         (int_of_size_t (mode_order wg)) in
  match mode wg with
  | TE => snd neff
  | TM => fst neff
  end.

End Strip.

(** ** test/slab.cc and further inputs *)

Module test.

(** [double f(double x) { return 2*x - 5; }] *)
Definition f {D : Type} {AD : Arith D} (x : D) : D := (lit 2 * x - lit 5)%dbl.

(** A residual with a sign change and no small value:
    [x < 1.3 ? -1.0 : 1.0]. *)
Definition step {D : Type} {AD : Arith D} (x : D) : D :=
  if (x <? lit (13 # 10))%dbl then lit (-1) else lit 1.

End test.

(** The status after the loop as the specification words it: DIVERGED
    when the final midpoint is within the tolerance of one of the bracket
    ends [a0], [b0] that were passed in, otherwise CONVERGED exactly when
    the half-width of the remaining bracket is at most the tolerance. *)
Definition spec_final_status {D : Type} {AD : Arith D}
  (a0 b0 tol : D) (v : opt.vars) : opt.status_code :=
  let mid := ((opt.va v + opt.vb v) / lit 2)%dbl in
  if (fabs (mid - b0) <? tol)%dbl || (fabs (mid - a0) <? tol)%dbl
  then opt.DIVERGED
  else if ((opt.vb v - opt.va v) / lit 2 <=? tol)%dbl
       then opt.CONVERGED else opt.DIVERGED.

(** ** The formulas of the specification *)

(** In the arithmetic of the code (NaN included). *)
Section SpecFormulas.
Context {D : Type} {AD : Arith D} {LD : Libm D}.
Local Open Scope dbl_scope.

Definition spec_k0 (lambda : D) : D := lit 2 * M_PI / lambda.

(** [(-atan2(g2,g1) - atan2(g2,g3) + (j+1) pi) - g2 W]. *)
Definition spec_TE_residual (n1 n2 n3 lambda W : D) (j : Z) (neff : D) : D :=
  let k0 := spec_k0 lambda in
  let g1 := k0 * sqrt (neff * neff - n1 * n1) in
  let g2 := k0 * sqrt (n2 * n2 - neff * neff) in
  let g3 := k0 * sqrt (neff * neff - n3 * n3) in
  (- atan2 g2 g1 - atan2 g2 g3 + (of_int j + lit 1) * M_PI) - g2 * W.

(** [kappa (b-a) - [atan2(nc^2 g_clad, ncl^2 kappa)
    + atan2(nc^2 g_slot th(g_slot a), ns^2 kappa) + j pi]], where [th] is
    [tanh] for the even form and [coth] for the odd one. *)
Definition spec_coth (x : D) : D := lit 1 / tanh x.

Definition spec_slot_residual (th : D -> D)
  (n_clad n_core n_slot lambda w_slot w_core : D) (j : Z) (neff : D) : D :=
  let a := w_slot / lit 2 in
  let b := a + w_core in
  let k0 := spec_k0 lambda in
  let g_slot := k0 * sqrt (neff * neff - n_slot * n_slot) in
  let kappa := k0 * sqrt (n_core * n_core - neff * neff) in
  let g_clad := k0 * sqrt (neff * neff - n_clad * n_clad) in
  kappa * (b - a)
  - (atan2 (n_core * n_core * g_clad) (n_clad * n_clad * kappa)
     + atan2 (n_core * n_core * g_slot * th (g_slot * a))
             (n_slot * n_slot * kappa)
     + of_int j * M_PI).

End SpecFormulas.

(** On the reals. *)
Module Real.
Local Open Scope R_scope.

Definition k0 (lambda : R) : R := 2 * PI / lambda.
(* k0 sqrt(neff^2 - n^2) and k0 sqrt(n^2 - neff^2) *)
Definition decay (lambda n neff : R) : R :=
  k0 lambda * R_sqrt.sqrt (neff ^ 2 - n ^ 2).
Definition osc (lambda n neff : R) : R :=
  k0 lambda * R_sqrt.sqrt (n ^ 2 - neff ^ 2).

Definition slab_residual (mode : eim.Mode) (n1 n2 n3 lambda W : R) (j : Z)
  (neff : R) : R :=
  let g1 := decay lambda n1 neff in
  let g2 := osc lambda n2 neff in
  let g3 := decay lambda n3 neff in
  match mode with
  | eim.TE =>
    (- Ratan2 g2 g1 - Ratan2 g2 g3 + (IZR j + 1) * PI) - g2 * W
  | eim.TM =>
    (- Ratan2 (n1 ^ 2 * g2) (n2 ^ 2 * g1) - Ratan2 (n3 ^ 2 * g2) (n2 ^ 2 * g3)
     + (IZR j + 1) * PI) - g2 * W
  end.

Definition coth (x : R) : R := / Rtrigo_def.tanh x.

(* the phase offset of the mode profile *)
Definition alpha (mode : eim.Mode) (n1 n2 lambda : R) (j : Z) (neff : R) : R :=
  - Ratan2 (decay lambda n1 neff
            * match mode with eim.TE => 1 | eim.TM => n2 ^ 2 end)
           (osc lambda n2 neff
            * match mode with eim.TE => 1 | eim.TM => n1 ^ 2 end)
  + IZR j * PI.

Definition slot_residual (th : R -> R)
  (n_clad n_core n_slot lambda w_slot w_core : R) (j : Z) (neff : R) : R :=
  let a := w_slot / 2 in
  let b := a + w_core in
  let g_slot := decay lambda n_slot neff in
  let kappa := osc lambda n_core neff in
  let g_clad := decay lambda n_clad neff in
  kappa * (b - a)
  - (Ratan2 (n_core ^ 2 * g_clad) (n_clad ^ 2 * kappa)
     + Ratan2 (n_core ^ 2 * g_slot * th (g_slot * a)) (n_slot ^ 2 * kappa)
     + IZR j * PI).

End Real.

(** ** Concrete inputs *)

(** A strip with [n_box = n_clad = 1.75], [n_core = 5.75], a rib of
    thickness 0.06455 and no slab, at wavelength 1, solved for TE0. *)
Definition strip_te : Waveguide (D := xreal) :=
  mkWaveguide (Some 1%R) (Some (1291 / 20000)%R) (Some 0%R) (Some (1 / 2)%R)
              (Some 0%R) (Some (7 / 4)%R) (Some (23 / 4)%R) (Some (7 / 4)%R)
              0 eim.TE.

(** ** Exceptions *)

(** A call either returns or throws one of the two exceptions the sources
    throw, with its message. *)
Inductive thrown :=
| invalid_argument (what : string)
| runtime_error (what : string).

Inductive outcome (A : Type) :=
| Return (a : A)
| Throw (e : thrown).
Arguments Return {A}.
Arguments Throw {A}.

(** ** inc/libvec.h *)

Module vec.

Section Linspace.
Context {D : Type} {AD : Arith D}.
Local Open Scope dbl_scope.

(** [for (it = begin; it != end; ++it) *it = a + h * (i++);] over the
    [n] elements that are left, [i] being the counter of type [T]. *)
Fixpoint linspace_loop (n : nat) (a h i : D) : list D :=
  match n with
  | O => []
  | S n' => (a + h * i) :: linspace_loop n' a h (i + lit 1)
  end.

(** [linspace(begin, end, a, b)] on a range of [N] elements: the new
    content of the range. *)
Definition linspace (N : nat) (a b : D) : outcome (list D) :=
  if (N <=? 1)%nat then
    Throw (invalid_argument "The range must contain at least two elements.")
  else
    let h := (b - a) / of_int (Z.of_nat (N - 1)) in
    Return (linspace_loop N a h (lit 0)).

End Linspace.

Section OuterProduct.
Context {T : Type}.
Variable mulT : T -> T -> T.

(** [c[i][j] = v]: the rows of [c] are reached through the pointers
    [c[i]].  A write outside of [c] is undefined in the language; here it
    is dropped, as in [store]. *)
Definition store2 (c : list (list T)) (i j : nat) (v : T) : list (list T) :=
  match nth_error c i with
  | Some row => eim.store c i (eim.store row j v)
  | None => c
  end.

(** The inner loop [for (j = 0; j < cols; ++j) c[i][j] = a[i] * b[j];]
    over the elements of [b] from index [j] on. *)
Fixpoint outer_product_row (ai : T) (b : list T) (i j : nat)
  (c : list (list T)) : list (list T) :=
  match b with
  | [] => c
  | bj :: b' => outer_product_row ai b' i (S j) (store2 c i j (mulT ai bj))
  end.

(** The outer loop over the elements of [a] from index [i] on. *)
Fixpoint outer_product_rows (a b : list T) (i : nat) (c : list (list T))
  : list (list T) :=
  match a with
  | [] => c
  | ai :: a' => outer_product_rows a' b (S i) (outer_product_row ai b i 0 c)
  end.

Definition outer_product (a b : list T) (c : list (list T))
  : list (list T) :=
  outer_product_rows a b 0 c.

End OuterProduct.

End vec.

(** ** inc/slot.h: the slot waveguide *)

Module slot.

Section SlotWaveguide.
Context {D : Type} {AD : Arith D} {LD : Libm D}.
Local Open Scope dbl_scope.
Import eim.

Record waveguide := mk_waveguide {
  wavelength : D;
  t_core : D;
  w_core : D;
  w_slot : D;
  n_box : D;
  n_clad : D;
  n_core : D;
  n_slot : D;
  mode_order : nat;
  mode : Mode
}.

(** The three vertical solves of [operator()]. *)
Definition neff_core (wg : waveguide) : D * D :=
  solve_slab (n_box wg) (n_core wg) (n_clad wg) (wavelength wg) (t_core wg) 0.
Definition neff_slot (wg : waveguide) : D :=
  let ns := solve_slab (n_box wg) (n_slot wg) (n_clad wg) (wavelength wg)
                       (t_core wg) 0 in
  match mode wg with TE => fst ns | TM => snd ns end.
Definition neff_clad (wg : waveguide) : D * D :=
  solve_slab (n_box wg) (n_clad wg) (n_clad wg) (wavelength wg) (t_core wg) 0.

(** [waveguide::operator()]. *)
Definition waveguide_call (wg : waveguide) : D :=
  match mode wg with
  | TE =>
    let neff := solve_slot_slab (fst (neff_clad wg)) (fst (neff_core wg))
                  (neff_slot wg) (wavelength wg) (w_slot wg) (w_core wg)
                  (int_of_size_t (mode_order wg)) in
    fst neff
  | TM =>
    let neff := solve_slot_slab (snd (neff_clad wg)) (snd (neff_core wg))
                  (neff_slot wg) (wavelength wg) (w_slot wg) (w_core wg)
                  (int_of_size_t (mode_order wg)) in
    fst neff
  end.

End SlotWaveguide.

End slot.

(** ** src/eim.cc: the field of the strip in the transverse plane *)

Section Mode2D.
Context {D : Type} {AD : Arith D} {LD : Libm D}.
Local Open Scope dbl_scope.
Import eim.


(** The content of a [cvector<field_t>] of [N] elements as its
    constructor leaves it (carray.h is not part of the sources). *)
Variable cvector : nat -> list (field_t D).



End Mode2D.

(** ** inc/ctl.h: lists of numbers on the command line *)

Module ctl.

Section ParseNumeric.
Variable T : Type.
(** The conversion the type selects ([strtod], [strtof], [strtoul] or
    [strtol]) on the text at [current]: [None] when no conversion is
    performed ([end == current]), otherwise the value and the text at
    [end]. *)
Variable strto : string -> option (T * string).
(** [x < y] on [T]. *)
Variable lt : T -> T -> bool.

(** The next [current]: [end + 1] when [end] points to a character,
    [end] when it points to the terminating zero. *)
Definition skip_separator (rest : string) : string :=
  match rest with
  | EmptyString => rest
  | String _ rest' => rest'
  end.

(** The [while] loop, which runs as long as [current] points to a
    character.  A conversion consumes at least one
    character, so the loop makes at most as many turns as [str] has
    characters: [fuel] counts them. *)
Fixpoint parse_numeric_loop (fuel : nat) (str current : string)
  (min max : option T) (result : list T) : outcome (list T) :=
  match fuel with
  | O => Return result
  | S fuel' =>
    match current with
    | EmptyString => Return result
    | _ =>
      match strto current with
      | None => Return result
      | Some (val, rest) =>
        if match min with Some m => lt val m | None => false end then
          Throw (runtime_error (str ++ " out of bounds (below minimum)"))
        else if match max with Some m => lt m val | None => false end then
          Throw (runtime_error (str ++ " out of bounds (above maximum)"))
        else
          parse_numeric_loop fuel' str (skip_separator rest) min max
                             (result ++ [val])
      end
    end
  end.

(** [parse_numeric(str, result, min, max)]: the content of [result] at
    the return (its size is the value returned), or the exception. *)
Definition parse_numeric (str : string) (min max : option T)
  : outcome (list T) :=
  parse_numeric_loop (String.length str) str str min max [].

End ParseNumeric.

End ctl.

(** ** inc/log.h *)

Module log.

(** The state of a [Log]: the flag, the delimiter and what has been
    written to the file. *)
Record Log := mkLog {
  newline_ : bool;
  delim_ : string;
  log_ : string
}.

(** [Log(log_file, delim)] on a file that opens empty. *)
Definition Log_new (delim : string) : Log := mkLog true delim "".

(** [olog << x], [x] being written by the stream as the text [s]. *)
Definition put (olog : Log) (s : string) : Log :=
  if newline_ olog then mkLog false (delim_ olog) (log_ olog ++ s)
  else mkLog (newline_ olog) (delim_ olog) (log_ olog ++ delim_ olog ++ s).

(** [newline()], which is [operator++]. *)
Definition newline (olog : Log) : Log :=
  mkLog true (delim_ olog) (log_ olog ++ String "010" "").

(** A row: [log << x1 << ... << xn; ++log;]. *)
Definition put_row (olog : Log) (row : list string) : Log :=
  newline (fold_left put row olog).

End log.

(** * Properties *)

Import opt eim.

(** Goals about [Rabs], [Rmin] or [Rmax] of explicit terms, by cases. *)
Ltac rabs := unfold Rabs; destruct (Rcase_abs _); lra.
Ltac rminmax := unfold Rmin, Rmax; destruct (Rle_dec _ _); lra.

(** ** The root finder *)

Section BisectionFacts.
Context {D : Type} {AD : Arith D}.
Local Open Scope dbl_scope.
Import opt.

Lemma bisection_invalid_range (f : D -> D) (a b tol : D) (max_iter : Z) :
  (f a * f b >? lit 0) = true ->
  bisection f a b tol max_iter =
  (a, mkStatus INVALID_RANGE 0 (std_min (fabs (f a)) (fabs (f b)))).
Proof. intros Hs. unfold bisection. now rewrite Hs. Qed.

(** The status computed after the loop compares the midpoint with the
    bracket as the loop left it. *)
Lemma bisection_finish_status (f : D -> D) (tol : D) (v : vars) :
  status (snd (bisection_finish f tol v)) =
  let mid := (va v + vb v) / lit 2 in
  if (fabs (mid - vb v) <? tol) || (fabs (mid - va v) <? tol) then DIVERGED
  else if (vb v - va v) / lit 2 <=? tol then CONVERGED else DIVERGED.
Proof.
  unfold bisection_finish; cbn.
  destruct (_ || _); [reflexivity|]. now destruct (_ <=? _).
Qed.

(** A [return] inside the loop reports CONVERGED. *)
Lemma bisection_loop_early_status (f : D -> D) (tol : D) (budget : nat) :
  forall (v : vars) (r : D * Status D),
  bisection_loop f tol budget v = inl r -> status (snd r) = CONVERGED.
Proof.
  induction budget as [|k IH]; intros v r; cbn; [discriminate|].
  destruct (_ && _); [|discriminate].
  destruct (_ <? tol).
  - intros [= <-]. reflexivity.
  - destruct (_ <? lit 0); apply IH.
Qed.

Lemma std_min_cases (a b : D) : std_min a b = a \/ std_min a b = b.
Proof. unfold std_min. destruct (_ <? _); auto. Qed.

Lemma std_max_cases (a b : D) : std_max a b = a \/ std_max a b = b.
Proof. unfold std_max. destruct (_ <? _); auto. Qed.

End BisectionFacts.

(** C2 (what the code does): on [f(x) = 2x - 5] over [[-6, 6]] with the
    default tolerance and budget, binary64 [bisection] returns [0] with
    status DIVERGED after no iteration -- the loop condition [*pmid > tol]
    fails on the first midpoint [0] -- and [0] is not within the tolerance
    of the root [2.5]. *)
Theorem C2_bisection_test_returns_zero :
  opt.bisection (D := float) test.f (of_int (-6)) (of_int 6)
                opt.default_tol opt.default_max_iter
  = (0%float, opt.mkStatus opt.DIVERGED 0 5%float)
  /\ (fabs (0%float - lit (5 # 2)) <=? opt.default_tol)%dbl = false.
Proof. split; vm_compute; reflexivity. Qed.

(** C3 (what the code does): on the step residual over [[1, 2]] the loop
    uses its 100 iterations and leaves a bracket of half-width below the
    tolerance around 1.3, far from the ends 1 and 2 that were passed in;
    the specification's rule gives CONVERGED, the code reports DIVERGED,
    because [a] and [b] were overwritten through [pa] and [pb]. *)
Theorem C3_bisection_final_status_uses_narrowed_bracket :
  exists v : opt.vars,
    opt.bisection_loop (D := float) test.step opt.default_tol
      (Z.to_nat opt.default_max_iter)
      (opt.mkVars (lit 1) (lit 2) (test.step (lit 1)) (test.step (lit 2))
         ((lit 1 + lit 2) / lit 2)%dbl
         (test.step ((lit 1 + lit 2) / lit 2)%dbl) 0) = inr v
    /\ opt.bisection test.step (lit 1) (lit 2) opt.default_tol
         opt.default_max_iter
       = (0x1.4ccccccccccccp+0%float, opt.mkStatus opt.DIVERGED 100 1%float)
    /\ spec_final_status (lit 1) (lit 2) opt.default_tol v = opt.CONVERGED.
Proof.
  eexists. split; [vm_compute; reflexivity|].
  split; vm_compute; reflexivity.
Qed.

(** ** Computing in [xreal] *)

Section XrealFacts.
Local Open Scope R_scope.

Lemma Q2R_inject_Z (z : Z) : Q2R (inject_Z z) = IZR z.
Proof. unfold Q2R; cbn. field. Qed.

Lemma Q2R_0 : Q2R 0 = 0.
Proof. unfold Q2R; cbn; lra. Qed.

Lemma Q2R_1 : Q2R 1 = 1.
Proof. unfold Q2R; cbn; lra. Qed.

Lemma Q2R_2 : Q2R 2 = 2.
Proof. unfold Q2R; cbn; lra. Qed.

Lemma Q2R_tol : Q2R (1 # 10000) = 1 / 10000.
Proof. unfold Q2R; cbn; lra. Qed.

Lemma xof_int (z : Z) : of_int (D := xreal) z = Some (IZR z).
Proof. unfold of_int; cbn. now rewrite Q2R_inject_Z. Qed.

Lemma xltb_true (a b : R) : a < b -> ltb (Some a) (Some b) = true.
Proof. intros; cbn. now destruct (Rlt_dec a b). Qed.

Lemma xltb_false (a b : R) : b <= a -> ltb (Some a) (Some b) = false.
Proof. intros; cbn. destruct (Rlt_dec a b); [lra|reflexivity]. Qed.

Lemma xltb_iff (a b : R) : ltb (Some a) (Some b) = true <-> a < b.
Proof. cbn. destruct (Rlt_dec a b); split; auto; discriminate. Qed.

Lemma xleb_iff (a b : R) : leb (Some a) (Some b) = true <-> a <= b.
Proof. cbn. destruct (Rle_dec a b); split; auto; discriminate. Qed.

Lemma xltb_nan_r (x : xreal) : ltb x None = false.
Proof. now destruct x. Qed.

Lemma xsqrt_some (a : R) : 0 <= a -> sqrt (Some a) = Some (R_sqrt.sqrt a).
Proof. intros; cbn. now destruct (Rle_dec 0 a). Qed.

Lemma xsqrt_nan (a : R) : a < 0 -> sqrt (Some a) = None.
Proof. intros; cbn. destruct (Rle_dec 0 a); [lra|reflexivity]. Qed.

Lemma xdiv_some (a b : R) : b <> 0 -> div (Some a) (Some b) = Some (a / b).
Proof. intros; cbn. now destruct (Req_dec_T b 0). Qed.

Lemma xdiv_zero (a : R) : div (Some a) (Some 0) = None.
Proof. cbn. now destruct (Req_dec_T 0 0). Qed.

Lemma xhalf (a : R) : div (Some a) (lit 2) = Some (a / 2).
Proof. cbn. rewrite Q2R_2. destruct (Req_dec_T 2 0); [lra|reflexivity]. Qed.

End XrealFacts.

(** ** The characteristic equations *)

Section Equations.
Local Open Scope R_scope.

Lemma xk0 (lambda : R) :
  lambda <> 0 ->
  (lit 2 * M_PI * (lit 1 / Some lambda))%dbl = Some (Real.k0 lambda).
Proof.
  intros Hl. cbn. destruct (Req_dec_T lambda 0); [contradiction|].
  f_equal. unfold Real.k0. rewrite Q2R_1, Q2R_2. now field.
Qed.

Lemma xspec_k0 (lambda : R) :
  lambda <> 0 -> spec_k0 (Some lambda) = Some (Real.k0 lambda).
Proof.
  intros Hl. unfold spec_k0. cbn. destruct (Req_dec_T lambda 0); [contradiction|].
  f_equal. unfold Real.k0. now rewrite Q2R_2.
Qed.

(** The code's [2*pi*(1/lambda)] and the specification's [2 pi / lambda]
    agree, also when [lambda] is zero or NaN. *)
Lemma xk0_spec (lambda : xreal) :
  (lit 2 * M_PI * (lit 1 / lambda))%dbl = spec_k0 lambda.
Proof.
  destruct lambda as [l|]; [|reflexivity].
  destruct (Req_dec_T l 0) as [->|Hl].
  - unfold spec_k0. cbn. now destruct (Req_dec_T 0 0).
  - now rewrite xk0, xspec_k0.
Qed.

Lemma xpow2 (x : xreal) : pow x 2 = (x * x)%dbl.
Proof. destruct x as [a|]; [|reflexivity]. cbn. f_equal. ring. Qed.

(** The sum [j + 1] when it does not overflow. *)
Lemma int_wrap_small (z : Z) :
  (INT_MIN <= z <= INT_MAX)%Z -> int_wrap z = z.
Proof.
  unfold INT_MIN, INT_MAX, int_wrap. intros H.
  rewrite Z.mod_small by lia. lia.
Qed.

Lemma int_add_small (j : Z) :
  (INT_MIN <= j + 1 <= INT_MAX)%Z -> int_add j 1 = (j + 1)%Z.
Proof. apply int_wrap_small. Qed.

Lemma int_wrap_range (z : Z) : (INT_MIN <= int_wrap z <= INT_MAX)%Z.
Proof.
  unfold INT_MIN, INT_MAX, int_wrap.
  pose proof (Z.mod_pos_bound (z + 2147483648) 4294967296 ltac:(lia)). lia.
Qed.

Lemma slab_equation_TE_spec (n1 n2 n3 lambda W : xreal) (j : Z) (neff : xreal) :
  int_add j 1 = (j + 1)%Z ->
  slab_equation TE n1 n2 n3 lambda W j neff =
  spec_TE_residual n1 n2 n3 lambda W j neff.
Proof.
  intros Hj. unfold slab_equation, spec_TE_residual, pi.
  rewrite xk0_spec, !xpow2, Hj.
  replace (of_int (D := xreal) (j + 1)) with (of_int j + lit 1 : xreal)%dbl;
    [reflexivity|].
  rewrite !xof_int. cbn. now rewrite Q2R_1, plus_IZR.
Qed.

(** The residual as a real number; the order that enters it is the sum
    the program computes, less one. *)
Lemma slab_equation_real_wrap (mode : Mode) (n1 n2 n3 lambda W : R) (j : Z)
  (x : R) :
  lambda <> 0 -> n1 ^ 2 <= x ^ 2 -> x ^ 2 <= n2 ^ 2 -> n3 ^ 2 <= x ^ 2 ->
  slab_equation mode (Some n1) (Some n2) (Some n3) (Some lambda) (Some W) j
                (Some x)
  = Some (Real.slab_residual mode n1 n2 n3 lambda W (int_add j 1 - 1) x).
Proof.
  intros Hl H1 H2 H3. unfold slab_equation, pi.
  rewrite xk0 by assumption. rewrite xof_int.
  change (pow (Some x) 2) with (Some (x ^ 2)).
  change (pow (Some n1) 2) with (Some (n1 ^ 2)).
  change (pow (Some n2) 2) with (Some (n2 ^ 2)).
  change (pow (Some n3) 2) with (Some (n3 ^ 2)).
  change (Some (x ^ 2) - Some (n1 ^ 2))%dbl with (Some (x ^ 2 - n1 ^ 2)).
  change (Some (n2 ^ 2) - Some (x ^ 2))%dbl with (Some (n2 ^ 2 - x ^ 2)).
  change (Some (x ^ 2) - Some (n3 ^ 2))%dbl with (Some (x ^ 2 - n3 ^ 2)).
  rewrite !xsqrt_some by lra.
  destruct mode; cbn -[Rpow_def.pow int_add]; f_equal;
    unfold Real.slab_residual, Real.decay, Real.osc;
    rewrite minus_IZR;
    replace (IZR (int_add j 1) - 1 + 1) with (IZR (int_add j 1)) by ring;
    reflexivity.
Qed.

Lemma slab_equation_real (mode : Mode) (n1 n2 n3 lambda W : R) (j : Z) (x : R) :
  int_add j 1 = (j + 1)%Z ->
  lambda <> 0 -> n1 ^ 2 <= x ^ 2 -> x ^ 2 <= n2 ^ 2 -> n3 ^ 2 <= x ^ 2 ->
  slab_equation mode (Some n1) (Some n2) (Some n3) (Some lambda) (Some W) j
                (Some x)
  = Some (Real.slab_residual mode n1 n2 n3 lambda W j x).
Proof.
  intros Hj Hl H1 H2 H3. rewrite slab_equation_real_wrap by assumption.
  rewrite Hj. now replace (j + 1 - 1)%Z with j by lia.
Qed.

End Equations.

Section Slot.
Local Open Scope R_scope.

Lemma sinh_neq_0 (x : R) : x <> 0 -> sinh x <> 0.
Proof.
  intros Hx. unfold sinh.
  destruct (Rtotal_order x 0) as [H|[H|H]]; [|contradiction|].
  - assert (Rtrigo_def.exp x < Rtrigo_def.exp (- x)) by (apply exp_increasing; lra). lra.
  - assert (Rtrigo_def.exp (- x) < Rtrigo_def.exp x) by (apply exp_increasing; lra). lra.
Qed.

Lemma cosh_pos (x : R) : 0 < cosh x.
Proof.
  unfold cosh. pose proof (exp_pos x). pose proof (exp_pos (- x)). lra.
Qed.

Lemma tanh_neq_0 (x : R) : x <> 0 -> Rtrigo_def.tanh x <> 0.
Proof.
  intros Hx. unfold Rtrigo_def.tanh.
  pose proof (sinh_neq_0 x Hx). pose proof (cosh_pos x).
  intros E. apply H. 
  apply Rmult_eq_reg_r with (/ cosh x).
  - rewrite Rmult_0_l. exact E.
  - apply Rinv_neq_0_compat. lra.
Qed.

Lemma slot_cosh_equation_spec (n_clad n_core n_slot lambda w_slot w_core : xreal)
  (j : Z) (neff : xreal) :
  slot_cosh_equation n_clad n_core n_slot lambda
    (w_slot / lit 2)%dbl (w_slot / lit 2 + w_core)%dbl j neff
  = spec_slot_residual tanh n_clad n_core n_slot lambda w_slot w_core j neff.
Proof. reflexivity. Qed.

Lemma slot_sinh_equation_spec (n_clad n_core n_slot lambda w_slot w_core : xreal)
  (j : Z) (neff : xreal) :
  slot_sinh_equation n_clad n_core n_slot lambda
    (w_slot / lit 2)%dbl (w_slot / lit 2 + w_core)%dbl j neff
  = spec_slot_residual spec_coth n_clad n_core n_slot lambda w_slot w_core j neff.
Proof. reflexivity. Qed.

Lemma xsq (x : R) : (Some x * Some x)%dbl = Some (x ^ 2).
Proof. cbn. f_equal. ring. Qed.

Lemma spec_slot_residual_tanh_real (n_clad n_core n_slot lambda w_slot w_core : R)
  (j : Z) (x : R) :
  lambda <> 0 -> n_slot ^ 2 <= x ^ 2 -> x ^ 2 <= n_core ^ 2 ->
  n_clad ^ 2 <= x ^ 2 ->
  spec_slot_residual tanh (Some n_clad) (Some n_core) (Some n_slot)
    (Some lambda) (Some w_slot) (Some w_core) j (Some x)
  = Some (Real.slot_residual Rtrigo_def.tanh n_clad n_core n_slot lambda
            w_slot w_core j x).
Proof.
  intros Hl H1 H2 H3. unfold spec_slot_residual.
  rewrite xspec_k0 by assumption. rewrite xof_int, xhalf, !xsq.
  change (Some (x ^ 2) - Some (n_slot ^ 2))%dbl with (Some (x ^ 2 - n_slot ^ 2)).
  change (Some (n_core ^ 2) - Some (x ^ 2))%dbl with (Some (n_core ^ 2 - x ^ 2)).
  change (Some (x ^ 2) - Some (n_clad ^ 2))%dbl with (Some (x ^ 2 - n_clad ^ 2)).
  rewrite !xsqrt_some by lra.
  reflexivity.
Qed.

Lemma spec_slot_residual_coth_real (n_clad n_core n_slot lambda w_slot w_core : R)
  (j : Z) (x : R) :
  lambda <> 0 -> n_slot ^ 2 < x ^ 2 -> x ^ 2 <= n_core ^ 2 ->
  n_clad ^ 2 <= x ^ 2 -> w_slot <> 0 ->
  spec_slot_residual spec_coth (Some n_clad) (Some n_core) (Some n_slot)
    (Some lambda) (Some w_slot) (Some w_core) j (Some x)
  = Some (Real.slot_residual Real.coth n_clad n_core n_slot lambda
            w_slot w_core j x).
Proof.
  intros Hl H1 H2 H3 Hw. unfold spec_slot_residual.
  rewrite xspec_k0 by assumption. rewrite xof_int, xhalf, !xsq.
  change (Some (x ^ 2) - Some (n_slot ^ 2))%dbl with (Some (x ^ 2 - n_slot ^ 2)).
  change (Some (n_core ^ 2) - Some (x ^ 2))%dbl with (Some (n_core ^ 2 - x ^ 2)).
  change (Some (x ^ 2) - Some (n_clad ^ 2))%dbl with (Some (x ^ 2 - n_clad ^ 2)).
  rewrite !xsqrt_some by lra.
  unfold spec_coth.
  cbn [lit mul tanh xreal_Arith xreal_Libm xlift1 xlift2].
  rewrite Q2R_1, xdiv_some.
  - rewrite Rdiv_1_l. reflexivity.
  - apply tanh_neq_0. fold (Real.decay lambda n_slot x). unfold Real.decay, Real.k0.
    assert (0 < R_sqrt.sqrt (x ^ 2 - n_slot ^ 2)) by (apply sqrt_lt_R0; lra).
    pose proof PI_RGT_0.
    apply Rmult_integral_contrapositive_currified.
    + apply Rmult_integral_contrapositive_currified; [|lra].
      unfold Rdiv. apply Rmult_integral_contrapositive_currified; [lra|].
      now apply Rinv_neq_0_compat.
    + unfold Rdiv. apply Rmult_integral_contrapositive_currified; lra.
Qed.

End Slot.

Section Claims67.
Local Open Scope R_scope.

Lemma band_squares (n x : R) : 0 <= n -> n < x -> n ^ 2 < x ^ 2.
Proof. intros; nra. Qed.

Lemma Rmax_lt_l (a b x : R) : Rmax a b < x -> a < x /\ b < x.
Proof.
  intros H. pose proof (Rmax_l a b). pose proof (Rmax_r a b). lra.
Qed.

Lemma int_add_INT_MAX : int_add INT_MAX 1 = INT_MIN.
Proof. reflexivity. Qed.

Lemma slab_equation_real_overflow (mode : Mode) (n1 n2 n3 lambda W x : R) :
  lambda <> 0 -> n1 ^ 2 <= x ^ 2 -> x ^ 2 <= n2 ^ 2 -> n3 ^ 2 <= x ^ 2 ->
  slab_equation mode (Some n1) (Some n2) (Some n3) (Some lambda) (Some W)
                2147483647 (Some x)
  = Some (Real.slab_residual mode n1 n2 n3 lambda W (-2147483649) x).
Proof.
  intros Hl H1 H2 H3.
  now rewrite (slab_equation_real_wrap mode n1 n2 n3 lambda W 2147483647 x).
Qed.

(** C6: the TE evaluation of [slab_equation] is the residual
    [(-atan2(g2,g1) - atan2(g2,g3) + (j+1) pi) - g2 W] for every order
    [j] below [INT_MAX]:
    - in every arithmetic, binary64 included, with the operations in the
      order of the code and [k0 = 2 pi (1 / lambda)];
    - in the reals with a NaN, where [k0 = 2 pi / lambda], for every input;
    - as a real number for a positive wavelength, non-negative outer
      indices and [neff] between [max(n1, n3)] and [n2].
    At [j = INT_MAX] the sum [j + 1] is computed on [int] and wraps to
    [INT_MIN]: the code returns the residual with [-2147483648 pi] in place
    of [2147483648 pi], another number.  In binary64 the code's
    [2 pi (1 / lambda)] is not always the quotient [2 pi / lambda]: for
    [lambda = 1.31] the two differ. *)
Theorem C6_slab_equation_TE_residual :
  (forall (D : Type) (AD : Arith D) (LD : Libm D) (n1 n2 n3 lambda W : D)
          (j : Z) (neff : D),
     (INT_MIN <= j < INT_MAX)%Z ->
     slab_equation TE n1 n2 n3 lambda W j neff
     = (let k0 := lit 2 * M_PI * (lit 1 / lambda) in
        let g1 := k0 * sqrt (pow neff 2 - pow n1 2) in
        let g2 := k0 * sqrt (pow n2 2 - pow neff 2) in
        let g3 := k0 * sqrt (pow neff 2 - pow n3 2) in
        (- atan2 g2 g1 - atan2 g2 g3 + of_int (j + 1) * M_PI) - g2 * W)%dbl)
  /\
  (forall (n1 n2 n3 lambda W : xreal) (j : Z) (neff : xreal),
     (INT_MIN <= j < INT_MAX)%Z ->
     slab_equation TE n1 n2 n3 lambda W j neff
     = spec_TE_residual n1 n2 n3 lambda W j neff)
  /\
  (forall (n1 n2 n3 lambda W : R) (j : Z) (neff : R),
     (INT_MIN <= j < INT_MAX)%Z ->
     0 < lambda -> 0 <= n1 -> 0 <= n3 -> Rmax n1 n3 < neff < n2 ->
     slab_equation TE (Some n1) (Some n2) (Some n3) (Some lambda) (Some W) j
                   (Some neff)
     = Some ((- Ratan2 (Real.osc lambda n2 neff) (Real.decay lambda n1 neff)
              - Ratan2 (Real.osc lambda n2 neff) (Real.decay lambda n3 neff)
              + (IZR j + 1) * PI)
             - Real.osc lambda n2 neff * W))
  /\
  (forall (n1 n2 n3 lambda W : R) (neff : R),
     0 < lambda -> 0 <= n1 -> 0 <= n3 -> Rmax n1 n3 < neff < n2 ->
     let residual (m : R) :=
       (- Ratan2 (Real.osc lambda n2 neff) (Real.decay lambda n1 neff)
        - Ratan2 (Real.osc lambda n2 neff) (Real.decay lambda n3 neff)
        + m * PI)
       - Real.osc lambda n2 neff * W in
     slab_equation TE (Some n1) (Some n2) (Some n3) (Some lambda) (Some W)
                   INT_MAX (Some neff)
     = Some (residual (IZR INT_MIN))
     /\ residual (IZR INT_MIN) = residual (IZR INT_MAX + 1) - 4294967296 * PI
     /\ residual (IZR INT_MIN) <> residual (IZR INT_MAX + 1))
  /\
  (let lambda : float := lit (131 # 100)%Q in
   PrimFloat.eqb (lit 2 * M_PI_binary64 * (lit 1 / lambda))%dbl
                 (lit 2 * M_PI_binary64 / lambda)%dbl = false).
Proof.
  split; [|split; [|split; [|split]]].
  - intros D AD LD n1 n2 n3 lambda W j neff Hj.
    unfold slab_equation. rewrite int_add_small; [reflexivity|].
    unfold INT_MIN, INT_MAX in *. lia.
  - intros n1 n2 n3 lambda W j neff Hj.
    apply slab_equation_TE_spec, int_add_small.
    unfold INT_MIN, INT_MAX in *. lia.
  - intros n1 n2 n3 lambda W j neff Hj Hl H1 H3 [Hlo Hhi].
    apply Rmax_lt_l in Hlo. destruct Hlo as [Hlo1 Hlo3].
    pose proof (band_squares n1 neff H1 Hlo1).
    pose proof (band_squares n3 neff H3 Hlo3).
    assert (neff ^ 2 < n2 ^ 2) by (apply band_squares; lra).
    rewrite slab_equation_real; try lra; [reflexivity|].
    apply int_add_small. unfold INT_MIN, INT_MAX in *. lia.
  - intros n1 n2 n3 lambda W neff Hl H1 H3 [Hlo Hhi] residual.
    apply Rmax_lt_l in Hlo. destruct Hlo as [Hlo1 Hlo3].
    pose proof (band_squares n1 neff H1 Hlo1).
    pose proof (band_squares n3 neff H3 Hlo3).
    assert (neff ^ 2 < n2 ^ 2) by (apply band_squares; lra).
    pose proof PI_RGT_0 as Hpi.
    assert (E : residual (IZR INT_MIN)
                = residual (IZR INT_MAX + 1) - 4294967296 * PI)
      by (unfold residual, INT_MIN, INT_MAX; ring).
    split; [|split; [exact E|rewrite E; lra]].
    unfold INT_MAX. rewrite slab_equation_real_overflow by lra.
    unfold residual, INT_MIN, Real.slab_residual. f_equal. ring.
  - vm_compute. reflexivity.
Qed.

Lemma C6_witness :
  slab_equation TE (Some 1) (Some 2) (Some 1) (Some 1) (Some 1) 0
                (Some (3 / 2))
  = Some ((- Ratan2 (Real.osc 1 2 (3 / 2)) (Real.decay 1 1 (3 / 2))
           - Ratan2 (Real.osc 1 2 (3 / 2)) (Real.decay 1 1 (3 / 2))
           + (IZR 0 + 1) * PI)
          - Real.osc 1 2 (3 / 2) * 1).
Proof.
  apply (proj1 (proj2 (proj2 C6_slab_equation_TE_residual))); try lra.
  - unfold INT_MIN, INT_MAX. lia.
  - rminmax.
Defined.

(** C7: with [a = w_slot / 2] and [b = a + w_core] the even and the odd
    slot residuals are [kappa (b - a) - [atan2(nc^2 g_clad, ncl^2 kappa)
    + atan2(nc^2 g_slot th(g_slot a), ns^2 kappa) + j pi]], [th] being
    [tanh] for the even form and [coth] for the odd one -- for every input
    in the arithmetic of the code, and as a real number for [neff] between
    [max(n_clad, n_slot)] and [n_core] (the odd form for a slot of
    non-zero width, where [coth] is defined). *)
Theorem C7_slot_equations_residual :
  (forall (n_clad n_core n_slot lambda w_slot w_core : xreal) (j : Z)
          (neff : xreal),
     let a := (w_slot / lit 2)%dbl in
     let b := (a + w_core)%dbl in
     slot_cosh_equation n_clad n_core n_slot lambda a b j neff
     = spec_slot_residual tanh n_clad n_core n_slot lambda w_slot w_core j neff
     /\
     slot_sinh_equation n_clad n_core n_slot lambda a b j neff
     = spec_slot_residual spec_coth n_clad n_core n_slot lambda w_slot w_core
         j neff)
  /\
  (forall (n_clad n_core n_slot lambda w_slot w_core : R) (j : Z) (neff : R),
     0 < lambda -> 0 <= n_clad -> 0 <= n_slot ->
     Rmax n_clad n_slot < neff < n_core ->
     let a := (Some w_slot / lit 2)%dbl in
     let b := (a + Some w_core)%dbl in
     slot_cosh_equation (Some n_clad) (Some n_core) (Some n_slot)
       (Some lambda) a b j (Some neff)
     = Some (Real.slot_residual Rtrigo_def.tanh n_clad n_core n_slot lambda
               w_slot w_core j neff)
     /\
     (w_slot <> 0 ->
      slot_sinh_equation (Some n_clad) (Some n_core) (Some n_slot)
        (Some lambda) a b j (Some neff)
      = Some (Real.slot_residual Real.coth n_clad n_core n_slot lambda
                w_slot w_core j neff))).
Proof.
  split.
  - intros; split; reflexivity.
  - intros n_clad n_core n_slot lambda w_slot w_core j neff Hl Hc Hs [Hlo Hhi].
    apply Rmax_lt_l in Hlo. destruct Hlo as [Hlo1 Hlo3].
    pose proof (band_squares n_clad neff Hc Hlo1).
    pose proof (band_squares n_slot neff Hs Hlo3).
    assert (neff ^ 2 < n_core ^ 2) by (apply band_squares; lra).
    cbv zeta. split.
    + rewrite slot_cosh_equation_spec.
      apply spec_slot_residual_tanh_real; lra.
    + intros Hw. rewrite slot_sinh_equation_spec.
      apply spec_slot_residual_coth_real; lra.
Qed.

Lemma C7_witness :
  slot_cosh_equation (Some 1) (Some 2) (Some 1) (Some 1)
    (Some 1 / lit 2)%dbl (Some 1 / lit 2 + Some 1)%dbl 0 (Some (3 / 2))
  = Some (Real.slot_residual Rtrigo_def.tanh 1 2 1 1 1 1 0 (3 / 2))
  /\
  slot_sinh_equation (Some 1) (Some 2) (Some 1) (Some 1)
    (Some 1 / lit 2)%dbl (Some 1 / lit 2 + Some 1)%dbl 0 (Some (3 / 2))
  = Some (Real.slot_residual Real.coth 1 2 1 1 1 1 0 (3 / 2)).
Proof.
  assert (Hb : Rmax 1 1 < 3 / 2 < 2)
    by rminmax.
  destruct (proj2 C7_slot_equations_residual 1 2 1 1 1 1 0%Z (3 / 2))
    as [He Ho]; try lra.
  split; [exact He|apply Ho; lra].
Defined.

End Claims67.

(** ** The fallback of the solvers *)

Section Fallback.
Context {D : Type} {AD : Arith D} {LD : Libm D}.
Local Open Scope dbl_scope.

Lemma solve_mode_invalid_range (f : D -> D) (nmin nmax : D) :
  (f nmin * f nmax >? lit 0) = true -> solve_mode f nmin nmax = nmin.
Proof.
  intros Hs. unfold solve_mode.
  now rewrite (bisection_invalid_range f nmin nmax _ _ Hs).
Qed.

(** The result of one root find is the bound or what [bisection]
    returned with status CONVERGED. *)
Lemma solve_mode_cases (f : D -> D) (nmin nmax : D) :
  solve_mode f nmin nmax = nmin \/
  (solve_mode f nmin nmax
   = fst (bisection f nmin nmax default_tol default_max_iter) /\
   status (snd (bisection f nmin nmax default_tol default_max_iter))
   = CONVERGED).
Proof.
  unfold solve_mode.
  destruct (status (snd (bisection f nmin nmax default_tol default_max_iter)));
    auto.
Qed.

End Fallback.

Section Ratan2Facts.
Local Open Scope R_scope.

Lemma Ratan2_0_0 : Ratan2 0 0 = 0.
Proof.
  unfold Ratan2. destruct (Rlt_dec 0 0); [lra|]. reflexivity.
Qed.

Lemma Ratan2_pos_r (y x : R) : 0 < x -> Ratan2 y x = atan (y / x).
Proof. intros; unfold Ratan2. now destruct (Rlt_dec 0 x). Qed.

Lemma Ratan2_0_pos (x : R) : 0 < x -> Ratan2 0 x = 0.
Proof.
  intros; rewrite Ratan2_pos_r by assumption.
  unfold Rdiv; rewrite Rmult_0_l. apply atan_0.
Qed.

Lemma Ratan2_pos_0 (y : R) : 0 < y -> Ratan2 y 0 = PI / 2.
Proof.
  intros; unfold Ratan2. destruct (Rlt_dec 0 0); [lra|].
  now destruct (Rlt_dec 0 y).
Qed.

Lemma Ratan2_nonneg (y x : R) : 0 <= y -> 0 <= x -> 0 <= Ratan2 y x <= PI / 2.
Proof.
  intros Hy Hx. pose proof PI_RGT_0.
  destruct (Rtotal_order 0 x) as [H0|[H0|H0]]; [| |lra].
  - rewrite Ratan2_pos_r by assumption.
    assert (0 <= y / x).
    { apply Rmult_le_pos; [assumption|]. left. now apply Rinv_0_lt_compat. }
    pose proof (atan_bound (y / x)).
    destruct H1 as [H1|H1].
    + pose proof (atan_increasing 0 (y / x) H1). rewrite atan_0 in *. lra.
    + rewrite <- H1, atan_0. lra.
  - subst x. destruct Hy as [Hy|Hy].
    + rewrite Ratan2_pos_0 by assumption. lra.
    + subst y. rewrite Ratan2_0_0. lra.
Qed.

End Ratan2Facts.

Section FallbackXreal.
Local Open Scope R_scope.

Lemma slab_equation_nan (mode : Mode) (n1 n2 n3 lambda W : xreal) (j : Z) :
  slab_equation mode n1 n2 n3 lambda W j None = None.
Proof.
  unfold slab_equation.
  destruct (lit 2 * pi * (lit 1 / lambda))%dbl as [k|];
    destruct n1, n2, n3, W, mode; reflexivity.
Qed.

Lemma slot_cosh_equation_nan (n_clad n_core n_slot lambda a b : xreal) (j : Z) :
  slot_cosh_equation n_clad n_core n_slot lambda a b j None = None.
Proof.
  unfold slot_cosh_equation.
  destruct (lit 2 * pi / lambda)%dbl as [k|];
    destruct n_clad, n_core, n_slot, a, b; reflexivity.
Qed.

Lemma slot_sinh_equation_nan (n_clad n_core n_slot lambda a b : xreal) (j : Z) :
  slot_sinh_equation n_clad n_core n_slot lambda a b j None = None.
Proof.
  unfold slot_sinh_equation.
  destruct (lit 2 * pi / lambda)%dbl as [k|];
    destruct n_clad, n_core, n_slot, a, b; reflexivity.
Qed.

(** A sign test that succeeds was computed at a bound that is a number. *)
Lemma sign_test_number (f : xreal -> xreal) (a b : xreal) :
  f None = None -> (f a * f b >? lit 0)%dbl = true -> exists r : R, a = Some r.
Proof.
  intros Hn Hs. destruct a as [r|]; [now exists r|].
  rewrite Hn in Hs. discriminate.
Qed.

End FallbackXreal.

(** ** The field reconstruction *)

Section StoreFacts.
Context {T : Type}.

Lemma store_length (l : list T) (i : nat) (v : T) :
  length (store l i v) = length l.
Proof.
  revert i; induction l as [|y l IH]; intros [|i]; cbn; auto.
Qed.

Lemma nth_store_same (l : list T) (i : nat) (v d : T) :
  (i < length l)%nat -> nth i (store l i v) d = v.
Proof.
  revert i; induction l as [|y l IH]; intros [|i] Hi; cbn in *;
    try lia; auto. apply IH; lia.
Qed.

Lemma nth_store_other (l : list T) (i k : nat) (v d : T) :
  k <> i -> nth k (store l i v) d = nth k l d.
Proof.
  revert i k; induction l as [|y l IH]; intros [|i] [|k] Hk; cbn;
    try reflexivity; try lia. apply IH; lia.
Qed.

End StoreFacts.

Section FieldFacts.
Context {D : Type} {AD : Arith D} {LD : Libm D}.
Variable mode : Mode.
Variables neff n1 n2 n3 lambda W : D.
Variable j : Z.

(** The lateral component of one sample. *)
Lemma field_at_lateral (xi : D) (Ai Bli Bni : field_t D) :
  field_at mode neff n1 n2 n3 lambda W j xi = Some (Ai, Bli, Bni) ->
  Bli = match mode with
        | TE => cdivd (cmuld Ai n1) eta0
        | TM => cdivd (cmuld Ai eta0) n1
        end.
Proof.
  unfold field_at.
  destruct (xi <? lit 0)%dbl; [now intros [= <- <- <-]|].
  destruct ((xi >=? lit 0)%dbl && (xi <=? W)%dbl); [now intros [= <- <- <-]|].
  destruct (xi >? W)%dbl; [now intros [= <- <- <-]|discriminate].
Qed.

Local Abbreviation step x :=
  (fun o i => calculate_field mode neff n1 n2 n3 lambda W j x i o).

Lemma calculate_field_lengths (x : list D) (i : nat) (o : fields) :
  length (A (calculate_field mode neff n1 n2 n3 lambda W j x i o))
  = length (A o) /\
  length (Bl (calculate_field mode neff n1 n2 n3 lambda W j x i o))
  = length (Bl o).
Proof.
  unfold calculate_field.
  destruct (field_at _ _ _ _ _ _ _ _ _) as [[[a b] c0]|]; cbn;
    rewrite ?store_length; auto.
Qed.

(** Samples the loop has not reached keep what the arrays held, and the
    arrays keep their lengths. *)
Lemma loop_untouched (x : list D) (l : list nat) :
  forall (o : fields) (k : nat) (d : field_t D),
  ~ In k l ->
  let o' := fold_left (step x) l o in
  nth k (A o') d = nth k (A o) d /\ nth k (Bl o') d = nth k (Bl o) d /\
  length (A o') = length (A o) /\ length (Bl o') = length (Bl o).
Proof.
  induction l as [|i l IH]; intros o k d Hk; cbn; [auto|].
  destruct (IH (calculate_field mode neff n1 n2 n3 lambda W j x i o) k d)
    as (HA & HB & HlA & HlB); [intros Hin; apply Hk; now right|].
  cbn in HA, HB, HlA, HlB. rewrite HA, HB, HlA, HlB.
  destruct (calculate_field_lengths x i o) as [-> ->].
  assert (k <> i) by (intros ->; apply Hk; now left).
  unfold calculate_field.
  destruct (field_at _ _ _ _ _ _ _ _ _) as [[[a b] c0]|]; cbn;
    rewrite ?nth_store_other by assumption; auto.
Qed.

(** What the loop leaves at a sample it has visited. *)
Lemma loop_visited (x : list D) (l : list nat) :
  forall (o : fields) (i : nat) (d : field_t D) (Ai Bli Bni : field_t D),
  NoDup l -> In i l ->
  (i < length (A o))%nat -> (i < length (Bl o))%nat ->
  field_at mode neff n1 n2 n3 lambda W j (nth i x (lit 0))
  = Some (Ai, Bli, Bni) ->
  let o' := fold_left (step x) l o in
  nth i (A o') d = Ai /\ nth i (Bl o') d = Bli.
Proof.
  induction l as [|k l IH]; intros o i d Ai Bli Bni Hnd Hin HlA HlB Hf;
    [contradiction|].
  inversion Hnd as [|? ? Hk Hnd']; subst. cbn.
  destruct (calculate_field_lengths x k o) as [EA EB].
  destruct Hin as [->|Hin].
  - destruct (loop_untouched x l
                (calculate_field mode neff n1 n2 n3 lambda W j x i o) i d Hk)
      as (HA & HB & _). cbn in HA, HB. rewrite HA, HB.
    unfold calculate_field. rewrite Hf. cbn.
    now rewrite !nth_store_same by assumption.
  - apply IH with (Bni := Bni); auto; [now rewrite EA|now rewrite EB].
Qed.

End FieldFacts.

Section FieldXreal.
Local Open Scope R_scope.

Lemma xleb_true (a b : R) : a <= b -> leb (Some a) (Some b) = true.
Proof. intros; cbn. now destruct (Rle_dec a b). Qed.

Lemma xleb_false (a b : R) : b < a -> leb (Some a) (Some b) = false.
Proof. intros; cbn. destruct (Rle_dec a b); [lra|reflexivity]. Qed.

Lemma xlit_0 : lit (D := xreal) 0 = Some 0.
Proof. cbn. now rewrite Q2R_0. Qed.

Lemma xlit_1 : lit (D := xreal) 1 = Some 1.
Proof. cbn. now rewrite Q2R_1. Qed.


(** The constants of [mode_1D] for a [neff] in the band. *)
Lemma xgamma1 (neff n1 lambda : R) :
  lambda <> 0 -> n1 ^ 2 <= neff ^ 2 ->
  gamma1 (Some neff) (Some n1) (Some lambda)
  = Some (Real.decay lambda n1 neff).
Proof.
  intros Hl H. unfold gamma1, k0, pi. rewrite xk0 by assumption.
  change (pow (Some neff) 2 - pow (Some n1) 2)%dbl
    with (Some (neff ^ 2 - n1 ^ 2)).
  rewrite xsqrt_some by lra. reflexivity.
Qed.

Lemma xgamma2 (neff n2 lambda : R) :
  lambda <> 0 -> neff ^ 2 <= n2 ^ 2 ->
  gamma2 (Some neff) (Some n2) (Some lambda)
  = Some (Real.osc lambda n2 neff).
Proof.
  intros Hl H. unfold gamma2, k0, pi. rewrite xk0 by assumption.
  change (pow (Some n2) 2 - pow (Some neff) 2)%dbl
    with (Some (n2 ^ 2 - neff ^ 2)).
  rewrite xsqrt_some by lra. reflexivity.
Qed.

Lemma xgamma3 (neff n3 lambda : R) :
  lambda <> 0 -> n3 ^ 2 <= neff ^ 2 ->
  gamma3 (Some neff) (Some n3) (Some lambda)
  = Some (Real.decay lambda n3 neff).
Proof. exact (xgamma1 neff n3 lambda). Qed.

Lemma xalpha (mode : Mode) (neff n1 n2 lambda : R) (j : Z) :
  lambda <> 0 -> n1 ^ 2 <= neff ^ 2 -> neff ^ 2 <= n2 ^ 2 ->
  alpha mode (Some neff) (Some n1) (Some n2) (Some lambda) j
  = Some (Real.alpha mode n1 n2 lambda j neff).
Proof.
  intros Hl H1 H2. unfold alpha, pi.
  rewrite xgamma1, xgamma2, xof_int by assumption.
  destruct mode; rewrite ?xlit_1; reflexivity.
Qed.

Lemma xA_core (mode : Mode) (neff n1 n2 lambda : R) (j : Z) (x : R) :
  lambda <> 0 -> n1 ^ 2 <= neff ^ 2 -> neff ^ 2 <= n2 ^ 2 ->
  A_core mode (Some neff) (Some n1) (Some n2) (Some lambda) j (Some x)
  = Some (Rtrigo_def.cos (Real.osc lambda n2 neff * x
                          + Real.alpha mode n1 n2 lambda j neff)).
Proof.
  intros Hl H1 H2. unfold A_core, C2.
  rewrite xalpha, xgamma2, xlit_1 by assumption.
  cbn. f_equal. ring.
Qed.

Lemma xA_box_0 (mode : Mode) (neff n1 n2 lambda : R) (j : Z) :
  lambda <> 0 -> n1 <> 0 -> n1 ^ 2 <= neff ^ 2 -> neff ^ 2 <= n2 ^ 2 ->
  A_box mode (Some neff) (Some n1) (Some n2) (Some lambda) j (Some 0)
  = Some (Rtrigo_def.cos (Real.alpha mode n1 n2 lambda j neff)
          * match mode with TM => n2 ^ 2 / n1 ^ 2 | TE => 1 end).
Proof.
  intros Hl Hn H1 H2. unfold A_box, C1, C2.
  rewrite xalpha, xgamma1, xlit_1 by assumption.
  assert (n1 ^ 2 <> 0) by (apply pow_nonzero; assumption).
  destruct mode.
  - cbn. f_equal. rewrite Rmult_0_r, exp_0. ring.
  - change (pow (Some n2) 2) with (Some (n2 ^ 2)).
    change (pow (Some n1) 2) with (Some (n1 ^ 2)).
    rewrite xdiv_some by assumption.
    cbn -[Rpow_def.pow]. f_equal. rewrite Rmult_0_r, exp_0. ring.
Qed.

Lemma xA_clad_W (mode : Mode) (neff n1 n2 n3 lambda W : R) (j : Z) :
  lambda <> 0 -> n3 <> 0 -> n1 ^ 2 <= neff ^ 2 -> neff ^ 2 <= n2 ^ 2 ->
  n3 ^ 2 <= neff ^ 2 ->
  A_clad mode (Some neff) (Some n1) (Some n2) (Some n3) (Some lambda)
         (Some W) j (Some W)
  = Some (Rtrigo_def.cos (Real.osc lambda n2 neff * W
                          + Real.alpha mode n1 n2 lambda j neff)
          * match mode with TM => n2 ^ 2 / n3 ^ 2 | TE => 1 end).
Proof.
  intros Hl Hn H1 H2 H3. unfold A_clad, C3, C2.
  rewrite xalpha, xgamma2, xgamma3, xlit_1 by assumption.
  assert (n3 ^ 2 <> 0) by (apply pow_nonzero; assumption).
  destruct mode.
  - cbn. f_equal.
    replace (- Real.decay lambda n3 neff * (W - W)) with 0 by ring.
    rewrite exp_0. ring.
  - change (pow (Some n2) 2) with (Some (n2 ^ 2)).
    change (pow (Some n3) 2) with (Some (n3 ^ 2)).
    rewrite xdiv_some by assumption.
    cbn -[Rpow_def.pow]. f_equal.
    replace (- Real.decay lambda n3 neff * (W - W)) with 0 by ring.
    rewrite exp_0. ring.
Qed.

(** The amplitude at the two boundaries, for a [neff] in the band. *)
Lemma amplitude_at_boundaries (mode : Mode) (neff n1 n2 n3 lambda W : R)
  (j : Z) :
  0 < lambda -> 0 < n1 -> 0 < n3 -> Rmax n1 n3 < neff < n2 ->
  let a0 := Rtrigo_def.cos (Real.osc lambda n2 neff * 0
                            + Real.alpha mode n1 n2 lambda j neff) in
  let aW := Rtrigo_def.cos (Real.osc lambda n2 neff * W
                            + Real.alpha mode n1 n2 lambda j neff) in
  A_core mode (Some neff) (Some n1) (Some n2) (Some lambda) j (Some 0)
  = Some a0
  /\ A_core mode (Some neff) (Some n1) (Some n2) (Some lambda) j (Some W)
     = Some aW
  /\ A_box mode (Some neff) (Some n1) (Some n2) (Some lambda) j (Some 0)
     = Some (a0 * match mode with TM => n2 ^ 2 / n1 ^ 2 | TE => 1 end)
  /\ A_clad mode (Some neff) (Some n1) (Some n2) (Some n3) (Some lambda)
            (Some W) j (Some W)
     = Some (aW * match mode with TM => n2 ^ 2 / n3 ^ 2 | TE => 1 end).
Proof.
  intros Hl H1 H3 [Hlo Hhi] a0 aW.
  apply Rmax_lt_l in Hlo. destruct Hlo as [Hlo1 Hlo3].
  pose proof (band_squares n1 neff (Rlt_le _ _ H1) Hlo1).
  pose proof (band_squares n3 neff (Rlt_le _ _ H3) Hlo3).
  assert (neff ^ 2 < n2 ^ 2) by (apply band_squares; lra).
  repeat split.
  - apply xA_core; lra.
  - apply xA_core; lra.
  - rewrite xA_box_0 by lra. subst a0.
    now rewrite Rmult_0_r, Rplus_0_l.
  - apply xA_clad_W; lra.
Qed.

(** C8: what [mode_1D] computes at the two boundaries, for a [neff] in
    the band.  The TE amplitude is continuous at [x = 0] and at [x = W]
    ([C1 = C2 cos(alpha)], [C3 = C2 cos(gamma2 W + alpha)], the boundary
    conditions that the comment above the coefficients lists).  The TM
    amplitude is not: [C1] and [C3] carry one factor more, and the
    expression of the box region at [x = 0] is the one of the core times
    [n2^2 / n1^2], the expression of the cladding region at [x = W] is the
    one of the core times [n2^2 / n3^2]. *)
Theorem C8_amplitude_at_boundaries :
  forall (neff n1 n2 n3 lambda W : R) (j : Z),
  0 < lambda -> 0 < n1 -> 0 < n3 -> Rmax n1 n3 < neff < n2 ->
  exists te0 teW tm0 tmW : R,
    A_box TE (Some neff) (Some n1) (Some n2) (Some lambda) j (Some 0)
    = Some te0
    /\ A_core TE (Some neff) (Some n1) (Some n2) (Some lambda) j (Some 0)
       = Some te0
    /\ A_core TE (Some neff) (Some n1) (Some n2) (Some lambda) j (Some W)
       = Some teW
    /\ A_clad TE (Some neff) (Some n1) (Some n2) (Some n3) (Some lambda)
              (Some W) j (Some W) = Some teW
    /\ A_box TM (Some neff) (Some n1) (Some n2) (Some lambda) j (Some 0)
       = Some (tm0 * (n2 ^ 2 / n1 ^ 2))
    /\ A_core TM (Some neff) (Some n1) (Some n2) (Some lambda) j (Some 0)
       = Some tm0
    /\ A_core TM (Some neff) (Some n1) (Some n2) (Some lambda) j (Some W)
       = Some tmW
    /\ A_clad TM (Some neff) (Some n1) (Some n2) (Some n3) (Some lambda)
              (Some W) j (Some W) = Some (tmW * (n2 ^ 2 / n3 ^ 2)).
Proof.
  intros neff n1 n2 n3 lambda W j Hl H1 H3 Hb.
  destruct (amplitude_at_boundaries TE neff n1 n2 n3 lambda W j Hl H1 H3 Hb)
    as (E0 & EW & Eb & Ec).
  rewrite Rmult_1_r in Eb, Ec.
  destruct (amplitude_at_boundaries TM neff n1 n2 n3 lambda W j Hl H1 H3 Hb)
    as (F0 & FW & Fb & Fc).
  do 4 eexists. repeat split; eassumption.
Qed.

Lemma C8_witness :
  exists te0 teW tm0 tmW : R,
    A_box TE (Some (3 / 2)) (Some 1) (Some 2) (Some 1) 0 (Some 0) = Some te0
    /\ A_core TE (Some (3 / 2)) (Some 1) (Some 2) (Some 1) 0 (Some 0)
       = Some te0
    /\ A_core TE (Some (3 / 2)) (Some 1) (Some 2) (Some 1) 0 (Some 1)
       = Some teW
    /\ A_clad TE (Some (3 / 2)) (Some 1) (Some 2) (Some 1) (Some 1)
              (Some 1) 0 (Some 1) = Some teW
    /\ A_box TM (Some (3 / 2)) (Some 1) (Some 2) (Some 1) 0 (Some 0)
       = Some (tm0 * (2 ^ 2 / 1 ^ 2))
    /\ A_core TM (Some (3 / 2)) (Some 1) (Some 2) (Some 1) 0 (Some 0)
       = Some tm0
    /\ A_core TM (Some (3 / 2)) (Some 1) (Some 2) (Some 1) 0 (Some 1)
       = Some tmW
    /\ A_clad TM (Some (3 / 2)) (Some 1) (Some 2) (Some 1) (Some 1)
              (Some 1) 0 (Some 1) = Some (tmW * (2 ^ 2 / 1 ^ 2)).
Proof.
  apply (C8_amplitude_at_boundaries (3 / 2) 1 2 1 1 1 0); try lra.
  rminmax.
Defined.

(** C8, the TM profile jumps: with [n1 = n3 = 1], [n2 = 2],
    [lambda = 1], order 0 and [neff = 3/2] the box expression at [x = 0]
    is four times the core expression, which is not zero. *)
Lemma C8_TM_amplitude_jumps_at_boundary :
  A_box TM (Some (3 / 2)) (Some 1) (Some 2) (Some 1) 0 (Some 0)
  <> A_core TM (Some (3 / 2)) (Some 1) (Some 2) (Some 1) 0 (Some 0).
Proof.
  assert (Hb : Rmax 1 1 < 3 / 2 < 2)
    by rminmax.
  destruct (amplitude_at_boundaries TM (3 / 2) 1 2 1 1 1 0) as (E0 & _ & Eb & _);
    try lra.
  rewrite E0, Eb. intros [= E].
  rewrite Rmult_0_r, Rplus_0_l in E.
  assert (Hc : 0 < Rtrigo_def.cos (Real.alpha TM 1 2 1 0 (3 / 2))).
  { unfold Real.alpha. cbn [IZR]. rewrite Rmult_0_l, Rplus_0_r.
    assert (Hx : 0 < Real.osc 1 2 (3 / 2) * 1 ^ 2).
    { unfold Real.osc, Real.k0. pose proof PI_RGT_0.
      assert (0 < R_sqrt.sqrt (2 ^ 2 - (3 / 2) ^ 2)) by (apply sqrt_lt_R0; lra).
      nra. }
    rewrite Ratan2_pos_r by assumption.
    rewrite cos_neg.
    match goal with |- 0 < Rtrigo_def.cos (atan ?t) =>
      pose proof (atan_bound t) as Hat end.
    apply cos_gt_0; lra. }
  lra.
Qed.

End FieldXreal.

(** ** The bracket of the root finder, over the reals *)

Section Bracket.
Local Open Scope R_scope.
Variable f : xreal -> xreal.
Variable tol : xreal.

Lemma xmid (a b : R) : ((Some a + Some b) / lit 2)%dbl = Some ((a + b) / 2).
Proof. exact (xhalf (a + b)). Qed.

(** The loop keeps the bracket inside the one it started from, and a
    midpoint is strictly inside. *)
Lemma bisection_loop_bracket (budget : nat) :
  forall (v : vars) (a b : R),
  va v = Some a -> vb v = Some b -> a < b ->
  match bisection_loop f tol budget v with
  | inl r => exists x : R, fst r = Some x /\ a < x < b
  | inr v' => exists a' b' : R,
      va v' = Some a' /\ vb v' = Some b' /\ a <= a' /\ a' < b' /\ b' <= b
  end.
Proof.
  induction budget as [|k IH]; intros v a b Ha Hb Hab.
  - cbn. exists a, b. repeat split; auto; lra.
  - cbn [bisection_loop].
    destruct (_ && _); [|exists a, b; repeat split; auto; lra].
    rewrite Ha, Hb, xmid. cbv zeta.
    destruct (fabs _ <? tol)%dbl.
    + exists ((a + b) / 2). split; [reflexivity|lra].
    + destruct (_ <? lit 0)%dbl.
      * specialize (IH (mkVars (Some a) (Some ((a + b) / 2)) (vfa v)
                          (f (Some ((a + b) / 2))) (Some ((a + b) / 2))
                          (f (Some ((a + b) / 2))) (S (viter v)))
                       a ((a + b) / 2) eq_refl eq_refl).
        destruct (bisection_loop _ _ _ _) as [r|v'].
        -- destruct IH as (x & Hx & Hin); [lra|]. exists x. split; [exact Hx|lra].
        -- destruct IH as (a' & b' & Ha' & Hb' & H1 & H2 & H3); [lra|].
           exists a', b'. repeat split; auto; lra.
      * specialize (IH (mkVars (Some ((a + b) / 2)) (Some b)
                          (f (Some ((a + b) / 2))) (vfb v)
                          (Some ((a + b) / 2))
                          (f (Some ((a + b) / 2))) (S (viter v)))
                       ((a + b) / 2) b eq_refl eq_refl).
        destruct (bisection_loop _ _ _ _) as [r|v'].
        -- destruct IH as (x & Hx & Hin); [lra|]. exists x. split; [exact Hx|lra].
        -- destruct IH as (a' & b' & Ha' & Hb' & H1 & H2 & H3); [lra|].
           exists a', b'. repeat split; auto; lra.
Qed.

(** The loop followed by the statements after it. *)
Lemma bisection_tail_bracket (budget : nat) (v : vars) (a b : R) :
  va v = Some a -> vb v = Some b -> a < b ->
  exists x : R,
    fst (match bisection_loop f tol budget v with
         | inl r => r
         | inr v' => bisection_finish f tol v'
         end) = Some x /\ a < x < b.
Proof.
  intros Ha Hb Hab.
  pose proof (bisection_loop_bracket budget v a b Ha Hb Hab) as H.
  destruct (bisection_loop f tol budget v) as [r|v'].
  - exact H.
  - destruct H as (a' & b' & Ha' & Hb' & H1 & H2 & H3).
    exists ((a' + b') / 2). unfold bisection_finish; cbn [fst].
    rewrite Ha', Hb', xmid. split; [reflexivity|lra].
Qed.

Lemma bisection_bracket (a b : R) (max_iter : Z) :
  a < b ->
  exists x : R,
    fst (bisection f (Some a) (Some b) tol max_iter) = Some x /\ a <= x < b.
Proof.
  intros Hab. unfold bisection.
  destruct (_ <? _)%dbl.
  - exists a. split; [reflexivity|lra].
  - destruct (bisection_tail_bracket (Z.to_nat max_iter)
                (mkVars (Some a) (Some b) (f (Some a)) (f (Some b))
                   ((Some a + Some b) / lit 2)%dbl
                   (f ((Some a + Some b) / lit 2)%dbl) 0) a b
                eq_refl eq_refl Hab) as (x & Hx & Hin).
    exists x. split; [exact Hx|lra].
Qed.

End Bracket.

Section SolveBounds.
Local Open Scope R_scope.

Lemma solve_mode_bracket (f : xreal -> xreal) (a b : R) :
  a < b ->
  exists x : R, solve_mode f (Some a) (Some b) = Some x /\ a <= x < b.
Proof.
  intros Hab. unfold solve_mode.
  destruct (bisection_bracket f default_tol a b default_max_iter Hab)
    as (x & Hx & Hin).
  destruct (status _).
  - exists x. auto.
  - exists a. split; [reflexivity|lra].
  - exists a. split; [reflexivity|lra].
Qed.

Lemma xstd_min (a b : R) : std_min (Some a) (Some b) = Some (Rmin a b).
Proof.
  unfold std_min, Rmin. cbn.
  destruct (Rlt_dec b a), (Rle_dec a b); try reflexivity; lra.
Qed.

Lemma xstd_max (a b : R) : std_max (Some a) (Some b) = Some (Rmax a b).
Proof.
  unfold std_max, Rmax. cbn.
  destruct (Rlt_dec a b), (Rle_dec a b); try reflexivity; try lra.
  f_equal. lra.
Qed.

(** A residual that is NaN at the first midpoint: the loop is not
    entered and, the bracket being wider than the tolerance, the status is
    DIVERGED. *)
Lemma bisection_loop_nan (f : xreal -> xreal) (tol : xreal) (budget : nat)
  (v : vars) :
  vfmid v = None -> bisection_loop f tol budget v = inr v.
Proof.
  intros E. destruct budget; [reflexivity|].
  cbn [bisection_loop]. rewrite E. cbn [fabs xreal_Arith xlift1].
  now rewrite xltb_nan_r, andb_false_r.
Qed.

End SolveBounds.

Section SlabBracket.
Local Open Scope R_scope.

(** The components of [solve_slab] are numbers of the bracket. *)
Lemma solve_slab_bracket (n1 n2 n3 : R) (lambda W : xreal) (j : Z) :
  n1 < n2 -> n3 < n2 ->
  exists te tm : R,
    solve_slab (Some n1) (Some n2) (Some n3) lambda W j = (Some te, Some tm)
    /\ Rmin n1 n3 <= te < n2 /\ Rmin n1 n3 <= tm < n2.
Proof.
  intros H1 H3. unfold solve_slab. rewrite xstd_min.
  assert (Hm : Rmin n1 n3 < n2)
    by rminmax.
  destruct (solve_mode_bracket
              (slab_equation TE (Some n1) (Some n2) (Some n3) lambda W j)
              (Rmin n1 n3) n2 Hm) as (te & Ete & Hte).
  destruct (solve_mode_bracket
              (slab_equation TM (Some n1) (Some n2) (Some n3) lambda W j)
              (Rmin n1 n3) n2 Hm) as (tm & Etm & Htm).
  exists te, tm. rewrite Ete, Etm. auto.
Qed.

End SlabBracket.

(** ** Following the root finder step by step *)

Section Stepping.
Local Open Scope R_scope.
Variable f : xreal -> xreal.

Local Abbreviation tail k v :=
  (match bisection_loop f default_tol k v with
   | inl r => r
   | inr v' => bisection_finish f default_tol v'
   end).

Local Abbreviation sel nmin r :=
  (match status (snd r) with CONVERGED => fst r | _ => nmin end).

Lemma xtol : default_tol (D := xreal) = Some (1 / 10000).
Proof. unfold default_tol. cbn. now rewrite Q2R_tol. Qed.

Lemma solve_mode_unfold (a b : R) :
  solve_mode f (Some a) (Some b) =
  if (f (Some a) * f (Some b) >? lit 0)%dbl then Some a
  else sel (Some a)
         (tail 100%nat
            (mkVars (Some a) (Some b) (f (Some a)) (f (Some b))
               (Some ((a + b) / 2)) (f (Some ((a + b) / 2))) 0)).
Proof.
  unfold solve_mode, bisection.
  destruct (_ <? _)%dbl; [reflexivity|].
  now rewrite xmid.
Qed.

(** One turn of the loop, seen from [solve_mode]. *)
Lemma sel_tail_cases (nmin : xreal) (k : nat) (v : vars) (a b : R) :
  va v = Some a -> vb v = Some b ->
  let m := (a + b) / 2 in
  sel nmin (tail (S k) v) = nmin
  \/ (sel nmin (tail (S k) v) = Some m
      /\ ((fabs (f (Some m)) <? default_tol)%dbl = true
          \/ (b - a) / 2 <= 1 / 10000))
  \/ (exists v' : vars,
        va v' = Some a /\ vb v' = Some m
        /\ sel nmin (tail (S k) v) = sel nmin (tail k v'))
  \/ (exists v' : vars,
        va v' = Some m /\ vb v' = Some b
        /\ sel nmin (tail (S k) v) = sel nmin (tail k v')).
Proof.
  intros Ha Hb m. cbn [bisection_loop].
  destruct (_ && _).
  - rewrite Ha, Hb, xmid. cbv zeta. fold m.
    destruct (fabs (f (Some m)) <? default_tol)%dbl eqn:Ec.
    + right; left. cbn. auto.
    + destruct (_ <? lit 0)%dbl.
      * right; right; left.
        exists (mkVars (Some a) (Some m) (vfa v) (f (Some m)) (Some m)
                  (f (Some m)) (S (viter v))).
        repeat split.
      * right; right; right.
        exists (mkVars (Some m) (Some b) (f (Some m)) (vfb v) (Some m)
                  (f (Some m)) (S (viter v))).
        repeat split.
  - unfold bisection_finish. cbn [snd fst status].
    rewrite Ha, Hb, xmid. fold m.
    destruct (_ || _); [now left|].
    cbn [sub xreal_Arith xlift2]. rewrite xhalf, xtol.
    destruct (Rle_dec ((b - a) / 2) (1 / 10000)) as [Hw|Hw].
    + rewrite xleb_true by assumption. right; left. auto.
    + rewrite xleb_false by lra. now left.
Qed.

Lemma sel_tail_bracket (nmin : xreal) (k : nat) (v : vars) (a b : R) :
  va v = Some a -> vb v = Some b -> a < b ->
  sel nmin (tail k v) = nmin
  \/ exists x : R, sel nmin (tail k v) = Some x /\ a < x < b.
Proof.
  intros Ha Hb Hab.
  destruct (bisection_tail_bracket f default_tol k v a b Ha Hb Hab)
    as (x & Hx & Hin).
  destruct (status _); auto. right. exists x. auto.
Qed.

(** The root find never returns the point at 5/8 of the bracket when the
    residual there is not below the tolerance. *)
Lemma solve_mode_avoids (a b F2 : R) :
  let m0 := (a + b) / 2 in
  let m1 := (m0 + b) / 2 in
  let m2 := (m0 + m1) / 2 in
  a < b -> 1 / 10000 < (b - a) / 8 ->
  f (Some m2) = Some F2 -> 1 / 10000 <= Rabs F2 ->
  solve_mode f (Some a) (Some b) <> Some m2.
Proof.
  intros m0 m1 m2 Hab Hw E2 HF2.
  assert (Hne : Some a <> Some m2)
    by (intros [= E]; unfold m2, m1, m0 in E; lra).
  rewrite solve_mode_unfold. destruct (_ <? _)%dbl; [exact Hne|].
  destruct (sel_tail_cases (Some a) 99
              (mkVars (Some a) (Some b) (f (Some a)) (f (Some b))
                 (Some ((a + b) / 2)) (f (Some ((a + b) / 2))) 0)
              a b eq_refl eq_refl)
    as [E|[[E _]|[(v1 & Ha1 & Hb1 & E)|(v1 & Ha1 & Hb1 & E)]]];
    rewrite E; clear E.
  - exact Hne.
  - intros [= E]. unfold m2, m1, m0 in E. lra.
  - destruct (sel_tail_bracket (Some a) 99 v1 a m0 Ha1 Hb1)
      as [E|(x & E & Hx)]; [unfold m0; lra| |]; rewrite E;
      [exact Hne|].
    intros [= ->]. unfold m2, m1, m0 in *. lra.
  - destruct (sel_tail_cases (Some a) 98 v1 m0 b Ha1 Hb1)
      as [E|[[E _]|[(v2 & Ha2 & Hb2 & E)|(v2 & Ha2 & Hb2 & E)]]];
      rewrite E; clear E.
    + exact Hne.
    + intros [= E]. unfold m2, m1, m0 in E. lra.
    + destruct (sel_tail_cases (Some a) 97 v2 m0 m1 Ha2 Hb2)
        as [E|[[E Hc]|[(v3 & Ha3 & Hb3 & E)|(v3 & Ha3 & Hb3 & E)]]];
        rewrite E; clear E.
      * exact Hne.
      * exfalso. destruct Hc as [Hc|Hc].
        -- unfold m2 in E2. rewrite E2, xtol in Hc. cbn [fabs xreal_Arith xlift1] in Hc.
           apply xltb_iff in Hc. lra.
        -- unfold m1, m0 in Hc. lra.
      * destruct (sel_tail_bracket (Some a) 97 v3 m0 m2 Ha3 Hb3)
          as [E|(x & E & Hx)]; [unfold m2, m1, m0; lra| |]; rewrite E;
          [exact Hne|].
        intros [= ->]. lra.
      * destruct (sel_tail_bracket (Some a) 97 v3 m2 m1 Ha3 Hb3)
          as [E|(x & E & Hx)]; [unfold m2, m1, m0; lra| |]; rewrite E;
          [exact Hne|].
        intros [= ->]. lra.
    + destruct (sel_tail_bracket (Some a) 98 v2 m1 b Ha2 Hb2)
        as [E|(x & E & Hx)]; [unfold m1, m0; lra| |]; rewrite E;
        [exact Hne|].
      intros [= ->]. unfold m2, m1, m0 in *. lra.
Qed.

End Stepping.

Section UpDown.
Local Open Scope R_scope.
Variable f : xreal -> xreal.

Lemma prod_neg_pos (x y : R) : x < 0 -> 0 < y -> x * y < 0.
Proof. intros; nra. Qed.

Lemma prod_neg_neg (x y : R) : x < 0 -> y < 0 -> 0 < x * y.
Proof. intros; nra. Qed.

Lemma xabs_gt_tol (F : R) :
  1 / 10000 < Rabs F ->
  (fabs (Some F) >? default_tol)%dbl = true
  /\ (fabs (Some F) <? default_tol)%dbl = false.
Proof.
  intros H. rewrite xtol. cbn [fabs xreal_Arith xlift1].
  split; [apply xltb_true|apply xltb_false]; lra.
Qed.

Lemma bisection_loop_S (tol : xreal) (k : nat) (v : vars) :
  bisection_loop f tol (S k) v =
  if ((vmid v >? tol) && (fabs (vfmid v) >? tol))%dbl then
    let mid := ((va v + vb v) / lit 2)%dbl in
    let fmid := f mid in
    if (fabs fmid <? tol)%dbl then
      inl (mid, mkStatus CONVERGED (viter v) (fabs fmid))
    else if (vfa v * fmid <? lit 0)%dbl then
      bisection_loop f tol k
        (mkVars (va v) mid (vfa v) fmid mid fmid (S (viter v)))
    else
      bisection_loop f tol k
        (mkVars mid (vb v) fmid (vfb v) mid fmid (S (viter v)))
  else inr v.
Proof. reflexivity. Qed.

(** The root find returns the point at 5/8 of the bracket when the
    residual is negative at the lower end and at the first midpoint,
    positive at the upper end and at the second midpoint, and below the
    tolerance at the third. *)
Lemma solve_mode_up_down (a b Fa Fb F0 F1 F2 : R) :
  let m0 := (a + b) / 2 in
  let m1 := (m0 + b) / 2 in
  let m2 := (m0 + m1) / 2 in
  f (Some a) = Some Fa -> f (Some b) = Some Fb ->
  f (Some m0) = Some F0 -> f (Some m1) = Some F1 -> f (Some m2) = Some F2 ->
  Fa < 0 -> 0 < Fb -> F0 < - (1 / 10000) -> 1 / 10000 < F1 ->
  Rabs F2 < 1 / 10000 -> 1 / 10000 < m0 -> a < b ->
  solve_mode f (Some a) (Some b) = Some m2.
Proof.
  intros m0 m1 m2 Ea Eb E0 E1 E2 Ha Hb H0 H1 H2 Hm Hab.
  rewrite solve_mode_unfold, Ea, Eb. fold m0. rewrite E0.
  cbn [mul xreal_Arith xlift2]. rewrite xlit_0.
  rewrite (xltb_false 0 (Fa * Fb))
    by (apply Rlt_le, prod_neg_pos; assumption).
  destruct (xabs_gt_tol F0) as [G0 L0];
    [rabs|].
  destruct (xabs_gt_tol F1) as [G1 L1];
    [rabs|].
  assert (T0 : (Some m0 >? default_tol)%dbl = true)
    by (rewrite xtol; now apply xltb_true).
  assert (T1 : (Some m1 >? default_tol)%dbl = true)
    by (rewrite xtol; apply xltb_true; unfold m1, m0 in *; lra).
  (* first turn: the lower end moves to m0 *)
  rewrite (bisection_loop_S _ 99).
  cbn [va vb vfa vfb vmid vfmid viter]. cbv zeta.
  rewrite G0, T0. cbn [andb]. rewrite xmid. fold m0. rewrite E0, L0.
  cbn [mul xreal_Arith xlift2]. rewrite xlit_0, (xltb_false (Fa * F0) 0)
    by (apply Rlt_le, prod_neg_neg; lra).
  (* second turn: the upper end moves to m1 *)
  rewrite (bisection_loop_S _ 98).
  cbn [va vb vfa vfb vmid vfmid viter]. cbv zeta.
  rewrite G0, T0. cbn [andb]. rewrite xmid. fold m1. rewrite E1, L1.
  cbn [mul xreal_Arith xlift2]. rewrite xlit_0, (xltb_true (F0 * F1) 0) by (apply prod_neg_pos; lra).
  (* third turn: the residual at m2 is below the tolerance *)
  rewrite (bisection_loop_S _ 97).
  cbn [va vb vfa vfb vmid vfmid viter]. cbv zeta.
  rewrite G1, T1. cbn [andb]. rewrite xmid. fold m2. rewrite E2.
  rewrite xtol. cbn [fabs xreal_Arith xlift1].
  rewrite (xltb_true (Rabs F2)) by assumption.
  reflexivity.
Qed.

End UpDown.

(** ** Bounds on the arc tangent *)

Section AtanBounds.
Local Open Scope R_scope.

Lemma atan_le (x y : R) : x <= y -> atan x <= atan y.
Proof.
  intros [H| ->]; [left; now apply atan_increasing|right; reflexivity].
Qed.

Lemma Ratan2_ge_PI4 (y x : R) : 0 < x -> x <= y -> PI / 4 <= Ratan2 y x.
Proof.
  intros Hx Hy. rewrite Ratan2_pos_r by assumption. rewrite <- atan_1.
  apply atan_le. apply Rmult_le_reg_r with x; [assumption|].
  unfold Rdiv. rewrite Rmult_assoc, Rinv_l by lra. lra.
Qed.

Lemma Ratan2_le_PI4 (y x : R) : 0 < x -> y <= x -> Ratan2 y x <= PI / 4.
Proof.
  intros Hx Hy. rewrite Ratan2_pos_r by assumption. rewrite <- atan_1.
  apply atan_le. apply Rmult_le_reg_r with x; [assumption|].
  unfold Rdiv. rewrite Rmult_assoc, Rinv_l by lra. lra.
Qed.

Lemma Ratan2_diag (x : R) : 0 < x -> Ratan2 x x = PI / 4.
Proof.
  intros Hx. apply Rle_antisym.
  - apply Ratan2_le_PI4; lra.
  - apply Ratan2_ge_PI4; lra.
Qed.

Lemma atan_half_lt_PI6 : atan (1 / 2) < PI / 6.
Proof.
  pose proof PI_RGT_0.
  rewrite <- (atan_tan (PI / 6)) by lra.
  apply atan_increasing. rewrite tan_PI6.
  assert (0 < R_sqrt.sqrt 3) by (apply sqrt_lt_R0; lra).
  assert (R_sqrt.sqrt 3 < 2).
  { rewrite <- (sqrt_pow2 2) by lra. apply sqrt_lt_1_alt. lra. }
  apply Rmult_lt_reg_r with (2 * R_sqrt.sqrt 3); [lra|].
  field_simplify; lra.
Qed.

Lemma Ratan2_lt_PI6 (y x : R) : 0 < x -> 2 * y <= x -> Ratan2 y x < PI / 6.
Proof.
  intros Hx Hy. rewrite Ratan2_pos_r by assumption.
  apply Rle_lt_trans with (atan (1 / 2)); [|exact atan_half_lt_PI6].
  apply atan_le. apply Rmult_le_reg_r with x; [assumption|].
  unfold Rdiv. rewrite Rmult_assoc, Rinv_l by lra. lra.
Qed.

Lemma sqrt_lower (c x : R) : 0 <= c -> c ^ 2 < x -> c < R_sqrt.sqrt x.
Proof.
  intros Hc H. rewrite <- (sqrt_pow2 c) by assumption.
  apply sqrt_lt_1_alt. split; [apply pow2_ge_0|assumption].
Qed.

Lemma sqrt_upper (c x : R) : 0 <= c -> 0 <= x -> x < c ^ 2 -> R_sqrt.sqrt x < c.
Proof.
  intros Hc Hx H. rewrite <- (sqrt_pow2 c) by assumption.
  apply sqrt_lt_1_alt. split; assumption.
Qed.

End AtanBounds.

(** ** The rib of [strip_te] *)

Section Rib.
Local Open Scope R_scope.

Local Abbreviation rib mode :=
  (slab_equation mode (Some (7 / 4)) (Some (23 / 4)) (Some (7 / 4)) (Some 1)
     (Some (1291 / 20000)) 0).
Local Abbreviation ribR mode :=
  (Real.slab_residual mode (7 / 4) (23 / 4) (7 / 4) 1 (1291 / 20000) 0).

Lemma rib_real (mode : Mode) (x : R) :
  7 / 4 <= x <= 23 / 4 -> rib mode (Some x) = Some (ribR mode x).
Proof. intros H. apply slab_equation_real; [reflexivity|nra..]. Qed.

Lemma rib_osc (x s : R) :
  (23 / 4) ^ 2 - x ^ 2 = s -> Real.osc 1 (23 / 4) x = 2 * PI * R_sqrt.sqrt s.
Proof. intros <-. unfold Real.osc, Real.k0. field. Qed.

Lemma rib_decay (x s : R) :
  x ^ 2 - (7 / 4) ^ 2 = s -> Real.decay 1 (7 / 4) x = 2 * PI * R_sqrt.sqrt s.
Proof. intros <-. unfold Real.decay, Real.k0. field. Qed.

(** The residual of the symmetric slab at order 0. *)
Lemma ribR_TE (x : R) :
  ribR TE x = PI - 2 * Ratan2 (Real.osc 1 (23 / 4) x) (Real.decay 1 (7 / 4) x)
              - Real.osc 1 (23 / 4) x * (1291 / 20000).
Proof. unfold Real.slab_residual. cbn [IZR]. ring. Qed.

Lemma ribR_TM (x : R) :
  ribR TM x = PI - 2 * Ratan2 ((7 / 4) ^ 2 * Real.osc 1 (23 / 4) x)
                              ((23 / 4) ^ 2 * Real.decay 1 (7 / 4) x)
              - Real.osc 1 (23 / 4) x * (1291 / 20000).
Proof. unfold Real.slab_residual. cbn [IZR]. ring. Qed.

Lemma sqrt15_bounds : 38729 / 10000 < R_sqrt.sqrt 15 < 38731 / 10000.
Proof. split; [apply sqrt_lower|apply sqrt_upper]; lra. Qed.

Lemma rib_TE_lower_end : ribR TE (7 / 4) < 0.
Proof.
  rewrite ribR_TE.
  rewrite (rib_osc (7 / 4) 30), (rib_decay (7 / 4) 0) by lra.
  rewrite sqrt_0, Rmult_0_r.
  assert (0 < R_sqrt.sqrt 30) by (apply sqrt_lt_R0; lra).
  pose proof PI_RGT_0.
  rewrite Ratan2_pos_0 by nra. nra.
Qed.

Lemma rib_TE_upper_end : 0 < ribR TE (23 / 4).
Proof.
  rewrite ribR_TE.
  rewrite (rib_osc (23 / 4) 0), (rib_decay (23 / 4) 30) by lra.
  rewrite sqrt_0, Rmult_0_r.
  assert (0 < R_sqrt.sqrt 30) by (apply sqrt_lt_R0; lra).
  pose proof PI_RGT_0.
  rewrite Ratan2_0_pos by nra. lra.
Qed.

Lemma rib_TE_first : ribR TE (15 / 4) < - (1 / 10000).
Proof.
  rewrite ribR_TE.
  rewrite (rib_osc (15 / 4) 19), (rib_decay (15 / 4) 11) by lra.
  assert (H19 : 435 / 100 < R_sqrt.sqrt 19) by (apply sqrt_lower; lra).
  assert (H11 : 0 < R_sqrt.sqrt 11) by (apply sqrt_lt_R0; lra).
  assert (Hle : R_sqrt.sqrt 11 <= R_sqrt.sqrt 19) by (apply sqrt_le_1_alt; lra).
  pose proof PI2_1 as Hpi.
  pose proof (Ratan2_ge_PI4 (2 * PI * R_sqrt.sqrt 19) (2 * PI * R_sqrt.sqrt 11)).
  assert (0 < 2 * PI * R_sqrt.sqrt 11) by nra.
  assert (2 * PI * R_sqrt.sqrt 11 <= 2 * PI * R_sqrt.sqrt 19) by nra.
  assert (2 * PI * (435 / 100) < 2 * PI * R_sqrt.sqrt 19) by nra.
  lra.
Qed.

Lemma rib_TE_second : 1 / 10000 < ribR TE (19 / 4).
Proof.
  rewrite ribR_TE.
  rewrite (rib_osc (19 / 4) (21 / 2)), (rib_decay (19 / 4) (39 / 2)) by lra.
  assert (H21 : R_sqrt.sqrt (21 / 2) < 13 / 4) by (apply sqrt_upper; lra).
  assert (H39 : 0 < R_sqrt.sqrt (39 / 2)) by (apply sqrt_lt_R0; lra).
  assert (Hle : R_sqrt.sqrt (21 / 2) <= R_sqrt.sqrt (39 / 2))
    by (apply sqrt_le_1_alt; lra).
  pose proof PI2_1 as Hpi.
  pose proof (Ratan2_le_PI4 (2 * PI * R_sqrt.sqrt (21 / 2))
                            (2 * PI * R_sqrt.sqrt (39 / 2))).
  assert (0 < 2 * PI * R_sqrt.sqrt (39 / 2)) by nra.
  assert (2 * PI * R_sqrt.sqrt (21 / 2) <= 2 * PI * R_sqrt.sqrt (39 / 2)) by nra.
  assert (2 * PI * R_sqrt.sqrt (21 / 2) < 2 * PI * (13 / 4)) by nra.
  lra.
Qed.

Lemma rib_TE_third : Rabs (ribR TE (17 / 4)) < 1 / 10000.
Proof.
  rewrite ribR_TE.
  rewrite (rib_osc (17 / 4) 15), (rib_decay (17 / 4) 15) by lra.
  destruct sqrt15_bounds as [Hlo Hhi].
  pose proof PI_RGT_0. pose proof PI_4.
  rewrite Ratan2_diag by nra.
  apply Rabs_def1; nra.
Qed.

Lemma rib_TM_third : 1 / 10000 <= Rabs (ribR TM (17 / 4)).
Proof.
  rewrite ribR_TM.
  rewrite (rib_osc (17 / 4) 15), (rib_decay (17 / 4) 15) by lra.
  destruct sqrt15_bounds as [Hlo Hhi].
  pose proof PI2_1. pose proof PI_4.
  pose proof (Ratan2_lt_PI6 ((7 / 4) ^ 2 * (2 * PI * R_sqrt.sqrt 15))
                            ((23 / 4) ^ 2 * (2 * PI * R_sqrt.sqrt 15))) as Ha.
  assert (Hd : 0 < 2 * PI * R_sqrt.sqrt 15) by nra.
  assert (Hu : 2 * PI * R_sqrt.sqrt 15 * (1291 / 20000) < PI * (51 / 100)) by nra.
  apply Rle_trans with (PI - 2 * Ratan2 ((7 / 4) ^ 2 * (2 * PI * R_sqrt.sqrt 15))
                            ((23 / 4) ^ 2 * (2 * PI * R_sqrt.sqrt 15))
                        - 2 * PI * R_sqrt.sqrt 15 * (1291 / 20000));
    [|apply Rle_abs].
  assert (Ratan2 ((7 / 4) ^ 2 * (2 * PI * R_sqrt.sqrt 15))
                 ((23 / 4) ^ 2 * (2 * PI * R_sqrt.sqrt 15)) < PI / 6)
    by (apply Ha; nra).
  lra.
Qed.

End Rib.

Section RibSolve.
Local Open Scope R_scope.

Local Abbreviation rib mode :=
  (slab_equation mode (Some (7 / 4)) (Some (23 / 4)) (Some (7 / 4)) (Some 1)
     (Some (1291 / 20000)) 0).
Local Abbreviation ribR mode :=
  (Real.slab_residual mode (7 / 4) (23 / 4) (7 / 4) 1 (1291 / 20000) 0).

(** The TE root find of the rib converges at 4.25 in its third turn. *)
Lemma rib_TE_solve : solve_mode (rib TE) (Some (7 / 4)) (Some (23 / 4)) = Some (17 / 4).
Proof.
  replace (17 / 4) with (((7 / 4 + 23 / 4) / 2 + ((7 / 4 + 23 / 4) / 2 + 23 / 4) / 2) / 2)
    by lra.
  apply solve_mode_up_down
    with (Fa := ribR TE (7 / 4)) (Fb := ribR TE (23 / 4))
         (F0 := ribR TE (15 / 4)) (F1 := ribR TE (19 / 4))
         (F2 := ribR TE (17 / 4)).
  - apply rib_real; lra.
  - apply rib_real; lra.
  - replace ((7 / 4 + 23 / 4) / 2) with (15 / 4) by lra. apply rib_real; lra.
  - replace (((7 / 4 + 23 / 4) / 2 + 23 / 4) / 2) with (19 / 4) by lra.
    apply rib_real; lra.
  - replace (((7 / 4 + 23 / 4) / 2 + ((7 / 4 + 23 / 4) / 2 + 23 / 4) / 2) / 2)
      with (17 / 4) by lra.
    apply rib_real; lra.
  - exact rib_TE_lower_end.
  - exact rib_TE_upper_end.
  - exact rib_TE_first.
  - exact rib_TE_second.
  - exact rib_TE_third.
  - lra.
  - lra.
Qed.

(** The TM root find of the rib does not return 4.25. *)
Lemma rib_TM_solve : solve_mode (rib TM) (Some (7 / 4)) (Some (23 / 4)) <> Some (17 / 4).
Proof.
  replace (17 / 4) with (((7 / 4 + 23 / 4) / 2 + ((7 / 4 + 23 / 4) / 2 + 23 / 4) / 2) / 2)
    by lra.
  apply solve_mode_avoids with (F2 := ribR TM (17 / 4)).
  - lra.
  - lra.
  - replace (((7 / 4 + 23 / 4) / 2 + ((7 / 4 + 23 / 4) / 2 + 23 / 4) / 2) / 2)
      with (17 / 4) by lra.
    apply rib_real; lra.
  - exact rib_TM_third.
Qed.

Lemma strip_te_rib :
  vertical_n2 strip_te
  = (solve_mode (rib TE) (Some (7 / 4)) (Some (23 / 4)),
     solve_mode (rib TM) (Some (7 / 4)) (Some (23 / 4))).
Proof.
  unfold vertical_n2, solve_slab. cbn [strip_te n_box n_core n_clad wavelength t_rib].
  rewrite xstd_min.
  replace (Rmin (7 / 4) (7 / 4)) with (7 / 4)
    by rminmax.
  reflexivity.
Qed.

End RibSolve.

Section Claim1.
Context {D : Type} {AD : Arith D} {LD : Libm D}.

(** C1, as amended: for a device-TE mode the three indices passed to the
    lateral [solve_slab] are the TE components ([get<0>]) of the two
    vertical solves, and the value returned is the other component
    ([get<1>]) of the lateral result; for device-TM the three indices are
    the TM components ([get<1>]) and the value returned is [get<0>]. *)
Theorem C1_strip_composition_components :
  forall wg : Waveguide (D := D),
  let n1 := vertical_n1 wg in
  let n2 := vertical_n2 wg in
  (mode wg = TE ->
   lateral_indices wg = (fst n1, fst n2, fst n1)
   /\ Waveguide_call wg
      = snd (solve_slab (fst n1) (fst n2) (fst n1) (wavelength wg) (w_rib wg)
                        (int_of_size_t (mode_order wg))))
  /\
  (mode wg = TM ->
   lateral_indices wg = (snd n1, snd n2, snd n1)
   /\ Waveguide_call wg
      = fst (solve_slab (snd n1) (snd n2) (snd n1) (wavelength wg) (w_rib wg)
                        (int_of_size_t (mode_order wg)))).
Proof.
  intros wg n1 n2. unfold Waveguide_call, lateral_indices. fold n1 n2.
  split; intros ->; split; reflexivity.
Qed.

End Claim1.

Lemma C1_witness :
  lateral_indices strip_te
  = (fst (vertical_n1 strip_te), fst (vertical_n2 strip_te),
     fst (vertical_n1 strip_te))
  /\ Waveguide_call strip_te
     = snd (solve_slab (fst (vertical_n1 strip_te)) (fst (vertical_n2 strip_te))
                       (fst (vertical_n1 strip_te)) (wavelength strip_te)
                       (w_rib strip_te) (int_of_size_t (mode_order strip_te))).
Proof.
  exact (proj1 (C1_strip_composition_components strip_te) eq_refl).
Defined.

(** C1, as stated, fails: on [strip_te] (device TE) the TE root find of
    the rib returns 4.25 and the TM root find does not, so the three
    indices passed to the lateral solve, whose second is 4.25, are not
    the TM components of the vertical solves. *)
Lemma C1_device_TE_does_not_feed_TM_components :
  mode strip_te = TE
  /\ lateral_indices strip_te
     <> (snd (vertical_n1 strip_te), snd (vertical_n2 strip_te),
         snd (vertical_n1 strip_te)).
Proof.
  split; [reflexivity|].
  unfold lateral_indices. cbn [mode strip_te].
  rewrite strip_te_rib. cbn [fst snd].
  intros [= _ E _]. rewrite rib_TE_solve in E.
  apply rib_TM_solve. now rewrite <- E.
Qed.

(** ** Enclosures of [PI] and of the arc tangent *)

Section Enclosures.
Local Open Scope R_scope.

(** The alternating series of the arc tangent encloses it. *)
Lemma atan_series_bounds (x : R) (N : nat) :
  0 < x < 1 ->
  sum_f_R0 (tg_alt (Ratan_seq x)) (S (2 * N)) <= atan x
  <= sum_f_R0 (tg_alt (Ratan_seq x)) (2 * N).
Proof.
  intros Hx. rewrite atan_eq_ps_atan by assumption.
  assert (H01 : 0 <= x <= 1) by lra.
  unfold ps_atan. destruct (in_int x) as [h|h]; [|exfalso; apply h; lra].
  destruct (ps_atan_exists_1 x h) as [v Pv].
  apply alternated_series_ineq.
  - now apply Ratan_seq_decreasing.
  - now apply Ratan_seq_converging.
  - exact Pv.
Qed.

Lemma atan_poly_1 (x : R) :
  0 < x < 1 ->
  x - x ^ 3 / 3 + x ^ 5 / 5 - x ^ 7 / 7 <= atan x <= x - x ^ 3 / 3 + x ^ 5 / 5.
Proof.
  intros Hx. pose proof (atan_series_bounds x 1 Hx) as H.
  unfold sum_f_R0, tg_alt, Ratan_seq in H. simpl in H. lra.
Qed.

Lemma atan_poly_3 (x : R) :
  0 < x < 1 ->
  x - x ^ 3 / 3 + x ^ 5 / 5 - x ^ 7 / 7 + x ^ 9 / 9 - x ^ 11 / 11
  + x ^ 13 / 13 - x ^ 15 / 15 <= atan x
  <= x - x ^ 3 / 3 + x ^ 5 / 5 - x ^ 7 / 7 + x ^ 9 / 9 - x ^ 11 / 11
     + x ^ 13 / 13.
Proof.
  intros Hx. pose proof (atan_series_bounds x 3 Hx) as H.
  unfold sum_f_R0, tg_alt, Ratan_seq in H. simpl in H. lra.
Qed.

(** [atan u = PI/4 + atan ((u - 1) / (u + 1))] for a positive [u]. *)
Lemma atan_shift (u : R) : 0 < u -> atan u = PI / 4 + atan ((u - 1) / (u + 1)).
Proof.
  intros Hu. rewrite <- atan_1.
  rewrite (atan_sub_correct u 1).
  - unfold atan_sub. now rewrite Rmult_1_r, (Rplus_comm 1 u).
  - lra.
  - pose proof (atan_bound u) as Hb. rewrite atan_1.
    assert (0 < atan u) by (rewrite <- atan_0; now apply atan_increasing).
    pose proof PI_RGT_0. lra.
  - apply atan_bound.
Qed.

Lemma PI_bounds : 31415926 / 10000000 < PI < 31415927 / 10000000.
Proof.
  pose proof (PI_2_3_7_ineq 3) as H.
  unfold sum_f_R0, tg_alt, PI_2_3_7_tg, Ratan_seq in H. simpl in H. lra.
Qed.

End Enclosures.

Section SkipDown.
Local Open Scope R_scope.
Variable f : xreal -> xreal.

(** A residual already within the tolerance at the first midpoint: the
    loop is not entered, the bracket is wider than the tolerance, the
    status is DIVERGED and the root find falls back to the lower bound. *)
Lemma solve_mode_skip (a b Fa Fb F0 : R) :
  f (Some a) = Some Fa -> f (Some b) = Some Fb ->
  f (Some ((a + b) / 2)) = Some F0 ->
  Fa * Fb <= 0 -> Rabs F0 <= 1 / 10000 -> 1 / 10000 < (b - a) / 2 ->
  solve_mode f (Some a) (Some b) = Some a.
Proof.
  intros Ea Eb E0 Hs H0 Hw.
  rewrite solve_mode_unfold, Ea, Eb, E0.
  cbn [mul xreal_Arith xlift2]. rewrite xlit_0, (xltb_false 0 (Fa * Fb)) by assumption.
  rewrite (bisection_loop_S f _ 99).
  cbn [va vb vfa vfb vmid vfmid viter].
  rewrite xtol. cbn [fabs xreal_Arith xlift1].
  rewrite (xltb_false (1 / 10000) (Rabs F0)) by assumption.
  rewrite andb_false_r.
  unfold bisection_finish. cbn [va vb viter snd status].
  rewrite xmid. cbn [sub xreal_Arith xlift2]. rewrite xhalf.
  rewrite xleb_false by lra.
  cbn [fabs xreal_Arith xlift1].
  rewrite !xltb_false; [reflexivity| |];
    rabs.
Qed.

(** The root find returns the point at 1/4 of the bracket when the
    residual is negative at the lower end, positive at the upper end and
    at the first midpoint, and below the tolerance at the second. *)
Lemma solve_mode_down (a b Fa Fb F0 F1 : R) :
  let m0 := (a + b) / 2 in
  let m1 := (a + m0) / 2 in
  f (Some a) = Some Fa -> f (Some b) = Some Fb ->
  f (Some m0) = Some F0 -> f (Some m1) = Some F1 ->
  Fa < 0 -> 0 < Fb -> 1 / 10000 < F0 -> Rabs F1 < 1 / 10000 ->
  1 / 10000 < m0 ->
  solve_mode f (Some a) (Some b) = Some m1.
Proof.
  intros m0 m1 Ea Eb E0 E1 Ha Hb H0 H1 Hm.
  rewrite solve_mode_unfold, Ea, Eb. fold m0. rewrite E0.
  cbn [mul xreal_Arith xlift2]. rewrite xlit_0.
  rewrite (xltb_false 0 (Fa * Fb))
    by (apply Rlt_le, prod_neg_pos; assumption).
  destruct (xabs_gt_tol F0) as [G0 L0];
    [rabs|].
  assert (T0 : (Some m0 >? default_tol)%dbl = true)
    by (rewrite xtol; now apply xltb_true).
  (* first turn: the upper end moves to m0 *)
  rewrite (bisection_loop_S f _ 99).
  cbn [va vb vfa vfb vmid vfmid viter]. cbv zeta.
  rewrite G0, T0. cbn [andb]. rewrite xmid. fold m0. rewrite E0, L0.
  cbn [mul xreal_Arith xlift2]. rewrite xlit_0, (xltb_true (Fa * F0) 0)
    by (apply prod_neg_pos; lra).
  (* second turn: the residual at m1 is below the tolerance *)
  rewrite (bisection_loop_S f _ 98).
  cbn [va vb vfa vfb vmid vfmid viter]. cbv zeta.
  rewrite G0, T0. cbn [andb]. rewrite xmid. fold m1. rewrite E1.
  rewrite xtol. cbn [fabs xreal_Arith xlift1].
  rewrite (xltb_true (Rabs F1)) by assumption.
  reflexivity.
Qed.

End SkipDown.

(** ** The slab [n = (1, 3.61996, 1)], [lambda = 1], [W = 0.97026] *)

Section Orders.
Local Open Scope R_scope.

Local Abbreviation nc := (90499 / 25000).
Local Abbreviation Wd := (48513 / 50000).
Local Abbreviation sl j :=
  (slab_equation TE (Some 1) (Some nc) (Some 1) (Some 1) (Some Wd) j).
Local Abbreviation slR j := (Real.slab_residual TE 1 nc 1 1 Wd j).

Lemma sl_real (j : Z) (x : R) :
  int_add j 1 = (j + 1)%Z -> 1 <= x <= nc -> sl j (Some x) = Some (slR j x).
Proof. intros Hj H. apply slab_equation_real; [exact Hj|nra..]. Qed.

Lemma sl_osc (x s : R) :
  nc ^ 2 - x ^ 2 = s -> Real.osc 1 nc x = 2 * PI * R_sqrt.sqrt s.
Proof. intros <-. unfold Real.osc, Real.k0. field. Qed.

Lemma sl_decay (x s : R) :
  x ^ 2 - 1 ^ 2 = s -> Real.decay 1 1 x = 2 * PI * R_sqrt.sqrt s.
Proof. intros <-. unfold Real.decay, Real.k0. field. Qed.

Lemma slR_eq (j : Z) (x : R) :
  slR j x = (IZR j + 1) * PI - 2 * Ratan2 (Real.osc 1 nc x) (Real.decay 1 1 x)
            - Real.osc 1 nc x * Wd.
Proof. unfold Real.slab_residual. ring. Qed.

Lemma div_lower (c n d : R) : 0 < d -> c * d < n -> c < n / d.
Proof.
  intros Hd H. apply Rmult_lt_reg_r with d; [assumption|].
  unfold Rdiv. rewrite Rmult_assoc, Rinv_l by lra. lra.
Qed.

Lemma div_upper (c n d : R) : 0 < d -> n < c * d -> n / d < c.
Proof.
  intros Hd H. apply Rmult_lt_reg_r with d; [assumption|].
  unfold Rdiv. rewrite Rmult_assoc, Rinv_l by lra. lra.
Qed.

(** Inside the bracket the two arc tangents are [PI/4] plus the arc
    tangent of a small number. *)
Lemma Ratan2_shift (sA sB : R) :
  0 < sA -> 0 < sB ->
  Ratan2 (2 * PI * sA) (2 * PI * sB) = PI / 4 + atan ((sA - sB) / (sA + sB)).
Proof.
  intros HA HB. pose proof PI_RGT_0.
  rewrite Ratan2_pos_r by nra.
  rewrite atan_shift.
  - do 2 f_equal. field. split; nra.
  - apply Rdiv_lt_0_compat; nra.
Qed.

Lemma sl_lower_end (j : Z) : (j <= 6)%Z -> slR j 1 < 0.
Proof.
  intros Hj. rewrite slR_eq.
  rewrite (sl_osc 1 (7565069001 / 625000000)), (sl_decay 1 0) by lra.
  rewrite sqrt_0, Rmult_0_r.
  assert (Hs : 34 / 10 < R_sqrt.sqrt (7565069001 / 625000000))
    by (apply sqrt_lower; lra).
  pose proof PI_RGT_0.
  rewrite Ratan2_pos_0 by nra.
  apply IZR_le in Hj. nra.
Qed.

Lemma sl_upper_end (j : Z) : (0 <= j)%Z -> 0 < slR j nc.
Proof.
  intros Hj. rewrite slR_eq.
  rewrite (sl_osc nc 0), (sl_decay nc (7565069001 / 625000000)) by lra.
  rewrite sqrt_0, Rmult_0_r.
  assert (Hs : 0 < R_sqrt.sqrt (7565069001 / 625000000))
    by (apply sqrt_lt_R0; lra).
  pose proof PI_RGT_0.
  rewrite Ratan2_0_pos by nra.
  apply IZR_le in Hj. nra.
Qed.

(** At the first midpoint 2.30998 the residual of order 5 is within the
    tolerance. *)
Lemma sl5_first : Rabs (slR 5 (115499 / 50000)) <= 1 / 10000.
Proof.
  rewrite slR_eq.
  rewrite (sl_osc (115499 / 50000) (19420257003 / 2500000000)),
          (sl_decay (115499 / 50000) (10840019001 / 2500000000)) by lra.
  set (sA := R_sqrt.sqrt (19420257003 / 2500000000)).
  set (sB := R_sqrt.sqrt (10840019001 / 2500000000)).
  assert (HA : 2787131 / 1000000 < sA < 2787132 / 1000000)
    by (split; [apply sqrt_lower|apply sqrt_upper]; lra).
  assert (HB : 2082308 / 1000000 < sB < 2082309 / 1000000)
    by (split; [apply sqrt_lower|apply sqrt_upper]; lra).
  rewrite Ratan2_shift by lra.
  set (y := (sA - sB) / (sA + sB)).
  assert (Hy : 144743 / 1000000 < y < 144745 / 1000000).
  { unfold y. split; [apply div_lower|apply div_upper]; lra. }
  assert (Hat : 143744 / 1000000 < atan y < 143748 / 1000000).
  { split.
    - apply Rlt_trans with (atan (144743 / 1000000));
        [|apply atan_increasing; lra].
      pose proof (atan_poly_1 (144743 / 1000000)). lra.
    - apply Rlt_trans with (atan (144745 / 1000000));
        [apply atan_increasing; lra|].
      pose proof (atan_poly_1 (144745 / 1000000)). lra. }
  destruct PI_bounds as [Hpl Hpu]. cbn [IZR].
  apply Rabs_le. split; nra.
Qed.

(** At the second midpoint 1.65499 the residual of order 6 is below the
    tolerance. *)
Lemma sl6_second : Rabs (slR 6 (165499 / 100000)) < 1 / 10000.
Proof.
  rewrite slR_eq.
  rewrite (sl_osc (165499 / 100000) (20730237003 / 2000000000)),
          (sl_decay (165499 / 100000) (17389919001 / 10000000000)) by lra.
  set (sA := R_sqrt.sqrt (20730237003 / 2000000000)).
  set (sB := R_sqrt.sqrt (17389919001 / 10000000000)).
  assert (HA : 3219490 / 1000000 < sA < 3219491 / 1000000)
    by (split; [apply sqrt_lower|apply sqrt_upper]; lra).
  assert (HB : 1318708 / 1000000 < sB < 1318709 / 1000000)
    by (split; [apply sqrt_lower|apply sqrt_upper]; lra).
  rewrite Ratan2_shift by lra.
  set (y := (sA - sB) / (sA + sB)).
  assert (Hy : 418840 / 1000000 < y < 418841 / 1000000).
  { unfold y. split; [apply div_lower|apply div_upper]; lra. }
  assert (Hat : 396641 / 1000000 < atan y < 396643 / 1000000).
  { split.
    - apply Rlt_trans with (atan (418840 / 1000000));
        [|apply atan_increasing; lra].
      pose proof (atan_poly_3 (418840 / 1000000)). lra.
    - apply Rlt_trans with (atan (418841 / 1000000));
        [apply atan_increasing; lra|].
      pose proof (atan_poly_3 (418841 / 1000000)). lra. }
  destruct PI_bounds as [Hpl Hpu]. cbn [IZR].
  apply Rabs_def1; nra.
Qed.

(** The residual of order 6 is the one of order 5 plus [PI]. *)
Lemma sl6_first : 1 / 10000 < slR 6 (115499 / 50000).
Proof.
  pose proof sl5_first as H5. rewrite slR_eq in *. cbn [IZR] in *.
  set (u := 2 * Ratan2 (Real.osc 1 nc (115499 / 50000))
                       (Real.decay 1 1 (115499 / 50000))) in *.
  set (w := Real.osc 1 nc (115499 / 50000) * Wd) in *.
  pose proof PI_bounds.
  unfold Rabs in H5. destruct (Rcase_abs _) in H5.
  - replace ((IPR 6 + 1) * PI - u - w) with ((IPR 5 + 1) * PI - u - w + PI)
      by (cbv [IPR IPR_2]; ring). lra.
  - replace ((IPR 6 + 1) * PI - u - w) with ((IPR 5 + 1) * PI - u - w + PI)
      by (cbv [IPR IPR_2]; ring). lra.
Qed.

(** The TE root find of order 5 falls back to 1. *)
Lemma sl5_solve : solve_mode (sl 5) (Some 1) (Some nc) = Some 1.
Proof.
  apply solve_mode_skip
    with (Fa := slR 5 1) (Fb := slR 5 nc) (F0 := slR 5 (115499 / 50000)).
  - apply sl_real; [reflexivity|lra].
  - apply sl_real; [reflexivity|lra].
  - replace ((1 + nc) / 2) with (115499 / 50000) by lra. apply sl_real; [reflexivity|lra].
  - pose proof (sl_lower_end 5 ltac:(lia)).
    pose proof (sl_upper_end 5 ltac:(lia)).
    apply Rlt_le, prod_neg_pos; assumption.
  - exact sl5_first.
  - lra.
Qed.

(** The TE root find of order 6 converges at 1.65499 in its second turn. *)
Lemma sl6_solve : solve_mode (sl 6) (Some 1) (Some nc) = Some (165499 / 100000).
Proof.
  replace (165499 / 100000) with ((1 + (1 + nc) / 2) / 2) by lra.
  apply solve_mode_down
    with (Fa := slR 6 1) (Fb := slR 6 nc) (F0 := slR 6 (115499 / 50000))
         (F1 := slR 6 (165499 / 100000)).
  - apply sl_real; [reflexivity|lra].
  - apply sl_real; [reflexivity|lra].
  - replace ((1 + nc) / 2) with (115499 / 50000) by lra. apply sl_real; [reflexivity|lra].
  - replace ((1 + (1 + nc) / 2) / 2) with (165499 / 100000) by lra.
    apply sl_real; [reflexivity|lra].
  - apply sl_lower_end; lia.
  - apply sl_upper_end; lia.
  - exact sl6_first.
  - exact sl6_second.
  - lra.
Qed.

(** C9 (what the code does): on the slab [n = (1, 3.61996, 1)],
    [lambda = 1], [W = 0.97026] the TE component of order 5 is the
    fallback 1 -- the residual is within the tolerance at the first
    midpoint 2.30998, the loop is not entered and the status is DIVERGED
    -- and the TE component of order 6 is 1.65499, which is larger. *)
Theorem C9_order_6_above_order_5 :
  fst (solve_slab (Some 1) (Some nc) (Some 1) (Some 1) (Some Wd) 5) = Some 1
  /\ fst (solve_slab (Some 1) (Some nc) (Some 1) (Some 1) (Some Wd) 6)
     = Some (165499 / 100000)
  /\ 1 < 165499 / 100000.
Proof.
  assert (Hmin : std_min (Some 1) (Some 1) = Some 1).
  { rewrite xstd_min. f_equal. rminmax. }
  unfold solve_slab. cbn [fst]. rewrite Hmin.
  split; [exact sl5_solve|]. split; [exact sl6_solve|lra].
Qed.

End Orders.

Section FinishStatus.
Local Open Scope R_scope.

(** Over the reals: after the loop the midpoint is at half the width from
    both ends of the bracket the loop left, so the second test overrides
    the first whenever the half-width is below the tolerance, and the
    final status is CONVERGED only when the half-width equals the
    tolerance. *)
Lemma bisection_finish_converged_iff (f : xreal -> xreal) (t a b : R)
  (v : vars) :
  va v = Some a -> vb v = Some b -> a <= b ->
  status (snd (bisection_finish f (Some t) v)) = CONVERGED
  <-> (b - a) / 2 = t.
Proof.
  intros Ha Hb Hab. rewrite bisection_finish_status. cbv zeta.
  rewrite Ha, Hb, xmid.
  cbn [sub fabs xreal_Arith xlift1 xlift2]. rewrite xhalf.
  replace (Rabs ((a + b) / 2 - b)) with ((b - a) / 2)
    by rabs.
  replace (Rabs ((a + b) / 2 - a)) with ((b - a) / 2)
    by rabs.
  destruct (Rtotal_order ((b - a) / 2) t) as [H|[H|H]].
  - rewrite xltb_true by assumption. cbn [orb]. split; [discriminate|lra].
  - rewrite xltb_false, xleb_true by lra. cbn [orb]. split; auto.
  - rewrite xltb_false, xleb_false by lra. cbn [orb]. split; [discriminate|lra].
Qed.

End FinishStatus.

(** ** The root finder: what a run reports *)

Section BisectionRun.
Context {D : Type} {AD : Arith D}.
Local Open Scope dbl_scope.

(** What the loop leaves: a [return] inside the body reports CONVERGED,
    a residual below the tolerance and an iteration count within the
    budget. *)
Lemma bisection_loop_run (f : D -> D) (tol : D) (budget : nat) :
  forall v : vars,
  match bisection_loop f tol budget v with
  | inl r =>
      (viter v <= iterations (snd r) < viter v + budget)%nat
      /\ status (snd r) = CONVERGED
      /\ residual (snd r) = fabs (f (fst r))
      /\ (fabs (f (fst r)) <? tol) = true
  | inr v' => (viter v <= viter v' <= viter v + budget)%nat
  end.
Proof.
  induction budget as [|k IH]; intros v; cbn [bisection_loop]; [lia|].
  destruct (_ && _); [|lia].
  cbv zeta. destruct (fabs _ <? tol) eqn:Ec.
  - cbn [fst snd iterations status residual]. repeat split; auto; lia.
  - destruct (_ <? lit 0).
    + specialize (IH (mkVars (va v) ((va v + vb v) / lit 2) (vfa v)
                        (f ((va v + vb v) / lit 2))
                        ((va v + vb v) / lit 2)
                        (f ((va v + vb v) / lit 2)) (S (viter v)))).
      destruct (bisection_loop _ _ _ _) as [r|v']; cbn [viter] in IH.
      * destruct IH as (Hi & Hr). split; [lia|exact Hr].
      * lia.
    + specialize (IH (mkVars ((va v + vb v) / lit 2) (vb v)
                        (f ((va v + vb v) / lit 2)) (vfb v)
                        ((va v + vb v) / lit 2)
                        (f ((va v + vb v) / lit 2)) (S (viter v)))).
      destruct (bisection_loop _ _ _ _) as [r|v']; cbn [viter] in IH.
      * destruct IH as (Hi & Hr). split; [lia|exact Hr].
      * lia.
Qed.

Lemma bisection_finish_run (f : D -> D) (tol : D) (v : vars) :
  let r := bisection_finish f tol v in
  iterations (snd r) = viter v
  /\ residual (snd r) = fabs (f (fst r))
  /\ status (snd r) <> INVALID_RANGE.
Proof.
  unfold bisection_finish; cbn. repeat split.
  destruct (_ || _); [discriminate|]. destruct (_ <=? _); discriminate.
Qed.

Lemma bisection_valid_range_status (f : D -> D) (a b tol : D) (max_iter : Z) :
  (f a * f b >? lit 0) = false ->
  status (snd (bisection f a b tol max_iter)) <> INVALID_RANGE.
Proof.
  intros Hs. unfold bisection. rewrite Hs.
  pose proof (bisection_loop_run f tol (Z.to_nat max_iter)
                (mkVars a b (f a) (f b) ((a + b) / lit 2)
                   (f ((a + b) / lit 2)) 0)) as H.
  destruct (bisection_loop _ _ _ _) as [r|v'].
  - destruct H as (_ & Hr & _). rewrite Hr. discriminate.
  - apply bisection_finish_run.
Qed.

End BisectionRun.

(** X1: The number of iterations [bisection] reports is at most
    [max_iter] when that is not negative, and is 0 when it is negative,
    whatever the function, the bracket and the tolerance are, in any
    arithmetic. *)
Theorem bisection_iterations_within_budget :
  forall (D : Type) (AD : Arith D) (f : D -> D) (a b tol : D) (max_iter : Z),
  (Z.of_nat (iterations (snd (bisection f a b tol max_iter)))
   <= Z.max 0 max_iter)%Z.
Proof.
  intros D AD f a b tol max_iter. unfold bisection.
  destruct (_ <? _)%dbl; [cbn; lia|].
  pose proof (bisection_loop_run f tol (Z.to_nat max_iter)
                (mkVars a b (f a) (f b) ((a + b) / lit 2)%dbl
                   (f ((a + b) / lit 2)%dbl) 0)) as H.
  destruct (bisection_loop _ _ _ _) as [r|v']; cbn [viter] in H.
  - lia.
  - destruct (bisection_finish_run f tol v') as (E & _). rewrite E. lia.
Qed.

(** X2: [bisection] reports INVALID_RANGE exactly when [f(a) * f(b) > 0]:
    then it returns [a] after no iteration, with the smaller of
    [|f(a)|] and [|f(b)|] as residual.  In every other run the residual
    it reports is [|f|] at the point it returns. *)
Theorem bisection_reports_residual_of_result :
  forall (D : Type) (AD : Arith D) (f : D -> D) (a b tol : D) (max_iter : Z),
  let r := bisection f a b tol max_iter in
  if (f a * f b >? lit 0)%dbl
  then r = (a, mkStatus INVALID_RANGE 0 (std_min (fabs (f a)) (fabs (f b))))
  else status (snd r) <> INVALID_RANGE
       /\ residual (snd r) = fabs (f (fst r)).
Proof.
  intros D AD f a b tol max_iter. unfold bisection.
  destruct (_ <? _)%dbl; [reflexivity|].
  pose proof (bisection_loop_run f tol (Z.to_nat max_iter)
                (mkVars a b (f a) (f b) ((a + b) / lit 2)%dbl
                   (f ((a + b) / lit 2)%dbl) 0)) as H.
  destruct (bisection_loop _ _ _ _) as [r|v'].
  - destruct H as (_ & Hs & Hr & _). cbv zeta. rewrite Hs. split; [discriminate|exact Hr].
  - destruct (bisection_finish_run f tol v') as (_ & Hr & Hs). auto.
Qed.

(** ** The root finder over the reals: the bracket after [k] iterations *)

Section BisectionWidth.
Local Open Scope R_scope.
Variable f : xreal -> xreal.
Variable tol : xreal.

(** Each turn of the loop halves the bracket and keeps it between the
    ends it started from, in whichever order they are. *)
Lemma bisection_loop_width (budget : nat) :
  forall (v : vars) (a b lo hi : R),
  va v = Some a -> vb v = Some b ->
  lo <= a <= hi -> lo <= b <= hi ->
  match bisection_loop f tol budget v with
  | inl r => exists (a' b' : R) (k : nat),
      lo <= a' <= hi /\ lo <= b' <= hi
      /\ iterations (snd r) = (viter v + k)%nat
      /\ b' - a' = (b - a) / 2 ^ k
      /\ fst r = Some ((a' + b') / 2)
  | inr v' => exists (a' b' : R) (k : nat),
      lo <= a' <= hi /\ lo <= b' <= hi
      /\ viter v' = (viter v + k)%nat
      /\ b' - a' = (b - a) / 2 ^ k
      /\ va v' = Some a' /\ vb v' = Some b'
  end.
Proof.
  induction budget as [|n IH]; intros v a b lo hi Ha Hb Hla Hlb.
  - cbn. exists a, b, 0%nat. rewrite Nat.add_0_r. cbn [Rpow_def.pow].
    repeat split; auto; try lra.
  - cbn [bisection_loop].
    destruct (_ && _).
    2:{ exists a, b, 0%nat. rewrite Nat.add_0_r. cbn [Rpow_def.pow].
        repeat split; auto; try lra. }
    rewrite Ha, Hb, xmid. cbv zeta.
    destruct (fabs _ <? tol)%dbl.
    + exists a, b, 0%nat. cbn [fst snd iterations]. rewrite Nat.add_0_r.
      cbn [Rpow_def.pow]. repeat split; auto; try lra.
    + destruct (_ <? lit 0)%dbl.
      * specialize (IH (mkVars (Some a) (Some ((a + b) / 2)) (vfa v)
                          (f (Some ((a + b) / 2))) (Some ((a + b) / 2))
                          (f (Some ((a + b) / 2))) (S (viter v)))
                       a ((a + b) / 2) lo hi eq_refl eq_refl).
        destruct (bisection_loop _ _ _ _) as [r|v'];
          (destruct IH as (a' & b' & k & H1 & H2 & H3 & H4 & H5);
           [lra|lra|]; exists a', b', (S k); cbn [viter] in H3;
           split; [exact H1|]; split; [exact H2|]; split; [lia|];
           split; [|exact H5];
           rewrite H4; cbn [Rpow_def.pow]; field; apply pow_nonzero; lra).
      * specialize (IH (mkVars (Some ((a + b) / 2)) (Some b)
                          (f (Some ((a + b) / 2))) (vfb v)
                          (Some ((a + b) / 2))
                          (f (Some ((a + b) / 2))) (S (viter v)))
                       ((a + b) / 2) b lo hi eq_refl eq_refl).
        destruct (bisection_loop _ _ _ _) as [r|v'];
          (destruct IH as (a' & b' & k & H1 & H2 & H3 & H4 & H5);
           [lra|lra|]; exists a', b', (S k); cbn [viter] in H3;
           split; [exact H1|]; split; [exact H2|]; split; [lia|];
           split; [|exact H5];
           rewrite H4; cbn [Rpow_def.pow]; field; apply pow_nonzero; lra).
Qed.

End BisectionWidth.

Section BisectionReal.
Local Open Scope R_scope.

Lemma Rmin_Rmax_between (a b : R) :
  Rmin a b <= a <= Rmax a b /\ Rmin a b <= b <= Rmax a b.
Proof. unfold Rmin, Rmax; destruct (Rle_dec a b); lra. Qed.

Lemma bisection_between :
  forall (f : xreal -> xreal) (tol : xreal) (max_iter : Z) (a b : R),
  exists x : R,
    fst (bisection f (Some a) (Some b) tol max_iter) = Some x
    /\ Rmin a b <= x <= Rmax a b.
Proof.
  intros f tol max_iter a b.
  destruct (Rmin_Rmax_between a b) as (Ha & Hb).
  unfold bisection. destruct (_ <? _)%dbl.
  - exists a. split; [reflexivity|exact Ha].
  - pose proof (bisection_loop_width f tol (Z.to_nat max_iter)
                  (mkVars (Some a) (Some b) (f (Some a)) (f (Some b))
                     ((Some a + Some b) / lit 2)%dbl
                     (f ((Some a + Some b) / lit 2)%dbl) 0)
                  a b (Rmin a b) (Rmax a b) eq_refl eq_refl Ha Hb) as H.
    destruct (bisection_loop _ _ _ _) as [r|v'];
      destruct H as (a' & b' & k & H1 & H2 & H3 & H4 & H5).
    + exists ((a' + b') / 2). split; [exact H5|lra].
    + destruct H5 as (Ea & Eb). exists ((a' + b') / 2).
      unfold bisection_finish; cbn [fst]. rewrite Ea, Eb, xmid.
      split; [reflexivity|lra].
Qed.

(** X3: Over the reals [bisection] always returns a number, and that number
    lies between the two ends it was given, in whichever order they are
    and whatever the function (NaN values included), the tolerance and
    the budget are. *)
Theorem bisection_result_between_ends :
  forall (f : xreal -> xreal) (tol : xreal) (max_iter : Z) (a b : R),
  exists x : R,
    fst (bisection f (Some a) (Some b) tol max_iter) = Some x
    /\ Rmin a b <= x <= Rmax a b.
Proof.
  intros f tol max_iter a b.
  destruct (Rmin_Rmax_between a b) as (Ha & Hb).
  unfold bisection. destruct (_ <? _)%dbl.
  - exists a. split; [reflexivity|exact Ha].
  - pose proof (bisection_loop_width f tol (Z.to_nat max_iter)
                  (mkVars (Some a) (Some b) (f (Some a)) (f (Some b))
                     ((Some a + Some b) / lit 2)%dbl
                     (f ((Some a + Some b) / lit 2)%dbl) 0)
                  a b (Rmin a b) (Rmax a b) eq_refl eq_refl Ha Hb) as H.
    destruct (bisection_loop _ _ _ _) as [r|v'];
      destruct H as (a' & b' & k & H1 & H2 & H3 & H4 & H5).
    + exists ((a' + b') / 2). split; [exact H5|lra].
    + destruct H5 as (Ea & Eb). exists ((a' + b') / 2).
      unfold bisection_finish; cbn [fst]. rewrite Ea, Eb, xmid.
      split; [reflexivity|lra].
Qed.

(** X4: Over the reals, a run of [bisection] that does not reject the range
    and reports [k] iterations returns the midpoint of a bracket of
    width [(b - a) / 2^k] that lies within [[a, b]]. *)
Theorem bisection_returns_midpoint_of_halved_bracket :
  forall (f : xreal -> xreal) (tol : xreal) (max_iter : Z) (a b : R),
  a <= b ->
  let r := bisection f (Some a) (Some b) tol max_iter in
  status (snd r) <> INVALID_RANGE ->
  exists a' b' : R,
    a <= a' /\ a' <= b' /\ b' <= b
    /\ b' - a' = (b - a) / 2 ^ iterations (snd r)
    /\ fst r = Some ((a' + b') / 2).
Proof.
  intros f tol max_iter a b Hab. unfold bisection.
  destruct (_ <? _)%dbl; [cbn; congruence|]. intros _.
  pose proof (bisection_loop_width f tol (Z.to_nat max_iter)
                (mkVars (Some a) (Some b) (f (Some a)) (f (Some b))
                   ((Some a + Some b) / lit 2)%dbl
                   (f ((Some a + Some b) / lit 2)%dbl) 0)
                a b a b eq_refl eq_refl) as H.
  assert (Hp : forall k : nat, 0 < 2 ^ k) by (intros k; apply pow_lt; lra).
  destruct (bisection_loop _ _ _ _) as [r|v'];
    (destruct H as (a' & b' & k & H1 & H2 & H3 & H4 & H5); [lra|lra|]);
    cbn [viter] in H3; cbn [Nat.add] in H3.
  - exists a', b'. rewrite H3.
    assert (0 <= (b - a) / 2 ^ k)
      by (apply Rmult_le_pos; [lra|left; apply Rinv_0_lt_compat, Hp]).
    repeat split; auto; lra.
  - destruct H5 as (Ea & Eb). exists a', b'.
    unfold bisection_finish; cbn [fst snd iterations]. rewrite Ea, Eb, xmid, H3.
    assert (0 <= (b - a) / 2 ^ k)
      by (apply Rmult_le_pos; [lra|left; apply Rinv_0_lt_compat, Hp]).
    repeat split; auto; lra.
Qed.

End BisectionReal.

Section BisectionConverged.
Local Open Scope R_scope.

Lemma xtest_f (x : R) : test.f (Some x) = Some (2 * x - 5).
Proof.
  unfold test.f. cbn. f_equal. unfold Q2R. cbn. lra.
Qed.

(** The test function over the bracket [[0, 4]]: the midpoints are 2, 3
    and 2.5, where the residual is 0. *)
Lemma bisection_test_f_0_4 :
  let r := bisection test.f (Some 0) (Some 4) default_tol default_max_iter in
  fst r = Some (5 / 2) /\ status (snd r) = CONVERGED
  /\ iterations (snd r) = 2%nat.
Proof.
  cbv zeta. unfold bisection. rewrite !xtest_f, xmid, xtest_f.
  cbn [mul xreal_Arith xlift2]. rewrite xlit_0, xltb_false by lra.
  change (Z.to_nat default_max_iter) with 100%nat.
  assert (G : forall F : R, 1 / 10000 < Rabs F ->
            (fabs (Some F) >? default_tol)%dbl = true
            /\ (fabs (Some F) <? default_tol)%dbl = false)
    by exact xabs_gt_tol.
  assert (T : forall m : R, 1 / 10000 < m ->
            (Some m >? default_tol)%dbl = true)
    by (intros m Hm; rewrite xtol; now apply xltb_true).
  rewrite (bisection_loop_S _ _ 99).
  cbn [va vb vfa vfb vmid vfmid viter]. cbv zeta.
  destruct (G (2 * ((0 + 4) / 2) - 5)) as [G0 L0]; [rabs|].
  rewrite G0, T by lra. cbn [andb]. rewrite xmid, xtest_f, L0.
  cbn [mul xreal_Arith xlift2]. rewrite xlit_0, xltb_false by lra.
  rewrite (bisection_loop_S _ _ 98).
  cbn [va vb vfa vfb vmid vfmid viter]. cbv zeta.
  rewrite G0, T by lra. cbn [andb]. rewrite xmid, xtest_f.
  destruct (G (2 * (((0 + 4) / 2 + 4) / 2) - 5)) as [G1 L1]; [rabs|].
  rewrite L1.
  cbn [mul xreal_Arith xlift2]. rewrite xlit_0, xltb_true by lra.
  rewrite (bisection_loop_S _ _ 97).
  cbn [va vb vfa vfb vmid vfmid viter]. cbv zeta.
  rewrite G1, T by lra. cbn [andb]. rewrite xmid, xtest_f.
  rewrite xtol. cbn [fabs xreal_Arith xlift1].
  rewrite xltb_true by rabs.
  cbn [fst snd status iterations]. repeat split. f_equal. lra.
Qed.

Lemma bisection_test_f_0_4_sign :
  (test.f (Some 0) * test.f (Some 4) >? lit 0)%dbl = false.
Proof.
  rewrite !xtest_f. cbn [mul xreal_Arith xlift2].
  rewrite xlit_0. apply xltb_false. lra.
Qed.

End BisectionConverged.

Lemma bisection_returns_midpoint_witness :
  exists a' b' : R,
    (0 <= a' /\ a' <= b' /\ b' <= 4
     /\ b' - a' = (4 - 0)
          / 2 ^ iterations
                  (snd (bisection test.f (Some 0%R) (Some 4%R) default_tol
                          default_max_iter))
     /\ fst (bisection test.f (Some 0%R) (Some 4%R) default_tol
               default_max_iter) = Some ((a' + b') / 2))%R.
Proof.
  apply (bisection_returns_midpoint_of_halved_bracket test.f default_tol
           default_max_iter 0 4).
  - lra.
  - apply bisection_valid_range_status, bisection_test_f_0_4_sign.
Defined.

Section BisectionSound.
Local Open Scope R_scope.

Lemma bisection_converged_cases :
  forall (f : xreal -> xreal) (t : R) (max_iter : Z) (a b : R),
  a <= b ->
  let r := bisection f (Some a) (Some b) (Some t) max_iter in
  status (snd r) = CONVERGED ->
  exists x : R,
    fst r = Some x
    /\ ((exists F : R, f (Some x) = Some F /\ Rabs F < t)
        \/ (b - a) / 2 ^ S (iterations (snd r)) = t).
Proof.
  intros f t max_iter a b Hab. unfold bisection.
  destruct (_ <? _)%dbl; [cbn; discriminate|].
  pose proof (bisection_loop_width f (Some t) (Z.to_nat max_iter)
                (mkVars (Some a) (Some b) (f (Some a)) (f (Some b))
                   ((Some a + Some b) / lit 2)%dbl
                   (f ((Some a + Some b) / lit 2)%dbl) 0)
                a b a b eq_refl eq_refl) as H.
  pose proof (bisection_loop_run f (Some t) (Z.to_nat max_iter)
                (mkVars (Some a) (Some b) (f (Some a)) (f (Some b))
                   ((Some a + Some b) / lit 2)%dbl
                   (f ((Some a + Some b) / lit 2)%dbl) 0)) as R.
  assert (Hp : forall k : nat, 0 < 2 ^ k) by (intros k; apply pow_lt; lra).
  destruct (bisection_loop _ _ _ _) as [r|v'];
    (destruct H as (a' & b' & k & H1 & H2 & H3 & H4 & H5); [lra|lra|]);
    cbn [viter] in H3; cbn [Nat.add] in H3; cbv zeta; intros Hs.
  - exists ((a' + b') / 2). split; [exact H5|]. left.
    destruct R as (_ & _ & _ & Hlt). rewrite H5 in Hlt.
    destruct (f (Some ((a' + b') / 2))) as [F|]; [|discriminate].
    exists F. split; [reflexivity|].
    cbn [fabs xreal_Arith xlift1] in Hlt. now apply xltb_iff in Hlt.
  - destruct H5 as (Ea & Eb).
    assert (Hw : 0 <= (b - a) / 2 ^ k)
      by (apply Rmult_le_pos; [lra|left; apply Rinv_0_lt_compat, Hp]).
    apply (bisection_finish_converged_iff f t a' b' v' Ea Eb) in Hs; [|lra].
    exists ((a' + b') / 2). split.
    + unfold bisection_finish; cbn [fst]. now rewrite Ea, Eb, xmid.
    + right. destruct (bisection_finish_run f (Some t) v') as (Ei & _).
      rewrite Ei, H3. rewrite <- Hs, H4. cbn [Rpow_def.pow]. field.
      apply pow_nonzero; lra.
Qed.

(** X5: Over the reals, on a bracket [a <= b]: when [bisection] reports
    CONVERGED after [k] iterations, either the residual at the point it
    returns is a number below the tolerance (the [return] inside the
    loop), or the loop ended on a bracket whose half-width
    [(b - a) / 2^(k+1)] is the tolerance itself. *)
Theorem bisection_converged_means :
  forall (f : xreal -> xreal) (t : R) (max_iter : Z) (a b : R),
  a <= b ->
  let r := bisection f (Some a) (Some b) (Some t) max_iter in
  status (snd r) = CONVERGED ->
  exists x : R,
    fst r = Some x
    /\ ((exists F : R, f (Some x) = Some F /\ Rabs F < t)
        \/ (b - a) / 2 ^ S (iterations (snd r)) = t).
Proof.
  intros f t max_iter a b Hab. unfold bisection.
  destruct (_ <? _)%dbl; [cbn; discriminate|].
  pose proof (bisection_loop_width f (Some t) (Z.to_nat max_iter)
                (mkVars (Some a) (Some b) (f (Some a)) (f (Some b))
                   ((Some a + Some b) / lit 2)%dbl
                   (f ((Some a + Some b) / lit 2)%dbl) 0)
                a b a b eq_refl eq_refl) as H.
  pose proof (bisection_loop_run f (Some t) (Z.to_nat max_iter)
                (mkVars (Some a) (Some b) (f (Some a)) (f (Some b))
                   ((Some a + Some b) / lit 2)%dbl
                   (f ((Some a + Some b) / lit 2)%dbl) 0)) as R.
  assert (Hp : forall k : nat, 0 < 2 ^ k) by (intros k; apply pow_lt; lra).
  destruct (bisection_loop _ _ _ _) as [r|v'];
    (destruct H as (a' & b' & k & H1 & H2 & H3 & H4 & H5); [lra|lra|]);
    cbn [viter] in H3; cbn [Nat.add] in H3; cbv zeta; intros Hs.
  - exists ((a' + b') / 2). split; [exact H5|]. left.
    destruct R as (_ & _ & _ & Hlt). rewrite H5 in Hlt.
    destruct (f (Some ((a' + b') / 2))) as [F|]; [|discriminate].
    exists F. split; [reflexivity|].
    cbn [fabs xreal_Arith xlift1] in Hlt. now apply xltb_iff in Hlt.
  - destruct H5 as (Ea & Eb).
    assert (Hw : 0 <= (b - a) / 2 ^ k)
      by (apply Rmult_le_pos; [lra|left; apply Rinv_0_lt_compat, Hp]).
    apply (bisection_finish_converged_iff f t a' b' v' Ea Eb) in Hs; [|lra].
    exists ((a' + b') / 2). split.
    + unfold bisection_finish; cbn [fst]. now rewrite Ea, Eb, xmid.
    + right. destruct (bisection_finish_run f (Some t) v') as (Ei & _).
      rewrite Ei, H3. rewrite <- Hs, H4. cbn [Rpow_def.pow]. field.
      apply pow_nonzero; lra.
Qed.

End BisectionSound.

Lemma bisection_converged_witness :
  exists x : R,
    fst (bisection test.f (Some 0%R) (Some 4%R) (Some (1 / 10000)%R)
           default_max_iter) = Some x
    /\ ((exists F : R, test.f (Some x) = Some F /\ (Rabs F < 1 / 10000)%R)
        \/ ((4 - 0)
            / 2 ^ S (iterations
                       (snd (bisection test.f (Some 0%R) (Some 4%R)
                               (Some (1 / 10000)%R) default_max_iter)))
            = 1 / 10000)%R).
Proof.
  apply (bisection_converged_means test.f (1 / 10000) default_max_iter 0 4).
  - lra.
  - rewrite <- xtol. apply bisection_test_f_0_4.
Defined.

Section BisectionGuard.
Local Open Scope R_scope.

(** X6: Over the reals, on a bracket [a <= b] whose midpoint is not above
    the tolerance (any bracket of non-positive numbers, or one that is
    symmetric about zero): the loop condition [*pmid > tol] fails at
    once, so [bisection] does no iteration, returns [a] or the midpoint
    of [[a, b]], and does not report CONVERGED (unless the half-width is
    the tolerance itself). *)
Theorem bisection_never_iterates_at_low_midpoint :
  forall (f : xreal -> xreal) (t : R) (max_iter : Z) (a b : R),
  a <= b -> (a + b) / 2 <= t -> (b - a) / 2 <> t ->
  let r := bisection f (Some a) (Some b) (Some t) max_iter in
  iterations (snd r) = 0%nat
  /\ status (snd r) <> CONVERGED
  /\ (fst r = Some a \/ fst r = Some ((a + b) / 2)).
Proof.
  intros f t max_iter a b Hab Hm Hw. unfold bisection.
  destruct (_ <? _)%dbl; [cbn; repeat split; auto; discriminate|].
  assert (E : bisection_loop f (Some t) (Z.to_nat max_iter)
            (mkVars (Some a) (Some b) (f (Some a)) (f (Some b))
               ((Some a + Some b) / lit 2)%dbl
               (f ((Some a + Some b) / lit 2)%dbl) 0)
          = inr (mkVars (Some a) (Some b) (f (Some a)) (f (Some b))
               ((Some a + Some b) / lit 2)%dbl
               (f ((Some a + Some b) / lit 2)%dbl) 0)).
  { destruct (Z.to_nat max_iter); [reflexivity|].
    rewrite bisection_loop_S. cbn [vmid]. rewrite xmid.
    now rewrite (xltb_false t ((a + b) / 2)) by assumption. }
  rewrite E. cbv zeta. split; [reflexivity|]. split.
  - intros Hs.
    apply (bisection_finish_converged_iff f t a b) in Hs;
      [contradiction|reflexivity|reflexivity|exact Hab].
  - right. unfold bisection_finish. cbn [fst va vb]. now rewrite xmid.
Qed.

End BisectionGuard.

Lemma bisection_never_iterates_witness :
  iterations (snd (bisection test.f (Some (-6)%R) (Some 6%R)
                     (Some (1 / 10000)%R) default_max_iter)) = 0%nat
  /\ status (snd (bisection test.f (Some (-6)%R) (Some 6%R)
                    (Some (1 / 10000)%R) default_max_iter)) <> CONVERGED
  /\ (fst (bisection test.f (Some (-6)%R) (Some 6%R)
             (Some (1 / 10000)%R) default_max_iter) = Some (-6)%R
      \/ fst (bisection test.f (Some (-6)%R) (Some 6%R)
                (Some (1 / 10000)%R) default_max_iter)
         = Some ((-6 + 6) / 2)%R).
Proof.
  apply (bisection_never_iterates_at_low_midpoint test.f (1 / 10000)
           default_max_iter (-6) 6); lra.
Defined.

(** ** The solvers: numbers between the indices *)

Section SolveBetween.
Local Open Scope R_scope.

Lemma solve_mode_between (f : xreal -> xreal) (a b : R) :
  exists x : R,
    solve_mode f (Some a) (Some b) = Some x /\ Rmin a b <= x <= Rmax a b.
Proof.
  unfold solve_mode.
  destruct (bisection_between f default_tol default_max_iter a b)
    as (x & Hx & Hin).
  destruct (status _).
  - exists x. auto.
  - exists a. split; [reflexivity|apply Rmin_Rmax_between].
  - exists a. split; [reflexivity|apply Rmin_Rmax_between].
Qed.

End SolveBetween.

(** Goals about nested [Rmin] and [Rmax], in the goal and the context. *)
Ltac rminmax_all :=
  unfold Rmin, Rmax in *; repeat destruct (Rle_dec _ _); lra.

Section SolversBetween.
Local Open Scope R_scope.

Lemma solve_slab_between (n1 n2 n3 : R) (lambda W : xreal) (j : Z) :
  exists te tm : R,
    solve_slab (Some n1) (Some n2) (Some n3) lambda W j = (Some te, Some tm)
    /\ Rmin (Rmin n1 n3) n2 <= te <= Rmax (Rmin n1 n3) n2
    /\ Rmin (Rmin n1 n3) n2 <= tm <= Rmax (Rmin n1 n3) n2.
Proof.
  unfold solve_slab. rewrite xstd_min.
  destruct (solve_mode_between
              (slab_equation TE (Some n1) (Some n2) (Some n3) lambda W j)
              (Rmin n1 n3) n2) as (te & Ete & Hte).
  destruct (solve_mode_between
              (slab_equation TM (Some n1) (Some n2) (Some n3) lambda W j)
              (Rmin n1 n3) n2) as (tm & Etm & Htm).
  exists te, tm. rewrite Ete, Etm. auto.
Qed.

Lemma solve_slot_slab_between (n_clad n_core n_slot : R)
  (lambda w_slot w_core : xreal) (j : Z) :
  exists ev od : R,
    solve_slot_slab (Some n_clad) (Some n_core) (Some n_slot) lambda
                    w_slot w_core j = (Some ev, Some od)
    /\ Rmin (Rmax n_clad n_slot) n_core <= ev
       <= Rmax (Rmax n_clad n_slot) n_core
    /\ Rmin (Rmax n_clad n_slot) n_core <= od
       <= Rmax (Rmax n_clad n_slot) n_core.
Proof.
  unfold solve_slot_slab. rewrite xstd_max.
  destruct (solve_mode_between
              (slot_cosh_equation (Some n_clad) (Some n_core) (Some n_slot)
                 lambda (w_slot / lit 2)%dbl (w_slot / lit 2 + w_core)%dbl j)
              (Rmax n_clad n_slot) n_core) as (ev & Eev & Hev).
  destruct (solve_mode_between
              (slot_sinh_equation (Some n_clad) (Some n_core) (Some n_slot)
                 lambda (w_slot / lit 2)%dbl (w_slot / lit 2 + w_core)%dbl j)
              (Rmax n_clad n_slot) n_core) as (od & Eod & Hod).
  exists ev, od. rewrite Eev, Eod. auto.
Qed.

Lemma solve_slot_slab_bracket (n_clad n_core n_slot : R)
  (lambda w_slot w_core : xreal) (j : Z) :
  Rmax n_clad n_slot < n_core ->
  exists ev od : R,
    solve_slot_slab (Some n_clad) (Some n_core) (Some n_slot) lambda
                    w_slot w_core j = (Some ev, Some od)
    /\ Rmax n_clad n_slot <= ev < n_core
    /\ Rmax n_clad n_slot <= od < n_core.
Proof.
  intros Hm. unfold solve_slot_slab. rewrite xstd_max.
  destruct (solve_mode_bracket
              (slot_cosh_equation (Some n_clad) (Some n_core) (Some n_slot)
                 lambda (w_slot / lit 2)%dbl (w_slot / lit 2 + w_core)%dbl j)
              (Rmax n_clad n_slot) n_core Hm) as (ev & Eev & Hev).
  destruct (solve_mode_bracket
              (slot_sinh_equation (Some n_clad) (Some n_core) (Some n_slot)
                 lambda (w_slot / lit 2)%dbl (w_slot / lit 2 + w_core)%dbl j)
              (Rmax n_clad n_slot) n_core Hm) as (od & Eod & Hod).
  exists ev, od. rewrite Eev, Eod. auto.
Qed.

(** X7: With a core index above the cladding and slot indices, the two
    components of [solve_slot_slab] (even and odd) are numbers that are
    at least [max(n_clad, n_slot)] and below [n_core], whatever the
    wavelength, the widths and the order are (NaN included). *)
Theorem solve_slot_slab_in_bracket :
  forall (n_clad n_core n_slot : R) (lambda w_slot w_core : xreal) (j : Z),
  n_clad < n_core -> n_slot < n_core ->
  exists ev od : R,
    solve_slot_slab (Some n_clad) (Some n_core) (Some n_slot) lambda
                    w_slot w_core j = (Some ev, Some od)
    /\ Rmax n_clad n_slot <= ev < n_core
    /\ Rmax n_clad n_slot <= od < n_core.
Proof.
  intros n_clad n_core n_slot lambda w_slot w_core j H1 H2.
  apply solve_slot_slab_bracket. rminmax.
Qed.

End SolversBetween.

Lemma solve_slot_slab_in_bracket_witness :
  exists ev od : R,
    solve_slot_slab (Some 1%R) (Some 2%R) (Some 1%R) (Some (31 / 20)%R)
                    (Some (1 / 10)%R) (Some (1 / 4)%R) 0 = (Some ev, Some od)
    /\ (Rmax 1 1 <= ev < 2)%R /\ (Rmax 1 1 <= od < 2)%R.
Proof.
  apply (solve_slot_slab_in_bracket 1 2 1 (Some (31 / 20)%R)
           (Some (1 / 10)%R) (Some (1 / 4)%R) 0); lra.
Defined.

(** ** The two waveguides: the index they return *)

Section Composition.
Local Open Scope R_scope.

Lemma slab_core_cases (wg : Waveguide (D := xreal)) :
  slab_core wg = n_core wg \/ slab_core wg = n_clad wg.
Proof. unfold slab_core. destruct (negb _); auto. Qed.

(** X8: The strip: with a core index above the box and cladding indices,
    [operator()] returns a number that is at least [min(n_box, n_clad)]
    and below [n_core] -- for either polarisation, every order, and
    whatever the wavelength and the dimensions are (NaN included). *)
Theorem strip_index_between_cladding_and_core :
  forall (n_box n_core n_clad : R) (wavelength t_rib t_slab w_rib w_slab : xreal)
         (mode_order : nat) (mode : Mode),
  n_box < n_core -> n_clad < n_core ->
  exists x : R,
    Waveguide_call (mkWaveguide wavelength t_rib t_slab w_rib w_slab
                      (Some n_box) (Some n_core) (Some n_clad)
                      mode_order mode) = Some x
    /\ Rmin n_box n_clad <= x < n_core.
Proof.
  intros nb nco ncl wl tr ts wr ws mo m Hb Hc.
  set (wg := mkWaveguide _ _ _ _ _ _ _ _ _ _).
  assert (H1 : exists te tm : R,
             vertical_n1 wg = (Some te, Some tm)
             /\ Rmin nb ncl <= te < nco
             /\ Rmin nb ncl <= tm < nco).
  { unfold vertical_n1.
    destruct (slab_core_cases wg) as [E|E]; rewrite E; cbn.
    - apply solve_slab_bracket; assumption.
    - destruct (solve_slab_between nb ncl ncl wl ts 0)
        as (te & tm & E' & Hte & Htm).
      exists te, tm. split; [exact E'|].
      rminmax_all. }
  assert (H2 : exists te tm : R,
             vertical_n2 wg = (Some te, Some tm)
             /\ Rmin nb ncl <= te < nco
             /\ Rmin nb ncl <= tm < nco)
    by (apply solve_slab_bracket; assumption).
  destruct H1 as (te1 & tm1 & E1 & Hte1 & Htm1).
  destruct H2 as (te2 & tm2 & E2 & Hte2 & Htm2).
  unfold Waveguide_call, lateral_indices. rewrite E1, E2.
  change (mode wg) with m. change (wavelength wg) with wl.
  change (w_rib wg) with wr. change (mode_order wg) with mo.
  destruct m; cbn [fst snd].
  - destruct (solve_slab_between te1 te2 te1 wl wr (int_of_size_t mo))
      as (te & tm & E & Hte & Htm).
    rewrite E. exists tm. split; [reflexivity|].
    rminmax_all.
  - destruct (solve_slab_between tm1 tm2 tm1 wl wr (int_of_size_t mo))
      as (te & tm & E & Hte & Htm).
    rewrite E. exists te. split; [reflexivity|].
    rminmax_all.
Qed.

(** X9: The slot waveguide: with a core index above the box, cladding and
    slot indices, [operator()] returns a number that is at least the
    smallest of [n_box], [n_clad] and [n_slot] and below [n_core] -- for
    either polarisation, every order, and whatever the wavelength and
    the dimensions are (NaN included). *)
Theorem slot_index_between_cladding_and_core :
  forall (n_box n_clad n_core n_slot : R)
         (wavelength t_core w_core w_slot : xreal)
         (mode_order : nat) (mode : Mode),
  n_box < n_core -> n_clad < n_core -> n_slot < n_core ->
  exists x : R,
    slot.waveguide_call
      (slot.mk_waveguide wavelength t_core w_core w_slot
         (Some n_box) (Some n_clad) (Some n_core) (Some n_slot)
         mode_order mode) = Some x
    /\ Rmin (Rmin n_box n_clad) n_slot <= x < n_core.
Proof.
  intros n_box n_clad n_core n_slot wavelength t_core w_core w_slot
         mode_order m Hb Hc Hs.
  set (wg := slot.mk_waveguide _ _ _ _ _ _ _ _ _ _).
  destruct (solve_slab_bracket n_box n_core n_clad wavelength t_core 0 Hb Hc)
    as (tec & tmc & Ec & Htec & Htmc).
  destruct (solve_slab_between n_box n_slot n_clad wavelength t_core 0)
    as (tes & tms & Es & Htes & Htms).
  destruct (solve_slab_between n_box n_clad n_clad wavelength t_core 0)
    as (tel & tml & El & Htel & Html).
  assert (Hslot : exists s : R,
             slot.neff_slot wg = Some s
             /\ Rmin (Rmin n_box n_clad) n_slot <= s < n_core).
  { unfold slot.neff_slot, wg. cbn [slot.n_box slot.n_clad slot.n_core slot.n_slot slot.wavelength
         slot.t_core slot.w_core slot.w_slot slot.mode slot.mode_order].
    rewrite Es. destruct m; cbn [fst snd].
    - exists tes. split; [reflexivity|].
      rminmax_all.
    - exists tms. split; [reflexivity|].
      rminmax_all. }
  destruct Hslot as (s & Eslot & Hslot).
  assert (Htel' : Rmin n_box n_clad <= tel < n_core)
    by rminmax_all.
  assert (Html' : Rmin n_box n_clad <= tml < n_core)
    by rminmax_all.
  unfold slot.waveguide_call. rewrite Eslot.
  unfold slot.neff_clad, slot.neff_core, wg.
  cbn [slot.n_box slot.n_clad slot.n_core slot.n_slot slot.wavelength
         slot.t_core slot.w_core slot.w_slot slot.mode slot.mode_order].
  rewrite Ec, El.
  destruct m; cbn [fst snd].
  - destruct (solve_slot_slab_between tel tec s wavelength w_slot w_core
                (int_of_size_t mode_order)) as (ev & od & E & Hev & Hod).
    rewrite E. exists ev. split; [reflexivity|].
    rminmax_all.
  - destruct (solve_slot_slab_between tml tmc s wavelength w_slot w_core
                (int_of_size_t mode_order)) as (ev & od & E & Hev & Hod).
    rewrite E. exists ev. split; [reflexivity|].
    rminmax_all.
Qed.

End Composition.

Lemma strip_index_witness :
  exists x : R,
    Waveguide_call (mkWaveguide (Some (31 / 20)%R) (Some (11 / 50)%R)
                      (Some 0%R) (Some (1 / 2)%R) (Some 0%R)
                      (Some (36 / 25)%R) (Some (347 / 100)%R)
                      (Some (36 / 25)%R) 0 TE) = Some x
    /\ (Rmin (36 / 25) (36 / 25) <= x < 347 / 100)%R.
Proof.
  apply (strip_index_between_cladding_and_core (36 / 25) (347 / 100) (36 / 25)
           (Some (31 / 20)%R) (Some (11 / 50)%R) (Some 0%R) (Some (1 / 2)%R)
           (Some 0%R) 0 TE); lra.
Defined.

Lemma slot_index_witness :
  exists x : R,
    slot.waveguide_call
      (slot.mk_waveguide (Some (31 / 20)%R) (Some (11 / 50)%R)
         (Some (1 / 4)%R) (Some (1 / 10)%R)
         (Some (36 / 25)%R) (Some (36 / 25)%R) (Some (347 / 100)%R)
         (Some (36 / 25)%R) 0 TE) = Some x
    /\ (Rmin (Rmin (36 / 25) (36 / 25)) (36 / 25) <= x < 347 / 100)%R.
Proof.
  apply (slot_index_between_cladding_and_core (36 / 25) (36 / 25) (347 / 100)
           (36 / 25) (Some (31 / 20)%R) (Some (11 / 50)%R) (Some (1 / 4)%R)
           (Some (1 / 10)%R) 0 TE); lra.
Defined.

(** ** Slabs that guide nothing *)

Section NoCore.
Local Open Scope R_scope.

Lemma solve_mode_same (f : xreal -> xreal) (a : R) :
  solve_mode f (Some a) (Some a) = Some a.
Proof.
  destruct (solve_mode_between f a a) as (x & E & H).
  rewrite E. f_equal. revert H. unfold Rmin, Rmax.
  destruct (Rle_dec a a); lra.
Qed.

(** A residual that is NaN at the lower end and at the first midpoint:
    the loop is not entered and the root find falls back to the lower
    bound, unless the half-width of the bracket is the tolerance. *)
Lemma solve_mode_nan_fallback (f : xreal -> xreal) (a b : R) :
  a <= b -> f (Some a) = None -> f (Some ((a + b) / 2)) = None ->
  (b - a) / 2 <> 1 / 10000 ->
  solve_mode f (Some a) (Some b) = Some a.
Proof.
  intros Hab Ea Em Hw. unfold solve_mode, bisection.
  rewrite Ea. cbn [mul xreal_Arith xlift2]. rewrite xltb_nan_r.
  rewrite bisection_loop_nan by (cbn [vfmid]; now rewrite xmid).
  destruct (status _) eqn:Es; try reflexivity.
  rewrite xtol in Es.
  apply (bisection_finish_converged_iff f (1 / 10000) a b) in Es;
    [contradiction|reflexivity|reflexivity|exact Hab].
Qed.

Lemma slab_equation_nan_clad (mode : Mode) (n1 n2 n3 : R) (lambda W : xreal)
  (j : Z) (x : R) :
  x ^ 2 < n3 ^ 2 ->
  slab_equation mode (Some n1) (Some n2) (Some n3) lambda W j (Some x) = None.
Proof.
  intros H. unfold slab_equation.
  change (pow (Some x) 2 - pow (Some n3) 2)%dbl with (Some (x ^ 2 - n3 ^ 2)).
  rewrite (xsqrt_nan (x ^ 2 - n3 ^ 2)) by lra.
  destruct (lit 2 * pi * (lit 1 / lambda))%dbl as [k|];
    destruct (sqrt (pow (Some x) 2 - pow (Some n1) 2)%dbl),
             (sqrt (pow (Some n2) 2 - pow (Some x) 2)%dbl), W, mode;
    reflexivity.
Qed.

Lemma solve_slab_no_contrast (n1 n3 : R) (lambda W : xreal) (j : Z) :
  0 <= n1 -> (n3 - n1) / 2 <> 1 / 10000 ->
  solve_slab (Some n1) (Some n3) (Some n3) lambda W j
  = (Some (Rmin n1 n3), Some (Rmin n1 n3)).
Proof.
  intros H1 Hw. unfold solve_slab. rewrite xstd_min.
  destruct (Rle_dec n3 n1) as [Hle|Hlt].
  - replace (Rmin n1 n3) with n3 by rminmax.
    now rewrite !solve_mode_same.
  - replace (Rmin n1 n3) with n1 by rminmax.
    assert (Hs : forall x : R, 0 <= x < n3 -> x ^ 2 < n3 ^ 2)
      by (intros x Hx; nra).
    rewrite !solve_mode_nan_fallback;
      try reflexivity; try lra; try exact Hw;
      apply slab_equation_nan_clad, Hs; lra.
Qed.

(** X10: A slab whose core index is its cladding index guides nothing:
    [solve_slab(n1, n3, n3, ...)] returns [min(n1, n3)] for both
    polarisations, whatever the order, the wavelength and the thickness
    are (NaN included) -- unless the bracket [[n1, n3]] has the
    tolerance as half-width.  These are the outer regions of a strip
    without slab ([t_slab = 0]) and the outer regions of the slot
    waveguide. *)
Theorem solve_slab_without_core_returns_minimum :
  forall (n_box n_clad : R),
  0 <= n_box -> (n_clad - n_box) / 2 <> 1 / 10000 ->
  let m := Some (Rmin n_box n_clad) in
  (forall (lambda W : xreal) (j : Z),
     solve_slab (Some n_box) (Some n_clad) (Some n_clad) lambda W j = (m, m))
  /\ (forall (wavelength t_rib w_rib w_slab n_core : xreal) (mode_order : nat)
             (mode : Mode),
        vertical_n1 (mkWaveguide wavelength t_rib (Some 0) w_rib w_slab
                       (Some n_box) n_core (Some n_clad) mode_order mode)
        = (m, m))
  /\ (forall (wavelength t_core w_core w_slot n_core n_slot : xreal)
             (mode_order : nat) (mode : Mode),
        slot.neff_clad (slot.mk_waveguide wavelength t_core w_core w_slot
                          (Some n_box) (Some n_clad) n_core n_slot
                          mode_order mode)
        = (m, m)).
Proof.
  intros nb ncl Hb Hw m. split; [|split].
  - intros wl W j. now apply solve_slab_no_contrast.
  - intros wl tr wr ws nco mo md. unfold vertical_n1, slab_core.
    cbn [t_slab n_box n_clad n_core wavelength].
    replace (eqb (Some 0) (lit 0)) with true.
    + cbn [negb]. now apply solve_slab_no_contrast.
    + symmetry. rewrite xlit_0. cbn. destruct (Req_dec_T 0 0); [reflexivity|lra].
  - intros wl tc wc wsl nco ns mo md. unfold slot.neff_clad.
    cbn [slot.n_box slot.n_clad slot.wavelength slot.t_core].
    now apply solve_slab_no_contrast.
Qed.

End NoCore.

Lemma solve_slab_without_core_witness :
  (forall (lambda W : xreal) (j : Z),
     solve_slab (Some (36 / 25)%R) (Some (36 / 25)%R) (Some (36 / 25)%R)
                lambda W j
     = (Some (Rmin (36 / 25) (36 / 25)), Some (Rmin (36 / 25) (36 / 25))))
  /\ (forall (wavelength t_rib w_rib w_slab n_core : xreal) (mode_order : nat)
             (mode : Mode),
        vertical_n1 (mkWaveguide wavelength t_rib (Some 0%R) w_rib w_slab
                       (Some (36 / 25)%R) n_core (Some (36 / 25)%R)
                       mode_order mode)
        = (Some (Rmin (36 / 25) (36 / 25)), Some (Rmin (36 / 25) (36 / 25))))
  /\ (forall (wavelength t_core w_core w_slot n_core n_slot : xreal)
             (mode_order : nat) (mode : Mode),
        slot.neff_clad (slot.mk_waveguide wavelength t_core w_core w_slot
                          (Some (36 / 25)%R) (Some (36 / 25)%R) n_core n_slot
                          mode_order mode)
        = (Some (Rmin (36 / 25) (36 / 25)), Some (Rmin (36 / 25) (36 / 25)))).
Proof.
  apply (solve_slab_without_core_returns_minimum (36 / 25) (36 / 25)); lra.
Defined.

(** ** The cut-off of the symmetric slab *)

Section Cutoff.
Local Open Scope R_scope.

Lemma sqrt_0_sq (n : R) : R_sqrt.sqrt (n ^ 2 - n ^ 2) = 0.
Proof. replace (n ^ 2 - n ^ 2) with 0 by ring. apply sqrt_0. Qed.

(** The residual of the symmetric slab at the two ends of the bracket. *)
Lemma slab_residual_lower_end (mode : Mode) (n n2 lambda W : R) (j : Z) :
  0 < n < n2 -> 0 < lambda ->
  Real.slab_residual mode n n2 n lambda W j n
  = IZR j * PI - Real.osc lambda n2 n * W.
Proof.
  intros Hn Hl. unfold Real.slab_residual, Real.decay.
  rewrite sqrt_0_sq, Rmult_0_r.
  assert (Hk : 0 < Real.k0 lambda).
  { unfold Real.k0. apply Rdiv_lt_0_compat; [|assumption].
    pose proof PI_RGT_0; lra. }
  assert (Ho : 0 < Real.osc lambda n2 n).
  { unfold Real.osc. apply Rmult_lt_0_compat; [assumption|].
    apply sqrt_lt_R0. nra. }
  destruct mode.
  - rewrite !Ratan2_pos_0 by assumption. lra.
  - rewrite Rmult_0_r, !Ratan2_pos_0 by (apply Rmult_lt_0_compat; nra). lra.
Qed.

Lemma slab_residual_upper_end (mode : Mode) (n n2 lambda W : R) (j : Z) :
  0 < n < n2 -> 0 < lambda ->
  Real.slab_residual mode n n2 n lambda W j n2 = (IZR j + 1) * PI.
Proof.
  intros Hn Hl. unfold Real.slab_residual, Real.osc.
  rewrite sqrt_0_sq, Rmult_0_r.
  assert (Hk : 0 < Real.k0 lambda).
  { unfold Real.k0. apply Rdiv_lt_0_compat; [|assumption].
    pose proof PI_RGT_0; lra. }
  assert (Ho : 0 < Real.decay lambda n n2).
  { unfold Real.decay. apply Rmult_lt_0_compat; [assumption|].
    apply sqrt_lt_R0. nra. }
  destruct mode.
  - rewrite !Ratan2_0_pos by assumption. lra.
  - rewrite Rmult_0_r, !Ratan2_0_pos by (apply Rmult_lt_0_compat; nra). lra.
Qed.

(** Beyond the cut-off of order [j] the residual is positive at both ends
    of the bracket. *)
Lemma slab_sign_beyond_cutoff (mode : Mode) (n n2 lambda W : R) (j : Z) :
  0 < n < n2 -> 0 < lambda -> (0 <= j < INT_MAX)%Z ->
  2 * W * R_sqrt.sqrt (n2 ^ 2 - n ^ 2) < IZR j * lambda ->
  (slab_equation mode (Some n) (Some n2) (Some n) (Some lambda) (Some W) j
     (Some n)
   * slab_equation mode (Some n) (Some n2) (Some n) (Some lambda) (Some W) j
       (Some n2) >? lit 0)%dbl = true.
Proof.
  intros Hn Hl [Hj Hj'] Hc.
  assert (Hi : int_add j 1 = (j + 1)%Z)
    by (apply int_add_small; unfold INT_MIN, INT_MAX in *; lia).
  rewrite !slab_equation_real by (assumption || nra).
  rewrite slab_residual_lower_end, slab_residual_upper_end by assumption.
  cbn [mul xreal_Arith xlift2]. rewrite xlit_0. apply xltb_true.
  pose proof PI_RGT_0 as Hpi.
  assert (0 <= IZR j) by (apply IZR_le in Hj; exact Hj).
  apply Rmult_lt_0_compat; [|nra].
  unfold Real.osc, Real.k0.
  assert (E : 2 * PI / lambda * R_sqrt.sqrt (n2 ^ 2 - n ^ 2) * W
              = PI / lambda * (2 * W * R_sqrt.sqrt (n2 ^ 2 - n ^ 2)))
    by (field; lra).
  rewrite E.
  assert (E' : IZR j * PI = PI / lambda * (IZR j * lambda))
    by (field; lra).
  rewrite E'.
  assert (0 < PI / lambda) by (apply Rdiv_lt_0_compat; lra).
  nra.
Qed.


End Cutoff.


(** ** The mode profile: samples that are skipped, and the decay *)

Section SkippedSamples.
Context {D : Type} {AD : Arith D} {LD : Libm D}.
Variable mode : Mode.
Variables neff n1 n2 n3 lambda W : D.
Variable j : Z.

(** A sample on which no branch of [calculate_field] is taken keeps its
    entry in the three arrays through the whole loop. *)
Lemma loop_skips (x : list D) (l : list nat) :
  forall (o : fields) (i : nat) (d : field_t D),
  field_at mode neff n1 n2 n3 lambda W j (nth i x (lit 0)) = None ->
  let o' := fold_left
              (fun o i => calculate_field mode neff n1 n2 n3 lambda W j x i o)
              l o in
  nth i (A o') d = nth i (A o) d /\ nth i (Bl o') d = nth i (Bl o) d
  /\ nth i (Bn o') d = nth i (Bn o) d.
Proof.
  induction l as [|k l IH]; intros o i d Hi; cbn [fold_left]; [auto|].
  destruct (IH (calculate_field mode neff n1 n2 n3 lambda W j x k o) i d Hi)
    as (HA & HBl & HBn).
  cbv zeta. rewrite HA, HBl, HBn. clear IH HA HBl HBn.
  unfold calculate_field.
  destruct (Nat.eq_dec k i) as [->|Hk].
  - now rewrite Hi.
  - destruct (field_at mode neff n1 n2 n3 lambda W j (nth k x (lit 0)))
      as [[[Ai Bli] Bni]|]; [|auto].
    cbn [A Bl Bn]. rewrite !nth_store_other by auto. auto.
Qed.

End SkippedSamples.

Section SkippedXreal.
Local Open Scope R_scope.

Lemma xleb_nan_r (x : xreal) : leb x None = false.
Proof. now destruct x. Qed.

Lemma field_at_nan_sample (mode : Mode) (neff n1 n2 n3 lambda W : xreal) (j : Z) :
  field_at mode neff n1 n2 n3 lambda W j None = None.
Proof. now destruct W. Qed.

Lemma field_at_nan_thickness (mode : Mode) (neff n1 n2 n3 lambda : xreal)
  (j : Z) (r : R) :
  0 <= r -> field_at mode neff n1 n2 n3 lambda None j (Some r) = None.
Proof.
  intros Hr. unfold field_at. rewrite xlit_0.
  rewrite xltb_false by assumption.
  now rewrite xleb_nan_r, andb_false_r.
Qed.

(** X12: [mode_1D] leaves an entry of [A], [Bl] and [Bn] as it found it when
    the sample is NaN, and also when the thickness [W] is NaN and the
    sample is not negative: none of the three conditions of
    [calculate_field] holds there. *)
Theorem mode_1D_leaves_nan_samples_unwritten :
  forall (mode : Mode) (neff n1 n2 n3 lambda W : xreal) (j : Z)
         (x : list xreal) (o : fields) (i : nat) (d : field_t xreal),
  nth i x (lit 0) = None
  \/ (W = None /\ exists r : R, nth i x (lit 0) = Some r /\ 0 <= r) ->
  let o' := mode_1D mode x o neff n1 n2 n3 lambda W j in
  nth i (A o') d = nth i (A o) d /\ nth i (Bl o') d = nth i (Bl o) d
  /\ nth i (Bn o') d = nth i (Bn o) d.
Proof.
  intros mode neff n1 n2 n3 lambda W j x o i d H.
  apply loop_skips. destruct H as [E|(-> & r & E & Hr)]; rewrite E.
  - apply field_at_nan_sample.
  - now apply field_at_nan_thickness.
Qed.

End SkippedXreal.

Lemma mode_1D_nan_sample_witness :
  let z := mkField (Some 0%R) (Some 0%R) in
  let o := mkFields [z] [z] [z] in
  let o' := mode_1D TE [None] o (Some (3 / 2)%R) (Some 1%R) (Some 2%R)
              (Some 1%R) (Some 1%R) (Some 1%R) 0 in
  nth 0 (A o') z = nth 0 (A o) z /\ nth 0 (Bl o') z = nth 0 (Bl o) z
  /\ nth 0 (Bn o') z = nth 0 (Bn o) z.
Proof.
  intros z o.
  apply (mode_1D_leaves_nan_samples_unwritten TE (Some (3 / 2)%R) (Some 1%R)
           (Some 2%R) (Some 1%R) (Some 1%R) (Some 1%R) 0 [None] o 0%nat z).
  left. reflexivity.
Defined.

Section Decay.
Local Open Scope R_scope.

Lemma xA_box (mode : Mode) (neff n1 n2 lambda : R) (j : Z) (x : R) :
  lambda <> 0 -> n1 <> 0 -> n1 ^ 2 <= neff ^ 2 -> neff ^ 2 <= n2 ^ 2 ->
  A_box mode (Some neff) (Some n1) (Some n2) (Some lambda) j (Some x)
  = Some (Rtrigo_def.cos (Real.alpha mode n1 n2 lambda j neff)
          * match mode with TM => n2 ^ 2 / n1 ^ 2 | TE => 1 end
          * Rtrigo_def.exp (Real.decay lambda n1 neff * x)).
Proof.
  intros Hl Hn H1 H2. unfold A_box, C1, C2.
  rewrite xalpha, xgamma1, xlit_1 by assumption.
  assert (n1 ^ 2 <> 0) by (apply pow_nonzero; assumption).
  destruct mode.
  - cbn. f_equal. ring.
  - change (pow (Some n2) 2) with (Some (n2 ^ 2)).
    change (pow (Some n1) 2) with (Some (n1 ^ 2)).
    rewrite xdiv_some by assumption.
    cbn -[Rpow_def.pow]. f_equal. ring.
Qed.

Lemma xA_clad (mode : Mode) (neff n1 n2 n3 lambda W : R) (j : Z) (x : R) :
  lambda <> 0 -> n3 <> 0 -> n1 ^ 2 <= neff ^ 2 -> neff ^ 2 <= n2 ^ 2 ->
  n3 ^ 2 <= neff ^ 2 ->
  A_clad mode (Some neff) (Some n1) (Some n2) (Some n3) (Some lambda)
         (Some W) j (Some x)
  = Some (Rtrigo_def.cos (Real.osc lambda n2 neff * W
                          + Real.alpha mode n1 n2 lambda j neff)
          * match mode with TM => n2 ^ 2 / n3 ^ 2 | TE => 1 end
          * Rtrigo_def.exp (- Real.decay lambda n3 neff * (x - W))).
Proof.
  intros Hl Hn H1 H2 H3. unfold A_clad, C3, C2.
  rewrite xalpha, xgamma2, xgamma3, xlit_1 by assumption.
  assert (n3 ^ 2 <> 0) by (apply pow_nonzero; assumption).
  destruct mode.
  - cbn. f_equal. ring.
  - change (pow (Some n2) 2) with (Some (n2 ^ 2)).
    change (pow (Some n3) 2) with (Some (n3 ^ 2)).
    rewrite xdiv_some by assumption.
    cbn -[Rpow_def.pow]. f_equal. ring.
Qed.

Lemma decay_pos (lambda n neff : R) :
  0 < lambda -> 0 <= n -> n < neff -> 0 < Real.decay lambda n neff.
Proof.
  intros Hl Hn H. unfold Real.decay, Real.k0.
  apply Rmult_lt_0_compat.
  - apply Rdiv_lt_0_compat; [|assumption]. pose proof PI_RGT_0; lra.
  - apply sqrt_lt_R0. nra.
Qed.

(** X13: For a [neff] in the band, the amplitude of either polarisation
    decays away from the core: going outwards in the box ([y <= x]) or
    in the cladding ([x <= y]) never increases its absolute value, and
    the value is a number at every position. *)
Theorem amplitude_decays_away_from_core :
  forall (mode : Mode) (neff n1 n2 n3 lambda W : R) (j : Z) (x y : R),
  0 < lambda -> 0 < n1 -> 0 < n3 -> Rmax n1 n3 < neff < n2 -> x <= y ->
  exists bx by_ cx cy : R,
    A_box mode (Some neff) (Some n1) (Some n2) (Some lambda) j (Some x)
    = Some bx
    /\ A_box mode (Some neff) (Some n1) (Some n2) (Some lambda) j (Some y)
       = Some by_
    /\ Rabs bx <= Rabs by_
    /\ A_clad mode (Some neff) (Some n1) (Some n2) (Some n3) (Some lambda)
              (Some W) j (Some x) = Some cx
    /\ A_clad mode (Some neff) (Some n1) (Some n2) (Some n3) (Some lambda)
              (Some W) j (Some y) = Some cy
    /\ Rabs cy <= Rabs cx.
Proof.
  intros mode neff n1 n2 n3 lambda W j x y Hl H1 H3 Hb Hxy.
  destruct (Rmax_lt_l n1 n3 neff (proj1 Hb)) as (Hn1 & Hn3).
  assert (S1 : n1 ^ 2 <= neff ^ 2) by nra.
  assert (S2 : neff ^ 2 <= n2 ^ 2) by nra.
  assert (S3 : n3 ^ 2 <= neff ^ 2) by nra.
  pose proof (decay_pos lambda n1 neff Hl (Rlt_le _ _ H1) Hn1) as G1.
  pose proof (decay_pos lambda n3 neff Hl (Rlt_le _ _ H3) Hn3) as G3.
  rewrite !xA_box, !xA_clad by (assumption || lra).
  do 4 eexists. split; [reflexivity|]. split; [reflexivity|].
  split; [|split; [reflexivity|split; [reflexivity|]]].
  - rewrite !Rabs_mult.
    apply Rmult_le_compat_l; [apply Rmult_le_pos; apply Rabs_pos|].
    rewrite !Rabs_right by (left; apply exp_pos).
    destruct Hxy as [Hlt| ->]; [left; apply exp_increasing; nra|right; reflexivity].
  - rewrite !Rabs_mult.
    apply Rmult_le_compat_l; [apply Rmult_le_pos; apply Rabs_pos|].
    rewrite !Rabs_right by (left; apply exp_pos).
    destruct Hxy as [Hlt| ->]; [left; apply exp_increasing; nra|right; reflexivity].
Qed.

End Decay.

Lemma amplitude_decays_witness :
  exists bx by_ cx cy : R,
    A_box TE (Some (3 / 2)%R) (Some 1%R) (Some 2%R) (Some 1%R) 0
          (Some (-2)%R) = Some bx
    /\ A_box TE (Some (3 / 2)%R) (Some 1%R) (Some 2%R) (Some 1%R) 0
             (Some (-1)%R) = Some by_
    /\ (Rabs bx <= Rabs by_)%R
    /\ A_clad TE (Some (3 / 2)%R) (Some 1%R) (Some 2%R) (Some 1%R) (Some 1%R)
              (Some 1%R) 0 (Some (-2)%R) = Some cx
    /\ A_clad TE (Some (3 / 2)%R) (Some 1%R) (Some 2%R) (Some 1%R) (Some 1%R)
              (Some 1%R) 0 (Some (-1)%R) = Some cy
    /\ (Rabs cy <= Rabs cx)%R.
Proof.
  apply (amplitude_decays_away_from_core TE (3 / 2) 1 2 1 1 1 0 (-2) (-1));
    try lra.
  unfold Rmax. destruct (Rle_dec 1 1); lra.
Defined.

(** ** [vec::linspace] *)

Section LinspaceSize.
Context {D : Type} {AD : Arith D}.

Lemma linspace_loop_length (n : nat) :
  forall a h i : D, length (vec.linspace_loop n a h i) = n.
Proof. induction n as [|n IH]; intros; cbn; [reflexivity|now rewrite IH]. Qed.

End LinspaceSize.

(** X14: [linspace] throws [invalid_argument] exactly on a range of fewer
    than two elements (an empty range or a single element), and on any
    other range it fills all of its [N] elements -- in any arithmetic. *)
Theorem linspace_throws_below_two_elements :
  forall (D : Type) (AD : Arith D) (N : nat) (a b : D),
  match vec.linspace N a b with
  | Throw e =>
      (N <= 1)%nat
      /\ e = invalid_argument "The range must contain at least two elements."
  | Return l => (2 <= N)%nat /\ length l = N
  end.
Proof.
  intros D AD N a b. unfold vec.linspace.
  destruct (Nat.leb_spec N 1).
  - split; [assumption|reflexivity].
  - split; [lia|apply linspace_loop_length].
Qed.

Section LinspaceValues.
Local Open Scope R_scope.

Lemma linspace_loop_nth (n : nat) :
  forall (a h : R) (k0 k : nat),
  (k < n)%nat ->
  nth k (vec.linspace_loop n (Some a) (Some h) (Some (INR k0))) None
  = Some (a + h * INR (k0 + k)).
Proof.
  induction n as [|n IH]; intros a h k0 k Hk; [lia|].
  cbn [vec.linspace_loop]. destruct k as [|k].
  - rewrite Nat.add_0_r. reflexivity.
  - cbn [nth].
    replace (Some (INR k0) + lit 1)%dbl with (Some (INR (S k0))).
    + rewrite IH by lia.
      now replace (S k0 + k)%nat with (k0 + S k)%nat by lia.
    + rewrite xlit_1, S_INR. reflexivity.
Qed.

Lemma linspace_real (N : nat) (a b : R) :
  (2 <= N)%nat ->
  vec.linspace N (Some a) (Some b)
  = Return (vec.linspace_loop N (Some a) (Some ((b - a) / INR (N - 1)))
              (Some (INR 0))).
Proof.
  intros HN. unfold vec.linspace.
  destruct (Nat.leb_spec N 1); [lia|].
  rewrite xof_int, <- INR_IZR_INZ. cbn [sub xreal_Arith xlift2].
  rewrite xdiv_some by (apply not_0_INR; lia).
  now rewrite xlit_0.
Qed.

(** X15: Over the reals, on a range of [N >= 2] elements, [linspace] stores
    the arithmetic progression [a + k (b - a) / (N - 1)]: the first
    element is [a], the last one is [b]. *)
Theorem linspace_is_arithmetic_progression :
  forall (N : nat) (a b : R),
  (2 <= N)%nat ->
  exists l : list xreal,
    vec.linspace N (Some a) (Some b) = Return l
    /\ length l = N
    /\ (forall k : nat, (k < N)%nat ->
          nth k l None = Some (a + (b - a) / INR (N - 1) * INR k))
    /\ nth 0 l None = Some a
    /\ nth (N - 1) l None = Some b.
Proof.
  intros N a b HN. rewrite linspace_real by assumption.
  eexists. split; [reflexivity|]. split; [apply linspace_loop_length|].
  assert (Hk : forall k : nat, (k < N)%nat ->
            nth k (vec.linspace_loop N (Some a) (Some ((b - a) / INR (N - 1)))
                     (Some (INR 0))) None
            = Some (a + (b - a) / INR (N - 1) * INR k))
    by (intros k Hk; now rewrite linspace_loop_nth).
  split; [exact Hk|]. split.
  - rewrite Hk by lia. f_equal. cbn [INR]. ring.
  - rewrite Hk by lia. f_equal. field. apply not_0_INR. lia.
Qed.

(** X16: Over the reals, with [a < b], the points [linspace] stores are
    strictly increasing. *)
Theorem linspace_is_increasing :
  forall (N : nat) (a b : R) (k1 k2 : nat),
  a < b -> (k1 < k2)%nat -> (k2 < N)%nat ->
  exists (l : list xreal) (x1 x2 : R),
    vec.linspace N (Some a) (Some b) = Return l
    /\ nth k1 l None = Some x1 /\ nth k2 l None = Some x2 /\ x1 < x2.
Proof.
  intros N a b k1 k2 Hab H12 H2.
  rewrite linspace_real by lia.
  eexists. exists (a + (b - a) / INR (N - 1) * INR (0 + k1)),
                  (a + (b - a) / INR (N - 1) * INR (0 + k2)).
  split; [reflexivity|].
  rewrite !linspace_loop_nth by lia.
  split; [reflexivity|]. split; [reflexivity|].
  assert (0 < INR (N - 1)) by (apply lt_0_INR; lia).
  assert (0 < (b - a) / INR (N - 1)) by (apply Rdiv_lt_0_compat; lra).
  assert (INR (0 + k1) < INR (0 + k2)) by (apply lt_INR; lia).
  nra.
Qed.

End LinspaceValues.

Lemma linspace_progression_witness :
  exists l : list xreal,
    vec.linspace 3 (Some (-1)%R) (Some 1%R) = Return l
    /\ length l = 3%nat
    /\ (forall k : nat, (k < 3)%nat ->
          nth k l None = Some (-1 + (1 - -1) / INR (3 - 1) * INR k)%R)
    /\ nth 0 l None = Some (-1)%R
    /\ nth (3 - 1) l None = Some 1%R.
Proof.
  apply (linspace_is_arithmetic_progression 3 (-1) 1). lia.
Defined.

Lemma linspace_increasing_witness :
  exists (l : list xreal) (x1 x2 : R),
    vec.linspace 3 (Some (-1)%R) (Some 1%R) = Return l
    /\ nth 0 l None = Some x1 /\ nth 2 l None = Some x2 /\ (x1 < x2)%R.
Proof.
  apply (linspace_is_increasing 3 (-1) 1 0 2); [lra|lia|lia].
Defined.

(** ** [vec::outer_product] *)

(** Decides the comparisons of natural numbers that occur in the goal. *)
Ltac nat_tests :=
  repeat match goal with
         | |- context [(?a <=? ?b)%nat] =>
             destruct (Nat.leb_spec a b); try lia
         | |- context [(?a <? ?b)%nat] =>
             destruct (Nat.ltb_spec a b); try lia
         end;
  cbn [andb].

Section OuterProductFacts.
Context {T : Type}.
Variable mulT : T -> T -> T.

Lemma nth_error_nth_nil (c : list (list T)) (i : nat) (row : list T) :
  nth_error c i = Some row -> nth i c [] = row /\ (i < length c)%nat.
Proof.
  intros E. split.
  - now apply nth_error_nth.
  - apply nth_error_Some. congruence.
Qed.

Lemma store2_length (c : list (list T)) (i j : nat) (v : T) :
  length (vec.store2 c i j v) = length c.
Proof.
  unfold vec.store2. destruct (nth_error c i); [apply store_length|reflexivity].
Qed.

Lemma store2_row_length (c : list (list T)) (i j i' : nat) (v : T) :
  length (nth i' (vec.store2 c i j v) []) = length (nth i' c []).
Proof.
  unfold vec.store2. destruct (nth_error c i) as [row|] eqn:E; [|reflexivity].
  destruct (nth_error_nth_nil c i row E) as (Er & Hi).
  destruct (Nat.eq_dec i' i) as [->|Hne].
  - rewrite nth_store_same by assumption. now rewrite store_length, Er.
  - now rewrite nth_store_other by assumption.
Qed.

Lemma store2_same (c : list (list T)) (i j : nat) (v d : T) :
  (i < length c)%nat -> (j < length (nth i c []))%nat ->
  nth j (nth i (vec.store2 c i j v) []) d = v.
Proof.
  intros Hi Hj. unfold vec.store2.
  destruct (nth_error c i) as [row|] eqn:E.
  - destruct (nth_error_nth_nil c i row E) as (Er & _).
    rewrite nth_store_same by assumption.
    apply nth_store_same. now rewrite <- Er.
  - apply nth_error_None in E. lia.
Qed.

Lemma store2_other (c : list (list T)) (i j i' j' : nat) (v d : T) :
  i' <> i \/ j' <> j ->
  nth j' (nth i' (vec.store2 c i j v) []) d = nth j' (nth i' c []) d.
Proof.
  intros H. unfold vec.store2.
  destruct (nth_error c i) as [row|] eqn:E; [|reflexivity].
  destruct (nth_error_nth_nil c i row E) as (Er & Hi).
  destruct (Nat.eq_dec i' i) as [->|Hne].
  - rewrite nth_store_same by assumption.
    destruct H as [H|H]; [congruence|].
    rewrite nth_store_other by assumption. now rewrite Er.
  - now rewrite nth_store_other by assumption.
Qed.

(** The inner loop writes the entries [j0 .. j0 + |b| - 1] of row [i]. *)
Lemma outer_product_row_spec (ai : T) (b : list T) (i : nat) :
  forall (j0 : nat) (c : list (list T)),
  let c' := vec.outer_product_row mulT ai b i j0 c in
  length c' = length c
  /\ (forall i' : nat, length (nth i' c' []) = length (nth i' c []))
  /\ (forall (i' j' : nat) (d : T),
        nth j' (nth i' c' []) d =
        if (i' =? i)%nat && (j0 <=? j')%nat && (j' <? j0 + length b)%nat
           && (i <? length c)%nat && (j' <? length (nth i c []))%nat
        then mulT ai (nth (j' - j0) b d)
        else nth j' (nth i' c []) d).
Proof.
  induction b as [|bj b IH]; intros j0 c; cbn [vec.outer_product_row length].
  - split; [reflexivity|]. split; [reflexivity|]. intros i' j' d.
    replace (j' <? j0 + 0)%nat with (j' <? j0)%nat by (f_equal; lia).
    destruct (i' =? i)%nat; cbn [andb]; [|reflexivity].
    destruct (Nat.leb_spec j0 j'), (Nat.ltb_spec j' j0); cbn [andb];
      try reflexivity; lia.
  - destruct (IH (S j0) (vec.store2 c i j0 (mulT ai bj))) as (HL & HR & HE).
    cbv zeta. split; [now rewrite HL, store2_length|].
    split; [intros i'; now rewrite HR, store2_row_length|].
    intros i' j' d. rewrite HE, store2_length, store2_row_length. clear HE.
    destruct (Nat.eqb_spec i' i) as [->|Hne]; cbn [andb].
    2:{ apply store2_other. now left. }
    destruct (Nat.ltb_spec i (length c)) as [Hi|Hi];
      destruct (Nat.ltb_spec j' (length (nth i c []))) as [Hj|Hj];
      rewrite ?andb_false_r, ?andb_true_r.
    + destruct (lt_eq_lt_dec j' j0) as [[Hlt|Heq]|Hgt].
      * nat_tests. apply store2_other. right. lia.
      * subst j'. nat_tests.
        rewrite Nat.sub_diag. cbn [nth]. now apply store2_same.
      * destruct (Nat.ltb_spec j' (j0 + S (length b))) as [Hin|Hout].
        -- nat_tests.
           replace (j' - j0)%nat with (S (j' - S j0)) by lia. reflexivity.
        -- nat_tests. apply store2_other. right. lia.
    + destruct (Nat.eq_dec j' j0) as [->|Hne].
      * rewrite !nth_overflow; try reflexivity; try lia.
        rewrite store2_row_length. lia.
      * apply store2_other. now right.
    + unfold vec.store2.
      destruct (nth_error c i) eqn:E; [|reflexivity].
      apply nth_error_nth_nil in E. lia.
    + unfold vec.store2.
      destruct (nth_error c i) eqn:E; [|reflexivity].
      apply nth_error_nth_nil in E. lia.
Qed.

End OuterProductFacts.

Section OuterProductRows.
Context {T : Type}.
Variable mulT : T -> T -> T.

(** The outer loop writes the rows [i0 .. i0 + |a| - 1]. *)
Lemma outer_product_rows_spec (b : list T) (a : list T) :
  forall (i0 : nat) (c : list (list T)),
  let c' := vec.outer_product_rows mulT a b i0 c in
  length c' = length c
  /\ (forall i' : nat, length (nth i' c' []) = length (nth i' c []))
  /\ (forall (i' j' : nat) (d : T),
        nth j' (nth i' c' []) d =
        if (i0 <=? i')%nat && (i' <? i0 + length a)%nat
           && (j' <? length b)%nat
           && (i' <? length c)%nat && (j' <? length (nth i' c []))%nat
        then mulT (nth (i' - i0) a d) (nth j' b d)
        else nth j' (nth i' c []) d).
Proof.
  induction a as [|ai a IH]; intros i0 c; cbn [vec.outer_product_rows length].
  - split; [reflexivity|]. split; [reflexivity|]. intros i' j' d.
    destruct (Nat.leb_spec i0 i'), (Nat.ltb_spec i' (i0 + 0)); cbn [andb];
      try reflexivity; lia.
  - destruct (outer_product_row_spec mulT ai b i0 0 c) as (HL1 & HR1 & HE1).
    destruct (IH (S i0) (vec.outer_product_row mulT ai b i0 0 c))
      as (HL & HR & HE).
    cbv zeta. split; [now rewrite HL, HL1|].
    split; [intros i'; now rewrite HR, HR1|].
    intros i' j' d. rewrite HE, HL1, HR1, HE1. clear HE HE1.
    destruct (lt_eq_lt_dec i' i0) as [[Hlt|Heq]|Hgt].
    + destruct (Nat.eqb_spec i' i0); [lia|]. nat_tests; reflexivity.
    + subst i'. rewrite Nat.eqb_refl, Nat.sub_diag, Nat.sub_0_r. cbn [nth].
      destruct (Nat.ltb_spec j' (length b)),
               (Nat.ltb_spec i0 (length c)),
               (Nat.ltb_spec j' (length (nth i0 c [])));
        nat_tests; reflexivity.
    + destruct (Nat.eqb_spec i' i0); [lia|]. cbn [andb].
      destruct (Nat.ltb_spec i' (i0 + S (length a))),
               (Nat.ltb_spec j' (length b)),
               (Nat.ltb_spec i' (length c)),
               (Nat.ltb_spec j' (length (nth i' c [])));
        nat_tests; try reflexivity;
        replace (i' - i0)%nat with (S (i' - S i0)) by lia; reflexivity.
Qed.

End OuterProductRows.


(** X17: [outer_product(a, b, c)] keeps the shape of [c], sets the entry
    [c[i][j]] to [a[i] * b[j]] for [i] below the size of [a] and [j]
    below the size of [b], and leaves every other entry of [c] as it
    was. *)
Theorem outer_product_fills_block :
  forall (T : Type) (mulT : T -> T -> T) (a b : list T) (c : list (list T))
         (i j : nat) (d : T),
  (i < length c)%nat -> (j < length (nth i c []))%nat ->
  let c' := vec.outer_product mulT a b c in
  length c' = length c
  /\ length (nth i c' []) = length (nth i c [])
  /\ nth j (nth i c' []) d =
     if (i <? length a)%nat && (j <? length b)%nat
     then mulT (nth i a d) (nth j b d)
     else nth j (nth i c []) d.
Proof.
  intros T mulT a b c i j d Hi Hj.
  destruct (outer_product_rows_spec mulT b a 0 c) as (HL & HR & HE).
  unfold vec.outer_product. cbv zeta.
  split; [exact HL|]. split; [apply HR|].
  rewrite HE, Nat.sub_0_r. cbn [Nat.leb Nat.add andb].
  destruct (Nat.ltb_spec i (length a)), (Nat.ltb_spec j (length b));
    nat_tests; reflexivity.
Qed.

Lemma outer_product_witness :
  let c' := vec.outer_product Nat.mul [2; 3]%nat [5; 7]%nat
              [[0; 0]; [0; 0]]%nat in
  length c' = length [[0; 0]; [0; 0]]%nat
  /\ length (nth 1 c' []) = length (nth 1 [[0; 0]; [0; 0]]%nat [])
  /\ nth 0 (nth 1 c' []) 0%nat =
     if (1 <? length [2; 3]%nat)%nat && (0 <? length [5; 7]%nat)%nat
     then Nat.mul (nth 1 [2; 3]%nat 0%nat) (nth 0 [5; 7]%nat 0%nat)
     else nth 0 (nth 1 [[0; 0]; [0; 0]]%nat []) 0%nat.
Proof.
  apply (outer_product_fills_block nat Nat.mul [2; 3]%nat [5; 7]%nat
           [[0; 0]; [0; 0]]%nat 1 0 0%nat); cbn; lia.
Defined.

(** ** [Waveguide::mode_2D] *)

Section Mode1DEntries.
Context {D : Type} {AD : Arith D} {LD : Libm D}.


Lemma mode_1D_A_entry (m : Mode) (x : list D) (o : fields)
  (neff n1 n2 n3 lambda W : D) (j : Z) (i : nat) (d Ai Bli Bni : field_t D) :
  (i < length x)%nat -> (i < length (A o))%nat -> (i < length (Bl o))%nat ->
  field_at m neff n1 n2 n3 lambda W j (nth i x (lit 0)) = Some (Ai, Bli, Bni) ->
  nth i (A (mode_1D m x o neff n1 n2 n3 lambda W j)) d = Ai.
Proof.
  intros Hi HA HBl E. unfold mode_1D.
  refine (proj1 (loop_visited m neff n1 n2 n3 lambda W j x (seq 0 (length x))
                   o i d Ai Bli Bni _ _ HA HBl E)).
  - apply seq_NoDup.
  - rewrite in_seq. lia.
Qed.

End Mode1DEntries.





(** ** [Log]: rows of delimited fields *)

Section LogFacts.
Local Open Scope string_scope.

Lemma append_assoc (s1 s2 s3 : string) : (s1 ++ s2) ++ s3 = s1 ++ s2 ++ s3.
Proof. induction s1 as [|a s1 IH]; cbn; [reflexivity|now rewrite IH]. Qed.

Lemma append_nil_r (s : string) : s ++ "" = s.
Proof. induction s as [|a s IH]; cbn; [reflexivity|now rewrite IH]. Qed.

Lemma concat_empty_cons (x : string) (l : list string) :
  String.concat "" (x :: l) = x ++ String.concat "" l.
Proof. destruct l; cbn; [now rewrite append_nil_r|reflexivity]. Qed.

(** Fields written after the first one of a line. *)
Lemma put_fields_after_first (row : list string) :
  forall l : log.Log,
  log.newline_ l = false ->
  fold_left log.put row l
  = log.mkLog false (log.delim_ l)
      (log.log_ l
       ++ String.concat "" (map (fun s => log.delim_ l ++ s) row)).
Proof.
  induction row as [|s row IH]; intros [n dl lg] Hn; cbn in Hn; subst n.
  - cbn. now rewrite append_nil_r.
  - cbn [fold_left]. unfold log.put at 2. cbn [log.newline_ log.delim_ log.log_].
    rewrite IH by reflexivity. cbn [log.delim_ log.log_ map].
    now rewrite concat_empty_cons, !append_assoc.
Qed.

Lemma concat_delimited (delim s : string) (row : list string) :
  String.concat delim (s :: row)
  = s ++ String.concat "" (map (fun t => delim ++ t) row).
Proof.
  revert s. induction row as [|t row IH]; intros s.
  - cbn. now rewrite append_nil_r.
  - change (String.concat delim (s :: t :: row))
      with (s ++ delim ++ String.concat delim (t :: row)).
    rewrite IH. cbn [map].
    now rewrite concat_empty_cons, !append_assoc.
Qed.

Lemma put_row_line (row : list string) (l : log.Log) :
  log.newline_ l = true ->
  log.put_row l row
  = log.mkLog true (log.delim_ l)
      (log.log_ l ++ String.concat (log.delim_ l) row ++ String "010" "").
Proof.
  destruct l as [n dl lg]. cbn [log.newline_ log.delim_ log.log_].
  intros ->. unfold log.put_row. destruct row as [|s row].
  - reflexivity.
  - cbn [fold_left]. unfold log.put at 2.
    cbn [log.newline_ log.delim_ log.log_].
    rewrite put_fields_after_first by reflexivity.
    unfold log.newline. cbn [log.newline_ log.delim_ log.log_].
    now rewrite concat_delimited, !append_assoc.
Qed.

End LogFacts.

(** X20: Rows written to a new [Log] -- each one as [log << x1 << ... << xn;
    ++log;] -- give a file with one line per row, in order: the texts of
    the row joined by the delimiter (no delimiter before the first or
    after the last) and a line feed; an empty row gives an empty line.
    The log is at the beginning of a line again. *)
Theorem log_rows_are_delimited_lines :
  forall (delim : string) (rows : list (list string)),
  let l := fold_left log.put_row rows (log.Log_new delim) in
  log.log_ l
  = String.concat ""
      (map (fun row => String.concat delim row ++ String "010" "")%string
           rows)
  /\ log.newline_ l = true /\ log.delim_ l = delim.
Proof.
  intros delim rows.
  assert (H : forall l0 : log.Log,
            log.newline_ l0 = true ->
            let l := fold_left log.put_row rows l0 in
            log.log_ l
            = (log.log_ l0
               ++ String.concat ""
                    (map (fun row =>
                            String.concat (log.delim_ l0) row
                            ++ String "010" "") rows))%string
            /\ log.newline_ l = true /\ log.delim_ l = log.delim_ l0).
  { induction rows as [|row rows IH]; intros l0 H0.
    - cbn. now rewrite append_nil_r.
    - cbn [fold_left]. rewrite put_row_line by assumption.
      destruct (IH (log.mkLog true (log.delim_ l0)
                      (log.log_ l0 ++ String.concat (log.delim_ l0) row
                       ++ String "010" "")%string) eq_refl)
        as (E1 & E2 & E3).
      cbv zeta. rewrite E1, E2, E3.
      cbn [log.log_ log.delim_ map]. repeat split.
      now rewrite concat_empty_cons, !append_assoc. }
  exact (H (log.Log_new delim) eq_refl).
Qed.

(** ** [parse_numeric] *)

Section ParseNumericFacts.
Variable T : Type.
Variable strto : string -> option (T * string).
Variable lt : T -> T -> bool.

(** A value the bounds accept. *)
Local Abbreviation within min max :=
  (fun v : T =>
     match min with Some m => lt v m = false | None => True end
     /\ match max with Some m => lt m v = false | None => True end).

Lemma parse_numeric_loop_bounds (str : string) (min max : option T)
  (fuel : nat) :
  forall (current : string) (result : list T),
  Forall (within min max) result ->
  match ctl.parse_numeric_loop T strto lt fuel str current min max result with
  | Return l => Forall (within min max) l
  | Throw e =>
      (min <> None
       /\ e = runtime_error (str ++ " out of bounds (below minimum)"))
      \/ (max <> None
          /\ e = runtime_error (str ++ " out of bounds (above maximum)"))
  end.
Proof.
  induction fuel as [|fuel IH]; intros current result Hr;
    cbn [ctl.parse_numeric_loop]; [exact Hr|].
  destruct current as [|c current]; [exact Hr|].
  destruct (strto (String c current)) as [[val rest]|]; [|exact Hr].
  destruct min as [mn|].
  - destruct (lt val mn) eqn:E1; [left; split; [discriminate|reflexivity]|].
    destruct max as [mx|].
    + destruct (lt mx val) eqn:E2; [right; split; [discriminate|reflexivity]|].
      apply IH. apply Forall_app. split; [exact Hr|].
      constructor; [split; assumption|constructor].
    + apply IH. apply Forall_app. split; [exact Hr|].
      constructor; [split; [assumption|exact I]|constructor].
  - destruct max as [mx|].
    + destruct (lt mx val) eqn:E2; [right; split; [discriminate|reflexivity]|].
      apply IH. apply Forall_app. split; [exact Hr|].
      constructor; [split; [exact I|assumption]|constructor].
    + apply IH. apply Forall_app. split; [exact Hr|].
      constructor; [split; exact I|constructor].
Qed.

Lemma parse_numeric_bounds (str : string) (min max : option T) :
  match ctl.parse_numeric T strto lt str min max with
  | Return l => Forall (within min max) l
  | Throw e =>
      (min <> None
       /\ e = runtime_error (str ++ " out of bounds (below minimum)"))
      \/ (max <> None
          /\ e = runtime_error (str ++ " out of bounds (above maximum)"))
  end.
Proof. apply parse_numeric_loop_bounds. constructor. Qed.

(** The values already in [result] stay in front. *)
Lemma parse_numeric_loop_result (str : string) (fuel : nat) :
  forall (current : string) (result : list T),
  ctl.parse_numeric_loop T strto lt fuel str current None None result
  = match ctl.parse_numeric_loop T strto lt fuel str current None None [] with
    | Return l => Return (result ++ l)
    | Throw e => Throw e
    end.
Proof.
  induction fuel as [|fuel IH]; intros current result;
    cbn [ctl.parse_numeric_loop]; [now rewrite app_nil_r|].
  destruct current as [|c current]; [now rewrite app_nil_r|].
  destruct (strto (String c current)) as [[val rest]|];
    [|now rewrite app_nil_r].
  rewrite (IH _ (result ++ [val])), (IH _ ([] ++ [val])).
  destruct (ctl.parse_numeric_loop _ _ _ _ _ _ _ _ _); [|reflexivity].
  now rewrite <- app_assoc.
Qed.

(** The text [str] only occurs in the messages of the exceptions. *)
Lemma parse_numeric_loop_text (fuel : nat) :
  forall (s1 s2 current : string) (result : list T),
  ctl.parse_numeric_loop T strto lt fuel s1 current None None result
  = ctl.parse_numeric_loop T strto lt fuel s2 current None None result.
Proof.
  induction fuel as [|fuel IH]; intros s1 s2 current result; [reflexivity|].
  cbn [ctl.parse_numeric_loop]. destruct current as [|c current]; [reflexivity|].
  destruct (strto (String c current)) as [[v r]|]; [apply IH|reflexivity].
Qed.

Hypothesis strto_consumes :
  forall (s : string) (v : T) (rest : string),
  strto s = Some (v, rest) -> (String.length rest < String.length s)%nat.

Lemma skip_separator_length (s : string) :
  (String.length (ctl.skip_separator s) <= String.length s)%nat.
Proof. destruct s; cbn; lia. Qed.

(** The loop never runs out of turns. *)
Lemma parse_numeric_loop_fuel (str : string) (f1 : nat) :
  forall (f2 : nat) (current : string) (result : list T),
  (String.length current <= f1)%nat -> (String.length current <= f2)%nat ->
  ctl.parse_numeric_loop T strto lt f1 str current None None result
  = ctl.parse_numeric_loop T strto lt f2 str current None None result.
Proof.
  induction f1 as [|f1 IH]; intros f2 current result H1 H2.
  - destruct current; [|cbn in H1; lia]. now destruct f2.
  - destruct f2 as [|f2].
    + destruct current; [|cbn in H2; lia]. reflexivity.
    + cbn [ctl.parse_numeric_loop].
      destruct current as [|c current]; [reflexivity|].
      destruct (strto (String c current)) as [[val rest]|] eqn:E;
        [|reflexivity].
      apply strto_consumes in E.
      pose proof (skip_separator_length rest).
      apply IH; lia.
Qed.

Lemma parse_numeric_step (str : string) (v : T) (rest : string) :
  strto str = Some (v, rest) ->
  ctl.parse_numeric T strto lt str None None
  = match ctl.parse_numeric T strto lt (ctl.skip_separator rest) None None with
    | Return l => Return (v :: l)
    | Throw e => Throw e
    end.
Proof.
  intros E. unfold ctl.parse_numeric.
  pose proof (strto_consumes _ _ _ E) as Hc.
  destruct str as [|c str]; [cbn in Hc; lia|].
  cbn [String.length ctl.parse_numeric_loop]. rewrite E.
  rewrite parse_numeric_loop_result. cbn [app].
  pose proof (skip_separator_length rest).
  rewrite (parse_numeric_loop_fuel _ (String.length str)
             (String.length (ctl.skip_separator rest)))
    by (cbn in Hc; lia).
  now rewrite (parse_numeric_loop_text _ (String c str)
                 (ctl.skip_separator rest)).
Qed.

End ParseNumericFacts.

(** X21: Whatever the conversion, the comparison and the text are:
    [parse_numeric] returns only values the bounds accept ([val < min]
    and [val > max] are both false for each of them); when it throws,
    a bound was given and the exception is a [runtime_error] whose
    message is the whole text followed by the note for that bound.
    With no bound (as the program calls it) it never throws. *)
Theorem parse_numeric_respects_bounds :
  forall (T : Type) (strto : string -> option (T * string))
         (lt : T -> T -> bool) (str : string) (min max : option T),
  match ctl.parse_numeric T strto lt str min max with
  | Return l =>
      forall v : T, In v l ->
      match min with Some m => lt v m = false | None => True end
      /\ match max with Some m => lt m v = false | None => True end
  | Throw e =>
      (min <> None
       /\ e = runtime_error (str ++ " out of bounds (below minimum)"))
      \/ (max <> None
          /\ e = runtime_error (str ++ " out of bounds (above maximum)"))
  end.
Proof.
  intros T strto lt str min max.
  pose proof (parse_numeric_bounds T strto lt str min max) as H.
  destruct (ctl.parse_numeric T strto lt str min max); [|exact H].
  intros v Hv. rewrite Forall_forall in H. exact (H v Hv).
Qed.

(** X22: With no bounds, and a conversion that consumes at least one
    character when it converts (as those of the C library do):
    where no number starts, [parse_numeric] returns the empty list
    without any error; where a number starts, it returns that number
    followed by what it returns on the text after the number and one
    more character -- any character serves as the separator. *)
Theorem parse_numeric_reads_number_then_rest :
  forall (T : Type) (strto : string -> option (T * string))
         (lt : T -> T -> bool) (str : string),
  (forall (s : string) (v : T) (rest : string),
     strto s = Some (v, rest) -> (String.length rest < String.length s)%nat) ->
  ctl.parse_numeric T strto lt str None None
  = match strto str with
    | None => Return []
    | Some (v, rest) =>
      match ctl.parse_numeric T strto lt (ctl.skip_separator rest) None None
      with
      | Return l => Return (v :: l)
      | Throw e => Throw e
      end
    end.
Proof.
  intros T strto lt str Hc.
  destruct (strto str) as [[v rest]|] eqn:E.
  - now apply parse_numeric_step.
  - unfold ctl.parse_numeric. destruct str as [|c str]; [reflexivity|].
    cbn [String.length ctl.parse_numeric_loop]. now rewrite E.
Qed.

Lemma parse_numeric_reads_witness :
  let digit (s : string) : option (nat * string) :=
    match s with
    | String c rest =>
        if (48 <=? nat_of_ascii c)%nat && (nat_of_ascii c <=? 57)%nat
        then Some ((nat_of_ascii c - 48)%nat, rest) else None
    | EmptyString => None
    end in
  ctl.parse_numeric nat digit Nat.ltb "1,2" None None
  = match digit "1,2"%string with
    | None => Return []
    | Some (v, rest) =>
      match ctl.parse_numeric nat digit Nat.ltb (ctl.skip_separator rest)
              None None with
      | Return l => Return (v :: l)
      | Throw e => Throw e
      end
    end.
Proof.
  intros digit.
  apply (parse_numeric_reads_number_then_rest nat digit Nat.ltb "1,2").
  intros s v rest. unfold digit. destruct s as [|c r]; [discriminate|].
  destruct (_ && _); [|discriminate].
  intros [= _ <-]. cbn. lia.
Defined.

(** ** What the solvers return is a root or the fallback *)

Section RootOrFallback.
Local Open Scope R_scope.

Lemma solve_mode_root_or_fallback (f : xreal -> xreal) (a b : R) :
  a <= b ->
  (forall k : nat, (b - a) / 2 ^ S k <> 1 / 10000) ->
  exists x : R,
    solve_mode f (Some a) (Some b) = Some x
    /\ (x = a \/ exists F : R, f (Some x) = Some F /\ Rabs F < 1 / 10000).
Proof.
  intros Hab Hw. unfold solve_mode.
  destruct (status _) eqn:Es;
    try (exists a; split; [reflexivity|now left]).
  rewrite xtol in Es |- *.
  pose proof (bisection_converged_cases f (1 / 10000) default_max_iter a b
                Hab) as H.
  cbv zeta in H. destruct (H Es) as (x & Ex & [HF|Hk]); clear H.
  - exists x. auto.
  - exfalso. exact (Hw _ Hk).
Qed.

(** X23: Each component of [solve_slab] and of [solve_slot_slab] is either
    the fallback (the lower end of the bracket) or a point where the
    residual of its characteristic equation is a number below the
    tolerance 1e-4 in absolute value -- provided the width of the
    bracket is not the tolerance times a power of two (then the loop
    could end on a bracket of exactly that half-width and report its
    midpoint as converged). *)
Theorem solvers_return_root_or_fallback :
  (forall (n1 n2 n3 : R) (lambda W : xreal) (j : Z),
     Rmin n1 n3 <= n2 ->
     (forall k : nat, (n2 - Rmin n1 n3) / 2 ^ S k <> 1 / 10000) ->
     exists te tm : R,
       solve_slab (Some n1) (Some n2) (Some n3) lambda W j
       = (Some te, Some tm)
       /\ (te = Rmin n1 n3
           \/ exists F : R,
                slab_equation TE (Some n1) (Some n2) (Some n3) lambda W j
                              (Some te) = Some F /\ Rabs F < 1 / 10000)
       /\ (tm = Rmin n1 n3
           \/ exists F : R,
                slab_equation TM (Some n1) (Some n2) (Some n3) lambda W j
                              (Some tm) = Some F /\ Rabs F < 1 / 10000))
  /\
  (forall (n_clad n_core n_slot : R) (lambda w_slot w_core : xreal) (j : Z),
     Rmax n_clad n_slot <= n_core ->
     (forall k : nat, (n_core - Rmax n_clad n_slot) / 2 ^ S k <> 1 / 10000) ->
     let a := (w_slot / lit 2)%dbl in
     let b := (a + w_core)%dbl in
     exists ev od : R,
       solve_slot_slab (Some n_clad) (Some n_core) (Some n_slot) lambda
                       w_slot w_core j = (Some ev, Some od)
       /\ (ev = Rmax n_clad n_slot
           \/ exists F : R,
                slot_cosh_equation (Some n_clad) (Some n_core) (Some n_slot)
                  lambda a b j (Some ev) = Some F /\ Rabs F < 1 / 10000)
       /\ (od = Rmax n_clad n_slot
           \/ exists F : R,
                slot_sinh_equation (Some n_clad) (Some n_core) (Some n_slot)
                  lambda a b j (Some od) = Some F /\ Rabs F < 1 / 10000)).
Proof.
  split.
  - intros n1 n2 n3 lambda W j Hle Hw. unfold solve_slab. rewrite xstd_min.
    destruct (solve_mode_root_or_fallback
                (slab_equation TE (Some n1) (Some n2) (Some n3) lambda W j)
                (Rmin n1 n3) n2 Hle Hw) as (te & Ete & Hte).
    destruct (solve_mode_root_or_fallback
                (slab_equation TM (Some n1) (Some n2) (Some n3) lambda W j)
                (Rmin n1 n3) n2 Hle Hw) as (tm & Etm & Htm).
    exists te, tm. rewrite Ete, Etm. auto.
  - intros n_clad n_core n_slot lambda w_slot w_core j Hle Hw a b.
    unfold solve_slot_slab. rewrite xstd_max. fold a. fold b.
    destruct (solve_mode_root_or_fallback
                (slot_cosh_equation (Some n_clad) (Some n_core) (Some n_slot)
                   lambda a b j)
                (Rmax n_clad n_slot) n_core Hle Hw) as (ev & Eev & Hev).
    destruct (solve_mode_root_or_fallback
                (slot_sinh_equation (Some n_clad) (Some n_core) (Some n_slot)
                   lambda a b j)
                (Rmax n_clad n_slot) n_core Hle Hw) as (od & Eod & Hod).
    exists ev, od. rewrite Eev, Eod. auto.
Qed.

End RootOrFallback.

Lemma pow2_not_10000 (w : R) (k : nat) :
  (w = 1 -> w / 2 ^ S k <> 1 / 10000)%R.
Proof.
  intros -> E.
  assert (Hp : (0 < 2 ^ S k)%R) by (apply pow_lt; lra).
  assert (E' : (2 ^ S k = 10000)%R).
  { apply (f_equal (fun t => t * 2 ^ S k * 10000)%R) in E.
    field_simplify in E; lra. }
  destruct (Nat.le_gt_cases (S k) 13) as [Hk|Hk].
  - assert (2 ^ S k <= 2 ^ 13)%R by (apply Rle_pow; [lra|exact Hk]).
    lra.
  - assert (2 ^ 14 <= 2 ^ S k)%R by (apply Rle_pow; [lra|lia]).
    lra.
Qed.

Lemma solvers_return_root_witness :
  exists te tm : R,
    solve_slab (Some 1%R) (Some 2%R) (Some 1%R) (Some 1%R) (Some 1%R) 0
    = (Some te, Some tm)
    /\ (te = Rmin 1 1
        \/ exists F : R,
             slab_equation TE (Some 1%R) (Some 2%R) (Some 1%R) (Some 1%R)
                           (Some 1%R) 0 (Some te) = Some F
             /\ (Rabs F < 1 / 10000)%R)
    /\ (tm = Rmin 1 1
        \/ exists F : R,
             slab_equation TM (Some 1%R) (Some 2%R) (Some 1%R) (Some 1%R)
                           (Some 1%R) 0 (Some tm) = Some F
             /\ (Rabs F < 1 / 10000)%R).
Proof.
  apply (proj1 solvers_return_root_or_fallback 1%R 2%R 1%R (Some 1%R)
           (Some 1%R) 0%Z).
  - unfold Rmin. destruct (Rle_dec 1 1); lra.
  - intros k. apply pow2_not_10000.
    unfold Rmin. destruct (Rle_dec 1 1); lra.
Defined.

(** ** Exchanging the box and the cladding *)

Section Extensional.
Context {D : Type} {AD : Arith D}.
Local Open Scope dbl_scope.

(** [bisection] only uses the values of the function. *)
Lemma bisection_loop_ext (f g : D -> D) (tol : D) :
  (forall x : D, f x = g x) ->
  forall (budget : nat) (v : vars),
  bisection_loop f tol budget v = bisection_loop g tol budget v.
Proof.
  intros E. induction budget as [|k IH]; intros v; [reflexivity|].
  cbn [bisection_loop]. rewrite E.
  destruct (_ && _); [|reflexivity]. cbv zeta.
  destruct (_ <? tol); [reflexivity|].
  destruct (_ <? lit 0); apply IH.
Qed.

Lemma bisection_ext (f g : D -> D) (a b tol : D) (max_iter : Z) :
  (forall x : D, f x = g x) ->
  bisection f a b tol max_iter = bisection g a b tol max_iter.
Proof.
  intros E. unfold bisection. rewrite !E.
  destruct (_ <? _); [reflexivity|].
  rewrite (bisection_loop_ext f g tol E).
  destruct (bisection_loop _ _ _ _); [reflexivity|].
  unfold bisection_finish. now rewrite E.
Qed.

Lemma solve_mode_ext {LD : Libm D} (f g : D -> D) (a b : D) :
  (forall x : D, f x = g x) -> solve_mode f a b = solve_mode g a b.
Proof. intros E. unfold solve_mode. now rewrite (bisection_ext f g). Qed.

End Extensional.

Section Mirror.
Local Open Scope R_scope.

Lemma slab_equation_mirror (mode : Mode) (n1 n2 n3 lambda W : xreal) (j : Z)
  (x : xreal) :
  slab_equation mode n1 n2 n3 lambda W j x
  = slab_equation mode n3 n2 n1 lambda W j x.
Proof.
  unfold slab_equation.
  set (k := (lit 2 * pi * (lit 1 / lambda))%dbl).
  set (g1 := (k * sqrt (pow x 2 - pow n1 2))%dbl).
  set (g2 := (k * sqrt (pow n2 2 - pow x 2))%dbl).
  set (g3 := (k * sqrt (pow x 2 - pow n3 2))%dbl).
  set (c := (of_int (int_add j 1) * pi)%dbl).
  destruct mode.
  - destruct (atan2 g2 g1) as [t1|], (atan2 g2 g3) as [t3|], c as [cv|],
      (g2 * W)%dbl as [l|]; cbn; try reflexivity.
    f_equal. ring.
  - destruct (atan2 (pow n1 2 * g2) (pow n2 2 * g1))%dbl as [t1|],
      (atan2 (pow n3 2 * g2) (pow n2 2 * g3))%dbl as [t3|], c as [cv|],
      (g2 * W)%dbl as [l|]; cbn; try reflexivity.
    f_equal. ring.
Qed.

(** X24: Exchanging the box and the cladding indices does not change what
    [solve_slab] returns, for either polarisation: the residual is the
    same function and the bracket is the same. *)
Theorem solve_slab_mirror_symmetric :
  forall (n1 n3 : R) (n2 lambda W : xreal) (j : Z),
  solve_slab (Some n1) n2 (Some n3) lambda W j
  = solve_slab (Some n3) n2 (Some n1) lambda W j.
Proof.
  intros n1 n3 n2 lambda W j. unfold solve_slab.
  rewrite !xstd_min, (Rmin_comm n3 n1).
  f_equal; apply solve_mode_ext; intros x; apply slab_equation_mirror.
Qed.

End Mirror.

(** ** The normal component of the mode profile *)

Section NormalComponent.
Local Open Scope R_scope.

Lemma xeps0 : exists e : R, eps0 (D := xreal) = Some e /\ 0 < e.
Proof.
  eexists. split; [reflexivity|].
  unfold Q2R. cbn [Qnum Qden].
  apply Rmult_lt_0_compat; [apply IZR_lt; lia|].
  apply Rinv_0_lt_compat, IZR_lt. lia.
Qed.

Lemma xmu0 : exists m : R, mu0 (D := xreal) = Some m /\ 0 < m.
Proof.
  eexists. split; [reflexivity|].
  assert (H4 : 0 < Q2R 4)
    by (unfold Q2R; cbn [Qnum Qden]; rewrite Rinv_1; lra).
  assert (H7 : 0 < Q2R (1 # 10000000)).
  { unfold Q2R. cbn [Qnum Qden]. apply Rmult_lt_0_compat; [lra|].
    apply Rinv_0_lt_compat, IZR_lt. lia. }
  pose proof PI_RGT_0.
  apply Rmult_lt_0_compat; [apply Rmult_lt_0_compat|]; assumption.
Qed.

Lemma xc : exists cv : R, c (D := xreal) = Some cv /\ 0 < cv.
Proof.
  destruct xeps0 as (e & Ee & He), xmu0 as (m & Em & Hm).
  unfold c. rewrite Ee, Em. cbn [mul xreal_Arith xlift2].
  assert (Hs : 0 < R_sqrt.sqrt (e * m))
    by (apply sqrt_lt_R0, Rmult_lt_0_compat; assumption).
  rewrite xsqrt_some by (apply Rlt_le, Rmult_lt_0_compat; assumption).
  rewrite xlit_1, xdiv_some by lra.
  eexists. split; [reflexivity|]. apply Rdiv_lt_0_compat; lra.
Qed.

(** [j * 2.*pi*c/lambda] has equal real and imaginary parts. *)
Lemma xjomega (lambda : R) :
  0 < lambda ->
  exists w : R, jomega (Some lambda) = mkField (Some w) (Some w) /\ 0 < w.
Proof.
  intros Hl. destruct xc as (cv & Ec & Hc).
  unfold jomega, cdivd, cmuld, pi. cbn [re im]. rewrite Ec.
  cbn [mul xreal_Arith xlift2 M_PI xreal_Libm lit].
  rewrite xdiv_some by lra.
  eexists. split; [reflexivity|].
  rewrite Q2R_1, Q2R_2. pose proof PI_RGT_0.
  apply Rdiv_lt_0_compat; [|assumption].
  assert (0 < PI * cv) by (apply Rmult_lt_0_compat; assumption).
  lra.
Qed.

(** The two denominators of [Bn]. *)
Lemma denominator_TE (lambda : R) :
  0 < lambda ->
  exists q : R,
    cmuld (jomega (Some lambda)) mu0 = mkField (Some q) (Some q) /\ q <> 0.
Proof.
  intros Hl. destruct (xjomega lambda Hl) as (w & Ew & Hw).
  destruct xmu0 as (m & Em & Hm). rewrite Ew, Em.
  exists (w * m). split; [reflexivity|]. nra.
Qed.

Lemma denominator_TM (lambda n : R) :
  0 < lambda -> n <> 0 ->
  exists q : R,
    cmuld (cmuld (jomega (Some lambda)) eps0) (pow (Some n) 2)
    = mkField (Some q) (Some q) /\ q <> 0.
Proof.
  intros Hl Hn. destruct (xjomega lambda Hl) as (w & Ew & Hw).
  destruct xeps0 as (e & Ee & He). rewrite Ew, Ee.
  exists (w * e * n ^ 2). split; [reflexivity|].
  assert (0 < n ^ 2) by nra. 
  assert (0 < w * e) by nra. nra.
Qed.

(** A real numerator over such a denominator. *)
Lemma cdiv_real_by_diagonal (r z q : R) :
  z = 0 -> q <> 0 ->
  exists rho : R,
    cdiv (mkField (Some r) (Some z)) (mkField (Some q) (Some q))
    = mkField (Some rho) (Some (- rho)).
Proof.
  intros -> Hq. unfold cdiv. cbn [re im mul add sub xreal_Arith xlift2].
  assert (q * q + q * q <> 0) by nra.
  rewrite !xdiv_some by assumption.
  exists ((r * q + 0 * q) / (q * q + q * q)). f_equal. f_equal. field.
  assumption.
Qed.

Lemma dmulc_of_real (g a : R) :
  exists z : R,
    dmulc (Some g) (of_real (Some a)) = mkField (Some (g * a)) (Some z)
    /\ z = 0.
Proof.
  unfold dmulc, of_real. cbn [re im]. rewrite xlit_0.
  eexists. split; [reflexivity|]. ring.
Qed.

Lemma of_real_some (a : R) :
  exists z : R, of_real (Some a) = mkField (Some a) (Some z) /\ z = 0.
Proof.
  unfold of_real. rewrite xlit_0. eexists. split; reflexivity.
Qed.

End NormalComponent.

Section NormalComponentTheorem.
Local Open Scope R_scope.

Lemma Bn_from_dmulc (g a : R) (w : field_t xreal) :
  (exists q : R, w = mkField (Some q) (Some q) /\ q <> 0) ->
  exists rho : R,
    cdiv (dmulc (Some g) (of_real (Some a))) w
    = mkField (Some rho) (Some (- rho)).
Proof.
  intros (q & -> & Hq).
  destruct (dmulc_of_real g a) as (z & -> & Hz).
  now apply cdiv_real_by_diagonal.
Qed.

Lemma Bn_from_ddivc (a : R) (w : field_t xreal) :
  (exists q : R, w = mkField (Some q) (Some q) /\ q <> 0) ->
  exists rho : R, ddivc (Some a) w = mkField (Some rho) (Some (- rho)).
Proof.
  intros (q & -> & Hq). unfold ddivc.
  destruct (of_real_some a) as (z & -> & Hz).
  now apply cdiv_real_by_diagonal.
Qed.

End NormalComponentTheorem.

(** Rewrites the expression assigned to [Bn[i]], given its denominator. *)
Ltac bn_case D :=
  let rho := fresh "rho" in
  let E := fresh "E" in
  match goal with
  | |- context [cdiv (dmulc (Some ?g) (of_real (Some ?a))) ?w] =>
      destruct (Bn_from_dmulc g a w D) as (rho & E); rewrite E
  | |- context [ddivc (Some ?a) ?w] =>
      destruct (Bn_from_ddivc a w D) as (rho & E); rewrite E
  end;
  do 3 eexists; exists rho; split; reflexivity.

Section NormalComponentOpposite.
Local Open Scope R_scope.

(** X25: For a [neff] in the band and a sample that is a number, the normal
    component [Bn] that [calculate_field] stores has a real part and an
    imaginary part that are opposite numbers, in the three regions and
    for both polarisations: the constant [j] the amplitude is divided by
    is [(1.0, 1.0)]. *)
Theorem normal_component_parts_are_opposite :
  forall (mode : Mode) (neff n1 n2 n3 lambda W : R) (j : Z) (x : R),
  0 < lambda -> 0 < n1 -> 0 < n3 -> Rmax n1 n3 < neff < n2 ->
  exists (Ai Bli Bni : field_t xreal) (rho : R),
    field_at mode (Some neff) (Some n1) (Some n2) (Some n3) (Some lambda)
             (Some W) j (Some x) = Some (Ai, Bli, Bni)
    /\ Bni = mkField (Some rho) (Some (- rho)).
Proof.
  intros m neff n1 n2 n3 lambda W j x Hl H1 H3 Hb.
  destruct (Rmax_lt_l n1 n3 neff (proj1 Hb)) as (Hn1 & Hn3).
  assert (S1 : n1 ^ 2 <= neff ^ 2) by nra.
  assert (S2 : neff ^ 2 <= n2 ^ 2) by nra.
  assert (S3 : n3 ^ 2 <= neff ^ 2) by nra.
  assert (Hl' : lambda <> 0) by lra.
  assert (H1' : n1 <> 0) by lra.
  assert (H3' : n3 <> 0) by lra.
  assert (H2' : n2 <> 0) by lra.
  pose proof (denominator_TE lambda Hl) as DTE.
  pose proof (denominator_TM lambda n1 Hl H1') as DTM1.
  pose proof (denominator_TM lambda n2 Hl H2') as DTM2.
  pose proof (denominator_TM lambda n3 Hl H3') as DTM3.
  unfold field_at. rewrite xlit_0.
  destruct (Rlt_dec x 0) as [Hx|Hx].
  - rewrite xltb_true by assumption.
    rewrite xgamma1, xA_box by assumption.
    cbn [neg xreal_Arith xlift1].
    destruct m; [bn_case DTE|bn_case DTM1].
  - rewrite xltb_false by lra. rewrite (xleb_true 0 x) by lra.
    destruct (Rle_dec x W) as [Hw|Hw].
    + rewrite xleb_true by assumption. cbn [andb].
      rewrite xgamma2, xalpha by assumption.
      unfold C2. rewrite xlit_1.
      cbn [mul add neg sin xreal_Arith xreal_Libm xlift1 xlift2].
      destruct m; [bn_case DTE|bn_case DTM2].
    + rewrite xleb_false by lra. cbn [andb]. rewrite xltb_true by lra.
      rewrite xgamma3, xA_clad by assumption.
      destruct m; [bn_case DTE|bn_case DTM3].
Qed.

End NormalComponentOpposite.

Lemma normal_component_witness :
  exists (Ai Bli Bni : field_t xreal) (rho : R),
    field_at TE (Some (3 / 2)%R) (Some 1%R) (Some 2%R) (Some 1%R) (Some 1%R)
             (Some 1%R) 0 (Some (1 / 2)%R) = Some (Ai, Bli, Bni)
    /\ Bni = mkField (Some rho) (Some (- rho)%R).
Proof.
  apply (normal_component_parts_are_opposite TE (3 / 2) 1 2 1 1 1 0 (1 / 2));
    try lra.
  unfold Rmax. destruct (Rle_dec 1 1); lra.
Defined.

(** ** The shape of the residual on the band *)

Section ResidualShape.
Local Open Scope R_scope.

Lemma k0_pos (lambda : R) : 0 < lambda -> 0 < Real.k0 lambda.
Proof.
  intros Hl. unfold Real.k0. apply Rdiv_lt_0_compat; [|assumption].
  pose proof PI_RGT_0. lra.
Qed.

Lemma osc_pos (lambda n neff : R) :
  0 < lambda -> 0 <= neff -> neff < n -> 0 < Real.osc lambda n neff.
Proof.
  intros Hl Hn H. unfold Real.osc.
  apply Rmult_lt_0_compat; [now apply k0_pos|].
  apply sqrt_lt_R0. nra.
Qed.

Lemma decay_lt (lambda n x y : R) :
  0 < lambda -> 0 <= n -> n < x -> x < y ->
  Real.decay lambda n x < Real.decay lambda n y.
Proof.
  intros Hl Hn Hx Hxy. unfold Real.decay.
  apply Rmult_lt_compat_l; [now apply k0_pos|].
  apply sqrt_lt_1_alt. nra.
Qed.

Lemma osc_gt (lambda n x y : R) :
  0 < lambda -> 0 <= x -> x < y -> y < n ->
  Real.osc lambda n y < Real.osc lambda n x.
Proof.
  intros Hl Hx Hxy Hy. unfold Real.osc.
  apply Rmult_lt_compat_l; [now apply k0_pos|].
  apply sqrt_lt_1_alt. nra.
Qed.

Lemma ratio_lt (a a' b b' : R) :
  0 < a' -> a' < a -> 0 < b -> b < b' -> a' / b' < a / b.
Proof.
  intros Ha' Ha Hb Hb'.
  apply Rmult_lt_reg_r with (b * b'); [apply Rmult_lt_0_compat; lra|].
  replace (a' / b' * (b * b')) with (a' * b) by (field; lra).
  replace (a / b * (b * b')) with (a * b') by (field; lra).
  apply Rle_lt_trans with (a' * b'); [apply Rmult_le_compat_l; lra|].
  apply Rmult_lt_compat_r; lra.
Qed.

Lemma ratio_le_scaled (a b s t : R) :
  0 <= a -> 0 < b -> 0 <= s -> s <= t -> 0 < t -> (s * a) / (t * b) <= a / b.
Proof.
  intros Ha Hb Hs Hst Ht.
  assert (Htb : 0 < t * b) by (apply Rmult_lt_0_compat; assumption).
  assert (Hab : 0 <= a * b) by (apply Rmult_le_pos; lra).
  apply Rmult_le_reg_r with (t * b * b);
    [apply Rmult_lt_0_compat; assumption|].
  replace (s * a / (t * b) * (t * b * b)) with (s * (a * b)) by (field; lra).
  replace (a / b * (t * b * b)) with (t * (a * b)) by (field; lra).
  apply Rmult_le_compat_r; assumption.
Qed.

(** X26: On the band the residual of either polarisation is strictly
    increasing in the effective index (for a thickness [W >= 0]): the
    characteristic equation of an order has at most one root there. *)
Theorem slab_residual_increases_on_band :
  forall (mode : Mode) (n1 n2 n3 lambda W : R) (j : Z) (x y : R),
  0 < lambda -> 0 <= W -> 0 < n1 -> 0 < n3 ->
  Rmax n1 n3 < x -> x < y -> y < n2 ->
  exists fx fy : R,
    slab_equation mode (Some n1) (Some n2) (Some n3) (Some lambda) (Some W) j
                  (Some x) = Some fx
    /\ slab_equation mode (Some n1) (Some n2) (Some n3) (Some lambda) (Some W)
                     j (Some y) = Some fy
    /\ fx < fy.
Proof.
  intros m n1 n2 n3 lambda W j x y Hl HW H1 H3 Hx Hxy Hy.
  destruct (Rmax_lt_l n1 n3 x Hx) as (Hx1 & Hx3).
  rewrite !slab_equation_real_wrap by nra.
  do 2 eexists. split; [reflexivity|]. split; [reflexivity|].
  unfold Real.slab_residual.
  pose proof (osc_pos lambda n2 y Hl ltac:(lra) Hy) as Oy.
  pose proof (osc_gt lambda n2 x y Hl ltac:(lra) Hxy Hy) as Oxy.
  pose proof (decay_pos lambda n1 x Hl ltac:(lra) Hx1) as D1x.
  pose proof (decay_pos lambda n3 x Hl ltac:(lra) Hx3) as D3x.
  pose proof (decay_lt lambda n1 x y Hl ltac:(lra) Hx1 Hxy) as D1xy.
  pose proof (decay_lt lambda n3 x y Hl ltac:(lra) Hx3 Hxy) as D3xy.
  set (ox := Real.osc lambda n2 x) in *.
  set (oy := Real.osc lambda n2 y) in *.
  set (d1x := Real.decay lambda n1 x) in *.
  set (d1y := Real.decay lambda n1 y) in *.
  set (d3x := Real.decay lambda n3 x) in *.
  set (d3y := Real.decay lambda n3 y) in *.
  assert (P1 : 0 < n1 ^ 2) by nra.
  assert (P2 : 0 < n2 ^ 2) by nra.
  assert (P3 : 0 < n3 ^ 2) by nra.
  assert (HWo : oy * W <= ox * W) by nra.
  destruct m.
  - rewrite !Ratan2_pos_r by lra.
    assert (atan (oy / d1y) < atan (ox / d1x))
      by (apply atan_increasing, ratio_lt; lra).
    assert (atan (oy / d3y) < atan (ox / d3x))
      by (apply atan_increasing, ratio_lt; lra).
    lra.
  - rewrite !Ratan2_pos_r by (apply Rmult_lt_0_compat; lra).
    assert (atan (n1 ^ 2 * oy / (n2 ^ 2 * d1y))
            < atan (n1 ^ 2 * ox / (n2 ^ 2 * d1x))).
    { apply atan_increasing, ratio_lt.
      - apply Rmult_lt_0_compat; lra.
      - apply Rmult_lt_compat_l; lra.
      - apply Rmult_lt_0_compat; lra.
      - apply Rmult_lt_compat_l; lra. }
    assert (atan (n3 ^ 2 * oy / (n2 ^ 2 * d3y))
            < atan (n3 ^ 2 * ox / (n2 ^ 2 * d3x))).
    { apply atan_increasing, ratio_lt.
      - apply Rmult_lt_0_compat; lra.
      - apply Rmult_lt_compat_l; lra.
      - apply Rmult_lt_0_compat; lra.
      - apply Rmult_lt_compat_l; lra. }
    lra.
Qed.

(** X27: On the band the TM residual is never below the TE residual (the
    outer indices are below the core index), so a TM root cannot lie
    above the TE root of the same order. *)
Theorem slab_residual_TM_not_below_TE :
  forall (n1 n2 n3 lambda W : R) (j : Z) (x : R),
  0 < lambda -> 0 < n1 -> 0 < n3 -> Rmax n1 n3 < x < n2 ->
  exists fte ftm : R,
    slab_equation TE (Some n1) (Some n2) (Some n3) (Some lambda) (Some W) j
                  (Some x) = Some fte
    /\ slab_equation TM (Some n1) (Some n2) (Some n3) (Some lambda) (Some W)
                     j (Some x) = Some ftm
    /\ fte <= ftm.
Proof.
  intros n1 n2 n3 lambda W j x Hl H1 H3 (Hx & Hy).
  destruct (Rmax_lt_l n1 n3 x Hx) as (Hx1 & Hx3).
  rewrite !slab_equation_real_wrap by nra.
  do 2 eexists. split; [reflexivity|]. split; [reflexivity|].
  unfold Real.slab_residual.
  pose proof (osc_pos lambda n2 x Hl ltac:(lra) Hy) as Ox.
  pose proof (decay_pos lambda n1 x Hl ltac:(lra) Hx1) as D1x.
  pose proof (decay_pos lambda n3 x Hl ltac:(lra) Hx3) as D3x.
  set (ox := Real.osc lambda n2 x) in *.
  set (d1 := Real.decay lambda n1 x) in *.
  set (d3 := Real.decay lambda n3 x) in *.
  assert (P2 : 0 < n2 ^ 2) by nra.
  rewrite (Ratan2_pos_r ox d1), (Ratan2_pos_r ox d3) by lra.
  rewrite !Ratan2_pos_r by (apply Rmult_lt_0_compat; lra).
  assert (atan (n1 ^ 2 * ox / (n2 ^ 2 * d1)) <= atan (ox / d1))
    by (apply atan_le, ratio_le_scaled; nra).
  assert (atan (n3 ^ 2 * ox / (n2 ^ 2 * d3)) <= atan (ox / d3))
    by (apply atan_le, ratio_le_scaled; nra).
  lra.
Qed.

End ResidualShape.

Lemma slab_residual_increases_witness :
  exists fx fy : R,
    slab_equation TE (Some 1%R) (Some 2%R) (Some 1%R) (Some 1%R) (Some 1%R) 0
                  (Some (5 / 4)%R) = Some fx
    /\ slab_equation TE (Some 1%R) (Some 2%R) (Some 1%R) (Some 1%R)
                     (Some 1%R) 0 (Some (3 / 2)%R) = Some fy
    /\ (fx < fy)%R.
Proof.
  apply (slab_residual_increases_on_band TE 1 2 1 1 1 0 (5 / 4) (3 / 2));
    try lra.
  unfold Rmax. destruct (Rle_dec 1 1); lra.
Defined.

Lemma slab_residual_TM_TE_witness :
  exists fte ftm : R,
    slab_equation TE (Some 1%R) (Some 2%R) (Some 1%R) (Some 1%R) (Some 1%R) 0
                  (Some (3 / 2)%R) = Some fte
    /\ slab_equation TM (Some 1%R) (Some 2%R) (Some 1%R) (Some 1%R)
                     (Some 1%R) 0 (Some (3 / 2)%R) = Some ftm
    /\ (fte <= ftm)%R.
Proof.
  apply (slab_residual_TM_not_below_TE 1 2 1 1 1 0 (3 / 2)); try lra.
  split; [unfold Rmax; destruct (Rle_dec 1 1); lra|lra].
Defined.

(** ** The region of a sample *)

Section Regions.
Local Open Scope R_scope.

Lemma field_at_region (mode : Mode) (neff n1 n2 n3 lambda : xreal) (W x : R)
  (j : Z) :
  exists Bli Bni : field_t xreal,
    field_at mode neff n1 n2 n3 lambda (Some W) j (Some x)
    = Some (of_real
              (if Rlt_dec x 0 then A_box mode neff n1 n2 lambda j (Some x)
               else if Rle_dec x W then A_core mode neff n1 n2 lambda j (Some x)
               else A_clad mode neff n1 n2 n3 lambda (Some W) j (Some x)),
            Bli, Bni).
Proof.
  unfold field_at. rewrite xlit_0.
  destruct (Rlt_dec x 0) as [H|H].
  - rewrite xltb_true by assumption. do 2 eexists. reflexivity.
  - rewrite xltb_false by lra. rewrite (xleb_true 0 x) by lra.
    destruct (Rle_dec x W) as [H'|H'].
    + rewrite xleb_true by assumption. do 2 eexists. reflexivity.
    + rewrite xleb_false by lra. cbn [andb].
      rewrite xltb_true by lra. do 2 eexists. reflexivity.
Qed.

(** X28: For a thickness and a sample that are numbers, [mode_1D] stores in
    [A[i]] the amplitude of exactly one region, with an imaginary part
    of zero: the box expression for [x[i] < 0], the core expression for
    [0 <= x[i] <= W] (both boundaries belong to the core), the cladding
    expression for [x[i] > W]. *)
Theorem mode_1D_stores_amplitude_of_region :
  forall (mode : Mode) (neff n1 n2 n3 lambda : xreal) (W : R) (j : Z)
         (x : list xreal) (o : fields) (i : nat) (d : field_t xreal) (xi : R),
  (i < length x)%nat -> (i < length (A o))%nat -> (i < length (Bl o))%nat ->
  nth i x (lit 0) = Some xi ->
  nth i (A (mode_1D mode x o neff n1 n2 n3 lambda (Some W) j)) d
  = of_real
      (if Rlt_dec xi 0 then A_box mode neff n1 n2 lambda j (Some xi)
       else if Rle_dec xi W then A_core mode neff n1 n2 lambda j (Some xi)
       else A_clad mode neff n1 n2 n3 lambda (Some W) j (Some xi)).
Proof.
  intros m neff n1 n2 n3 lambda W j x o i d xi Hi HA HBl Exi.
  destruct (field_at_region m neff n1 n2 n3 lambda W xi j) as (Bli & Bni & E).
  apply (mode_1D_A_entry m x o neff n1 n2 n3 lambda (Some W) j i d _ Bli Bni);
    try assumption.
  now rewrite Exi.
Qed.

End Regions.

Lemma mode_1D_region_witness :
  let z : field_t xreal := mkField (Some 0%R) (Some 0%R) in
  nth 0 (A (mode_1D TE [Some 1%R] (mkFields [z] [z] [z]) (Some (3 / 2)%R)
              (Some 1%R) (Some 2%R) (Some 1%R) (Some 1%R) (Some 1%R) 0)) z
  = of_real
      (if Rlt_dec 1 0
       then A_box TE (Some (3 / 2)%R) (Some 1%R) (Some 2%R) (Some 1%R) 0
                  (Some 1%R)
       else if Rle_dec 1 1
            then A_core TE (Some (3 / 2)%R) (Some 1%R) (Some 2%R) (Some 1%R) 0
                        (Some 1%R)
            else A_clad TE (Some (3 / 2)%R) (Some 1%R) (Some 2%R) (Some 1%R)
                        (Some 1%R) (Some 1%R) 0 (Some 1%R)).
Proof.
  intros z.
  apply (mode_1D_stores_amplitude_of_region TE (Some (3 / 2)%R) (Some 1%R)
           (Some 2%R) (Some 1%R) (Some 1%R) 1 0 [Some 1%R]
           (mkFields [z] [z] [z]) 0 z 1); cbn; try lia; reflexivity.
Defined.

(** ** The fallback after a rejected range *)

Section NumbersOnly.
Local Open Scope R_scope.

(** A product that compares above zero has two numbers as factors. *)
Lemma xsign_numbers (x y : xreal) :
  (x * y >? lit 0)%dbl = true -> exists a b : R, x = Some a /\ y = Some b.
Proof.
  destruct x as [a|], y as [b|]; try discriminate.
  intros _. now exists a, b.
Qed.

Lemma xlift2_nan_r (op : R -> R -> R) (x : xreal) : xlift2 op x None = None.
Proof. now destruct x. Qed.

Ltac nan_out :=
  cbn [neg sub add mul atan2 sqrt pow xreal_Arith xreal_Libm xlift1 xsqrt];
  repeat (rewrite !xlift2_nan_r; cbn [xlift1 xlift2 xsqrt]);
  try discriminate.

(** The residual of the slab is a number only when the two outer indices
    are. *)
Lemma slab_equation_numbers (mode : Mode) (n1 n2 n3 lambda W : xreal) (j : Z)
  (x : xreal) (v : R) :
  slab_equation mode n1 n2 n3 lambda W j x = Some v ->
  exists a b : R, n1 = Some a /\ n3 = Some b.
Proof.
  destruct n1 as [a|], n3 as [b|]; [now exists a, b| | |];
    intros E; exfalso; revert E; unfold slab_equation;
    destruct mode; nan_out.
Qed.

Lemma slot_cosh_equation_numbers (n_clad n_core n_slot lambda a b : xreal)
  (j : Z) (x : xreal) (v : R) :
  slot_cosh_equation n_clad n_core n_slot lambda a b j x = Some v ->
  exists c s : R, n_clad = Some c /\ n_slot = Some s.
Proof.
  destruct n_clad as [c|], n_slot as [s|]; [now exists c, s| | |];
    intros E; exfalso; revert E; unfold slot_cosh_equation; nan_out.
Qed.

Lemma slot_sinh_equation_numbers (n_clad n_core n_slot lambda a b : xreal)
  (j : Z) (x : xreal) (v : R) :
  slot_sinh_equation n_clad n_core n_slot lambda a b j x = Some v ->
  exists c s : R, n_clad = Some c /\ n_slot = Some s.
Proof.
  destruct n_clad as [c|], n_slot as [s|]; [now exists c, s| | |];
    intros E; exfalso; revert E; unfold slot_sinh_equation; nan_out.
Qed.

End NumbersOnly.

Section SlotEnds.
Local Open Scope R_scope.

Lemma sinh_pos (x : R) : 0 < x -> 0 < sinh x.
Proof.
  intros Hx. unfold sinh.
  assert (Rtrigo_def.exp (- x) < Rtrigo_def.exp x) by (apply exp_increasing; lra).
  lra.
Qed.

Lemma tanh_pos (x : R) : 0 < x -> 0 < Rtrigo_def.tanh x.
Proof.
  intros Hx. unfold Rtrigo_def.tanh.
  apply Rdiv_lt_0_compat; [now apply sinh_pos|apply cosh_pos].
Qed.

Lemma coth_pos (x : R) : 0 < x -> 0 < Real.coth x.
Proof. intros Hx. unfold Real.coth. now apply Rinv_0_lt_compat, tanh_pos. Qed.

Lemma osc_at_core (lambda n : R) : Real.osc lambda n n = 0.
Proof.
  unfold Real.osc. replace (n ^ 2 - n ^ 2) with 0 by ring.
  now rewrite sqrt_0, Rmult_0_r.
Qed.

Lemma decay_at_index (lambda n : R) : Real.decay lambda n n = 0.
Proof.
  unfold Real.decay. replace (n ^ 2 - n ^ 2) with 0 by ring.
  now rewrite sqrt_0, Rmult_0_r.
Qed.

(** The residual of the slot at the upper end of the bracket, the core
    index: [kappa] is zero and both arc tangents are [pi / 2]. *)
Lemma slot_residual_upper_end (th : R -> R)
  (n_clad n_core n_slot lambda w_slot w_core : R) (j : Z) :
  0 < lambda -> 0 <= n_clad < n_core -> 0 <= n_slot < n_core ->
  0 < th (Real.decay lambda n_slot n_core * (w_slot / 2)) ->
  Real.slot_residual th n_clad n_core n_slot lambda w_slot w_core j n_core
  = - ((IZR j + 1) * PI).
Proof.
  intros Hl Hc Hs Ht. unfold Real.slot_residual.
  rewrite osc_at_core, !Rmult_0_r, Rmult_0_l.
  pose proof (decay_pos lambda n_clad n_core Hl (proj1 Hc) (proj2 Hc)) as Dc.
  pose proof (decay_pos lambda n_slot n_core Hl (proj1 Hs) (proj2 Hs)) as Ds.
  assert (0 < n_core ^ 2) by nra.
  rewrite !Ratan2_pos_0; [lra|..].
  - apply Rmult_lt_0_compat; [|assumption].
    apply Rmult_lt_0_compat; assumption.
  - apply Rmult_lt_0_compat; assumption.
Qed.

(** At the lower end, when it is the cladding index: the first arc tangent
    is zero and the second is not negative. *)
Lemma slot_residual_lower_end (th : R -> R)
  (n_clad n_core n_slot lambda w_slot w_core : R) (j : Z) :
  0 < lambda -> 0 < n_clad < n_core -> 0 <= n_slot <= n_clad ->
  0 <= th (Real.decay lambda n_slot n_clad * (w_slot / 2)) ->
  Real.slot_residual th n_clad n_core n_slot lambda w_slot w_core j n_clad
  <= Real.osc lambda n_core n_clad * w_core - IZR j * PI.
Proof.
  intros Hl Hc Hs Ht. unfold Real.slot_residual.
  rewrite decay_at_index, Rmult_0_r.
  assert (Ho : 0 < Real.osc lambda n_core n_clad)
    by (apply osc_pos; lra).
  assert (Hd : 0 <= Real.decay lambda n_slot n_clad).
  { unfold Real.decay. apply Rmult_le_pos; [left; now apply k0_pos|].
    apply sqrt_pos. }
  rewrite Ratan2_0_pos by (apply Rmult_lt_0_compat; nra).
  assert (H2 : 0 <= Ratan2 (n_core ^ 2 * Real.decay lambda n_slot n_clad
                            * th (Real.decay lambda n_slot n_clad * (w_slot / 2)))
                           (n_slot ^ 2 * Real.osc lambda n_core n_clad)).
  { apply Ratan2_nonneg.
    - apply Rmult_le_pos; [|assumption]. apply Rmult_le_pos; [nra|assumption].
    - apply Rmult_le_pos; [nra|lra]. }
  lra.
Qed.

End SlotEnds.

Section Claim4.
Local Open Scope R_scope.

(** A slot that guides no mode of order 1: [n_clad = 1.5], [n_core = 2],
    [n_slot = 1], [lambda = 1], [w_slot = 1], [w_core = 0.25].  Both
    residuals are negative at both ends of the bracket [[1.5, 2]]. *)
Lemma slot_sign_order_1 (even : bool) :
  let a : xreal := (Some 1 / lit 2)%dbl in
  let b : xreal := (a + Some (1 / 4)%R)%dbl in
  let f := if even
           then slot_cosh_equation (Some (3 / 2)) (Some 2) (Some 1) (Some 1)
                  a b 1
           else slot_sinh_equation (Some (3 / 2)) (Some 2) (Some 1) (Some 1)
                  a b 1 in
  (f (Some (3 / 2)%R) * f (Some 2) >? lit 0)%dbl = true.
Proof.
  intros a b f. subst f a b.
  pose proof PI_RGT_0 as Hpi.
  assert (Hd : forall x, 1 < x -> 0 < Real.decay 1 1 x * (1 / 2)).
  { intros x Hx. apply Rmult_lt_0_compat; [|lra]. apply decay_pos; lra. }
  assert (Ho : Real.osc 1 2 (3 / 2) * (1 / 4) < PI).
  { unfold Real.osc, Real.k0.
    assert (R_sqrt.sqrt (2 ^ 2 - (3 / 2) ^ 2) < 2)
      by (apply sqrt_upper; lra).
    nra. }
  destruct even.
  - rewrite !slot_cosh_equation_spec.
    rewrite !spec_slot_residual_tanh_real by lra.
    rewrite slot_residual_upper_end
      by (try lra; apply tanh_pos, Hd; lra).
    pose proof (slot_residual_lower_end Rtrigo_def.tanh (3 / 2) 2 1 1 1 (1 / 4) 1
                  ltac:(lra) ltac:(lra) ltac:(lra)
                  (Rlt_le _ _ (tanh_pos _ (Hd (3 / 2) ltac:(lra))))) as Hlo.
    cbn [mul xreal_Arith xlift2]. rewrite xlit_0. apply xltb_true.
    cbn [IZR] in *.
    match goal with |- 0 < ?r * _ => assert (r < 0) by lra end.
    nra.
  - rewrite !slot_sinh_equation_spec.
    rewrite !spec_slot_residual_coth_real by lra.
    rewrite slot_residual_upper_end
      by (try lra; apply coth_pos, Hd; lra).
    pose proof (slot_residual_lower_end Real.coth (3 / 2) 2 1 1 1 (1 / 4) 1
                  ltac:(lra) ltac:(lra) ltac:(lra)
                  (Rlt_le _ _ (coth_pos _ (Hd (3 / 2) ltac:(lra))))) as Hlo.
    cbn [mul xreal_Arith xlift2]. rewrite xlit_0. apply xltb_true.
    cbn [IZR] in *.
    match goal with |- 0 < ?r * _ => assert (r < 0) by lra end.
    nra.
Qed.

(** At the lower end, when it is the slot index: the second arc tangent
    is zero, whatever [th] is, and the first is not negative. *)
Lemma slot_residual_slot_end (th : R -> R)
  (n_clad n_core n_slot lambda w_slot w_core : R) (j : Z) :
  0 < lambda -> 0 <= n_clad <= n_slot -> 0 < n_slot < n_core ->
  Real.slot_residual th n_clad n_core n_slot lambda w_slot w_core j n_slot
  <= Real.osc lambda n_core n_slot * w_core - IZR j * PI.
Proof.
  intros Hl Hc Hs. unfold Real.slot_residual.
  rewrite decay_at_index, Rmult_0_r, !Rmult_0_l.
  assert (Ho : 0 < Real.osc lambda n_core n_slot)
    by (apply osc_pos; lra).
  assert (Hd : 0 <= Real.decay lambda n_clad n_slot).
  { unfold Real.decay. apply Rmult_le_pos; [left; now apply k0_pos|].
    apply sqrt_pos. }
  rewrite Ratan2_0_pos by (apply Rmult_lt_0_compat; nra).
  assert (H1 : 0 <= Ratan2 (n_core ^ 2 * Real.decay lambda n_clad n_slot)
                           (n_clad ^ 2 * Real.osc lambda n_core n_slot)).
  { apply Ratan2_nonneg; apply Rmult_le_pos; nra. }
  lra.
Qed.

(** The same slot with the two outer indices exchanged ([n_clad = 1],
    [n_slot = 1.5]): the even residual is negative at both ends of the
    bracket [[1.5, 2]]. *)
Lemma slot_sign_order_1_even :
  let a : xreal := (Some 1 / lit 2)%dbl in
  let b : xreal := (a + Some (1 / 4)%R)%dbl in
  let f := slot_cosh_equation (Some 1) (Some 2) (Some (3 / 2)%R) (Some 1)
             a b 1 in
  (f (Some (3 / 2)%R) * f (Some 2) >? lit 0)%dbl = true.
Proof.
  intros a b f. subst f a b.
  pose proof PI_RGT_0 as Hpi.
  assert (Ho : Real.osc 1 2 (3 / 2) * (1 / 4) < PI).
  { unfold Real.osc, Real.k0.
    assert (R_sqrt.sqrt (2 ^ 2 - (3 / 2) ^ 2) < 2)
      by (apply sqrt_upper; lra).
    nra. }
  rewrite !slot_cosh_equation_spec.
  rewrite !spec_slot_residual_tanh_real by lra.
  rewrite slot_residual_upper_end.
  - pose proof (slot_residual_slot_end Rtrigo_def.tanh 1 2 (3 / 2) 1 1 (1 / 4) 1
                  ltac:(lra) ltac:(lra) ltac:(lra)) as Hlo.
    cbn [mul xreal_Arith xlift2]. rewrite xlit_0. apply xltb_true.
    cbn [IZR] in *.
    match goal with |- 0 < ?r * _ => assert (r < 0) by lra end.
    nra.
  - lra.
  - lra.
  - lra.
  - apply tanh_pos, Rmult_lt_0_compat; [|lra]. apply decay_pos; lra.
Qed.

(** Below one of the two outer indices the residual of the slab is NaN. *)
Lemma slab_equation_nan_below (mode : Mode) (n1 n3 : R) (n2 lambda W : xreal)
  (j : Z) (x : R) :
  x ^ 2 < n1 ^ 2 \/ x ^ 2 < n3 ^ 2 ->
  slab_equation mode (Some n1) n2 (Some n3) lambda W j (Some x) = None.
Proof.
  assert (clad : forall a b : R, x ^ 2 < b ^ 2 ->
            slab_equation mode (Some a) n2 (Some b) lambda W j (Some x) = None).
  { intros a b H. unfold slab_equation.
    change (pow (Some x) 2 - pow (Some b) 2)%dbl with (Some (x ^ 2 - b ^ 2)).
    rewrite (xsqrt_nan (x ^ 2 - b ^ 2)) by lra.
    destruct (lit 2 * pi * (lit 1 / lambda))%dbl as [k|], n2 as [c|];
      destruct (sqrt (pow (Some x) 2 - pow (Some a) 2)%dbl),
               (sqrt (pow _ 2 - pow (Some x) 2)%dbl), W, mode;
      reflexivity. }
  intros [H|H]; [rewrite slab_equation_mirror|]; now apply clad.
Qed.

(** C4: when the residual has the same sign at the two ends of the bracket
    ([f(a) * f(b) > 0]), the component of [solve_slab] is the smaller of
    [n1] and [n3] and the component of [solve_slot_slab] is the larger of
    [n_clad] and [n_slot]: the lower end of the bracket, so not a value
    outside it.  In any arithmetic (binary64 included) the component is
    [n3] when [n3 < n1] and [n1] otherwise (for the slot [n_slot] when
    [n_clad < n_slot] and [n_clad] otherwise).  In the reals with a NaN
    the sign test succeeds only when the two indices are numbers, and the
    component is the number [min(n1, n3)] (for the slot
    [max(n_clad, n_slot)]), not NaN.  For the slab and indices that are not
    negative it succeeds only when [n1 = n3]: below the larger of the two
    the residual is NaN. *)
Theorem C4_fallback_on_invalid_range :
  (forall (D : Type) (AD : Arith D) (LD : Libm D) (mode : Mode)
          (n1 n2 n3 lambda W : D) (j : Z),
     let lo := if (n3 <? n1)%dbl then n3 else n1 in
     let f := slab_equation mode n1 n2 n3 lambda W j in
     (f lo * f n2 >? lit 0)%dbl = true ->
     match mode with TE => fst | TM => snd end
       (solve_slab n1 n2 n3 lambda W j) = lo)
  /\
  (forall (D : Type) (AD : Arith D) (LD : Libm D) (even : bool)
          (n_clad n_core n_slot lambda w_slot w_core : D) (j : Z),
     let a := (w_slot / lit 2)%dbl in
     let b := (a + w_core)%dbl in
     let lo := if (n_clad <? n_slot)%dbl then n_slot else n_clad in
     let f := if even
              then slot_cosh_equation n_clad n_core n_slot lambda a b j
              else slot_sinh_equation n_clad n_core n_slot lambda a b j in
     (f lo * f n_core >? lit 0)%dbl = true ->
     (if even then fst else snd)
       (solve_slot_slab n_clad n_core n_slot lambda w_slot w_core j) = lo)
  /\
  (forall (mode : Mode) (n1 n2 n3 lambda W : xreal) (j : Z),
     let lo := if (n3 <? n1)%dbl then n3 else n1 in
     let f := slab_equation mode n1 n2 n3 lambda W j in
     (f lo * f n2 >? lit 0)%dbl = true ->
     exists a b : R,
       n1 = Some a /\ n3 = Some b
       /\ match mode with TE => fst | TM => snd end
            (solve_slab n1 n2 n3 lambda W j) = Some (Rmin a b)
       /\ (0 <= a -> 0 <= b -> a = b))
  /\
  (forall (even : bool) (n_clad n_core n_slot lambda w_slot w_core : xreal)
          (j : Z),
     let a := (w_slot / lit 2)%dbl in
     let b := (a + w_core)%dbl in
     let lo := if (n_clad <? n_slot)%dbl then n_slot else n_clad in
     let f := if even
              then slot_cosh_equation n_clad n_core n_slot lambda a b j
              else slot_sinh_equation n_clad n_core n_slot lambda a b j in
     (f lo * f n_core >? lit 0)%dbl = true ->
     exists c s : R,
       n_clad = Some c /\ n_slot = Some s
       /\ (if even then fst else snd)
            (solve_slot_slab n_clad n_core n_slot lambda w_slot w_core j)
          = Some (Rmax c s)).
Proof.
  assert (slab : forall (D : Type) (AD : Arith D) (LD : Libm D) (mode : Mode)
                        (n1 n2 n3 lambda W : D) (j : Z),
            let lo := if (n3 <? n1)%dbl then n3 else n1 in
            let f := slab_equation mode n1 n2 n3 lambda W j in
            (f lo * f n2 >? lit 0)%dbl = true ->
            match mode with TE => fst | TM => snd end
              (solve_slab n1 n2 n3 lambda W j) = lo).
  { intros D AD LD m n1 n2 n3 lambda W j lo f Hs.
    destruct m; cbn [fst snd solve_slab];
      now apply solve_mode_invalid_range. }
  assert (slot : forall (D : Type) (AD : Arith D) (LD : Libm D) (even : bool)
                        (n_clad n_core n_slot lambda w_slot w_core : D) (j : Z),
            let a := (w_slot / lit 2)%dbl in
            let b := (a + w_core)%dbl in
            let lo := if (n_clad <? n_slot)%dbl then n_slot else n_clad in
            let f := if even
                     then slot_cosh_equation n_clad n_core n_slot lambda a b j
                     else slot_sinh_equation n_clad n_core n_slot lambda a b j in
            (f lo * f n_core >? lit 0)%dbl = true ->
            (if even then fst else snd)
              (solve_slot_slab n_clad n_core n_slot lambda w_slot w_core j)
            = lo).
  { intros D AD LD even n_clad n_core n_slot lambda w_slot w_core j a b lo
      f Hs.
    destruct even; cbn [fst snd solve_slot_slab];
      now apply solve_mode_invalid_range. }
  split; [exact slab|]. split; [exact slot|]. split.
  - intros mode n1 n2 n3 lambda W j lo f Hs.
    rewrite (slab xreal _ _ mode n1 n2 n3 lambda W j Hs).
    destruct (xsign_numbers _ _ Hs) as (v & _ & Ev & _).
    destruct (slab_equation_numbers _ _ _ _ _ _ _ _ _ Ev) as (a & b & -> & ->).
    assert (Elo : lo = Some (Rmin a b)) by exact (xstd_min a b).
    exists a, b. split; [reflexivity|]. split; [reflexivity|].
    split; [exact Elo|].
    intros Ha Hb. subst f. rewrite Elo in Ev.
    destruct (Rtotal_order a b) as [Hab|[Hab|Hab]]; [|exact Hab|]; exfalso;
      rewrite slab_equation_nan_below in Ev; try discriminate.
    + right. replace (Rmin a b) with a by rminmax. nra.
    + left. replace (Rmin a b) with b by rminmax. nra.
  - intros even n_clad n_core n_slot lambda w_slot w_core j a b lo f Hs.
    rewrite (slot xreal _ _ even n_clad n_core n_slot lambda w_slot w_core j
               Hs).
    destruct (xsign_numbers _ _ Hs) as (v & _ & Ev & _).
    assert (exists c s : R, n_clad = Some c /\ n_slot = Some s)
      as (c & s & -> & ->).
    { subst f. destruct even;
        [exact (slot_cosh_equation_numbers _ _ _ _ _ _ _ _ _ Ev)
        |exact (slot_sinh_equation_numbers _ _ _ _ _ _ _ _ _ Ev)]. }
    exists c, s. split; [reflexivity|]. split; [reflexivity|].
    exact (xstd_max c s).
Qed.

Lemma C4_witness :
  solve_slab (Some 1) (Some 2) (Some 1) (Some 1) (Some (1 / 2)) 2
  = (Some 1, Some 1)
  /\ solve_slot_slab (Some (3 / 2)) (Some 2) (Some 1) (Some 1) (Some 1)
       (Some (1 / 4)) 1
     = (Some (3 / 2), Some (3 / 2))
  /\ fst (solve_slot_slab (Some 1) (Some 2) (Some (3 / 2)) (Some 1) (Some 1)
            (Some (1 / 4)) 1)
     = Some (3 / 2).
Proof.
  assert (Hc : 2 * (1 / 2) * R_sqrt.sqrt (2 ^ 2 - 1 ^ 2) < IZR 2 * 1).
  { assert (R_sqrt.sqrt (2 ^ 2 - 1 ^ 2) < 2) by (apply sqrt_upper; lra).
    lra. }
  assert (Hj : (0 <= 2 < INT_MAX)%Z) by (unfold INT_MAX; lia).
  assert (Hslab : forall mode : Mode,
            let lo : xreal := if (Some 1 <? Some 1)%dbl then Some 1 else Some 1 in
            let f := slab_equation mode (Some 1) (Some 2) (Some 1) (Some 1)
                       (Some (1 / 2)) 2 in
            (f lo * f (Some 2) >? lit 0)%dbl = true).
  { intros mode lo f. subst lo f. rewrite xltb_false by lra.
    apply slab_sign_beyond_cutoff; try assumption; lra. }
  assert (Hlo : (if (Some (3 / 2)%R <? Some 1)%dbl then Some 1 else Some (3 / 2))
                = Some (3 / 2))
    by (rewrite xltb_false by lra; reflexivity).
  assert (Hslot : forall even : bool,
            let a : xreal := (Some 1 / lit 2)%dbl in
            let b : xreal := (a + Some (1 / 4)%R)%dbl in
            let lo : xreal := if (Some (3 / 2)%R <? Some 1)%dbl
                              then Some 1 else Some (3 / 2) in
            let f := if even
                     then slot_cosh_equation (Some (3 / 2)) (Some 2) (Some 1)
                            (Some 1) a b 1
                     else slot_sinh_equation (Some (3 / 2)) (Some 2) (Some 1)
                            (Some 1) a b 1 in
            (f lo * f (Some 2) >? lit 0)%dbl = true).
  { intros even a b lo f. subst lo. rewrite Hlo. apply slot_sign_order_1. }
  assert (Hlo' : (if (Some 1 <? Some (3 / 2)%R)%dbl
                  then Some (3 / 2) else Some 1) = Some (3 / 2))
    by (rewrite xltb_true by lra; reflexivity).
  assert (Hslot' :
            let a : xreal := (Some 1 / lit 2)%dbl in
            let b : xreal := (a + Some (1 / 4)%R)%dbl in
            let lo : xreal := if (Some 1 <? Some (3 / 2)%R)%dbl
                              then Some (3 / 2) else Some 1 in
            let f := if true
                     then slot_cosh_equation (Some 1) (Some 2) (Some (3 / 2))
                            (Some 1) a b 1
                     else slot_sinh_equation (Some 1) (Some 2) (Some (3 / 2))
                            (Some 1) a b 1 in
            (f lo * f (Some 2) >? lit 0)%dbl = true).
  { intros a b lo f. subst lo. rewrite Hlo'. apply slot_sign_order_1_even. }
  pose proof (proj1 (proj2 (proj2 C4_fallback_on_invalid_range))) as slab.
  pose proof (proj2 (proj2 (proj2 C4_fallback_on_invalid_range))) as slot.
  destruct (slab TE _ _ _ _ _ _ (Hslab TE))
    as (a & b & [= <-] & [= <-] & Ete & _).
  destruct (slab TM _ _ _ _ _ _ (Hslab TM))
    as (a & b & [= <-] & [= <-] & Etm & _).
  destruct (slot true _ _ _ _ _ _ _ (Hslot true))
    as (c & s & [= <-] & [= <-] & Eev).
  destruct (slot false _ _ _ _ _ _ _ (Hslot false))
    as (c & s & [= <-] & [= <-] & Eod).
  destruct (slot true _ _ _ _ _ _ _ Hslot')
    as (c & s & [= <-] & [= <-] & Eev').
  cbn [fst snd] in *.
  replace (Rmin 1 1) with 1 in * by rminmax.
  replace (Rmax (3 / 2) 1) with (3 / 2) in * by rminmax.
  replace (Rmax 1 (3 / 2)) with (3 / 2) in * by rminmax.
  split; [|split].
  - rewrite (surjective_pairing (solve_slab _ _ _ _ _ _)). now rewrite Ete, Etm.
  - rewrite (surjective_pairing (solve_slot_slab _ _ _ _ _ _ _)).
    now rewrite Eev, Eod.
  - exact Eev'.
Defined.

End Claim4.

(** ** The asymmetric slab *)

Section Asymmetric.
Local Open Scope R_scope.

(** The residual at the core index, the upper end of the bracket. *)
Lemma slab_residual_core_end (mode : Mode) (n1 n2 n3 lambda W : R) (j : Z) :
  0 < lambda -> 0 <= n1 < n2 -> 0 <= n3 < n2 ->
  Real.slab_residual mode n1 n2 n3 lambda W j n2 = (IZR j + 1) * PI.
Proof.
  intros Hl H1 H3. unfold Real.slab_residual.
  rewrite osc_at_core.
  pose proof (decay_pos lambda n1 n2 Hl (proj1 H1) (proj2 H1)) as D1.
  pose proof (decay_pos lambda n3 n2 Hl (proj1 H3) (proj2 H3)) as D3.
  assert (0 < n2 ^ 2) by nra.
  destruct mode.
  - rewrite !Ratan2_0_pos by assumption. lra.
  - rewrite !Rmult_0_r, !Ratan2_0_pos by (apply Rmult_lt_0_compat; assumption).
    lra.
Qed.

(** The residual at the larger of the two outer indices, where the decay
    constant of that layer is zero. *)
Lemma slab_residual_clad_end (mode : Mode) (n1 n2 n3 lambda W : R) (j : Z) :
  0 < lambda -> 0 < n1 < n3 -> n3 < n2 ->
  Real.slab_residual mode n1 n2 n3 lambda W j n3
  <= (IZR j + 1 / 2) * PI - Real.osc lambda n2 n3 * W.
Proof.
  intros Hl H1 H3. unfold Real.slab_residual.
  rewrite decay_at_index.
  pose proof (decay_pos lambda n1 n3 Hl ltac:(lra) (proj2 H1)) as D1.
  pose proof (osc_pos lambda n2 n3 Hl ltac:(lra) H3) as O2.
  assert (0 < n1 ^ 2) by nra. assert (0 < n2 ^ 2) by nra.
  assert (0 < n3 ^ 2) by nra.
  destruct mode.
  - rewrite Ratan2_pos_0 by assumption.
    pose proof (Ratan2_nonneg (Real.osc lambda n2 n3) (Real.decay lambda n1 n3)
                  ltac:(lra) ltac:(lra)).
    lra.
  - rewrite Rmult_0_r, Ratan2_pos_0 by (apply Rmult_lt_0_compat; assumption).
    pose proof (Ratan2_nonneg (n1 ^ 2 * Real.osc lambda n2 n3)
                  (n2 ^ 2 * Real.decay lambda n1 n3)
                  ltac:(apply Rmult_le_pos; lra)
                  ltac:(apply Rmult_le_pos; lra)).
    lra.
Qed.

(** The bracket of an asymmetric slab starts below the band: with
    [n1 < n3] the residual is NaN at [n1] and at every point below [n3]. *)
Lemma solve_slab_asymmetric_fallback (n1 n2 n3 : R) (lambda W : xreal)
  (j : Z) :
  0 <= n1 -> n1 < n3 -> n3 < n2 -> (n1 + n2) / 2 < n3 ->
  (n2 - n1) / 2 <> 1 / 10000 ->
  solve_slab (Some n1) (Some n2) (Some n3) lambda W j = (Some n1, Some n1).
Proof.
  intros H1 H13 H32 Hm Hw. unfold solve_slab. rewrite xstd_min.
  replace (Rmin n1 n3) with n1 by rminmax.
  assert (Hs : forall x : R, 0 <= x < n3 -> x ^ 2 < n3 ^ 2)
    by (intros x Hx; nra).
  rewrite !solve_mode_nan_fallback;
    try reflexivity; try lra; apply slab_equation_nan_clad, Hs; lra.
Qed.

(** C5: the slab [n = (1, 2, 1.8)] at [lambda = 1.55] with the thickness
    [W = 5] guides its fundamental mode: at order 0 the residual of
    either polarisation is negative at [max(n_box, n_clad) = 1.8] and
    positive at [n_core = 2], so it has a root between them.
    [solve_slab] returns [(1, 1)]: the bracket starts at
    [min(n_box, n_clad) = 1], where the residual is NaN, as it is at the
    first midpoint 1.5; the loop is not entered and the root find ends
    DIVERGED.  The same happens for every thickness, wavelength and
    order whenever [n1 < n3] and the first midpoint of [[n1, n2]] is below
    [n3]: both components are [n1], below [max(n1, n3)]. *)
Theorem C5_solve_slab_misses_guided_mode :
  (forall mode : Mode,
     exists lo hi : R,
       slab_equation mode (Some 1) (Some 2) (Some (9 / 5)) (Some (31 / 20))
                     (Some 5) 0 (Some (9 / 5)) = Some lo
       /\ slab_equation mode (Some 1) (Some 2) (Some (9 / 5)) (Some (31 / 20))
                        (Some 5) 0 (Some 2) = Some hi
       /\ lo < 0 < hi)
  /\
  solve_slab (Some 1) (Some 2) (Some (9 / 5)) (Some (31 / 20)) (Some 5) 0
  = (Some 1, Some 1)
  /\
  (forall (n1 n2 n3 : R) (lambda W : xreal) (j : Z),
     0 <= n1 -> n1 < n3 -> n3 < n2 -> (n1 + n2) / 2 < n3 ->
     (n2 - n1) / 2 <> 1 / 10000 ->
     solve_slab (Some n1) (Some n2) (Some n3) lambda W j = (Some n1, Some n1)
     /\ n1 < Rmax n1 n3).
Proof.
  split; [|split].
  - intros mode.
    rewrite !slab_equation_real by (reflexivity || lra).
    do 2 eexists. split; [reflexivity|]. split; [reflexivity|].
    pose proof PI_RGT_0 as Hpi.
    rewrite slab_residual_core_end by lra.
    pose proof (slab_residual_clad_end mode 1 2 (9 / 5) (31 / 20) 5 0%Z
                  ltac:(lra) ltac:(lra) ltac:(lra)) as Hlo.
    assert (Ho : PI / 10 < Real.osc (31 / 20) 2 (9 / 5)).
    { unfold Real.osc, Real.k0.
      assert (1 / 2 < R_sqrt.sqrt (2 ^ 2 - (9 / 5) ^ 2))
        by (apply sqrt_lower; lra).
      nra. }
    cbn [IZR] in *. split; lra.
  - apply solve_slab_asymmetric_fallback; lra.
  - intros n1 n2 n3 lambda W j H1 H13 H32 Hm Hw. split.
    + now apply solve_slab_asymmetric_fallback.
    + rminmax.
Qed.

Lemma C5_witness :
  solve_slab (Some 1) (Some 2) (Some (9 / 5)) (Some (31 / 20))
             (Some (11 / 50)) 0 = (Some 1, Some 1)
  /\ 1 < Rmax 1 (9 / 5).
Proof.
  apply (proj2 (proj2 C5_solve_slab_misses_guided_mode) 1 2 (9 / 5)
           (Some (31 / 20)) (Some (11 / 50)) 0%Z); lra.
Defined.

End Asymmetric.

(** ** The lateral component of the mode profile *)

Section Lateral.
Local Open Scope R_scope.

Lemma xeta0 : exists e : R, eta0 (D := xreal) = Some e /\ 0 < e.
Proof.
  destruct xeps0 as (ev & Ee & He). destruct xmu0 as (mv & Em & Hm).
  exists (R_sqrt.sqrt (mv / ev)). unfold eta0. rewrite Ee, Em.
  rewrite xdiv_some by lra.
  assert (0 < mv / ev) by (apply Rdiv_lt_0_compat; assumption).
  rewrite xsqrt_some by lra. split; [reflexivity|].
  now apply sqrt_lt_R0.
Qed.

(** C10: in the three regions alike the lateral component is the
    amplitude multiplied by the box index [n1] and divided by [eta0] (TE),
    or multiplied by [eta0] and divided by [n1] (TM); neither [n2] nor
    [n3] occurs in it.  Real and imaginary part are scaled alike: for
    each sample and for each entry of the arrays that [mode_1D] has
    filled, in any arithmetic; and over the reals, where [eta0] is a
    positive number [e], the lateral component of an amplitude [a + i b]
    is [a n1 / e + i b n1 / e] for TE and [a e / n1 + i b e / n1] for
    TM. *)
Theorem C10_lateral_field_scales_amplitude_by_box_index :
  (forall (D : Type) (AD : Arith D) (LD : Libm D) (mode : Mode)
          (neff n1 n2 n3 lambda W : D) (j : Z) (xi : D)
          (Ai Bli Bni : field_t D),
     field_at mode neff n1 n2 n3 lambda W j xi = Some (Ai, Bli, Bni) ->
     match mode with
     | TE => re Bli = (re Ai * n1 / eta0)%dbl
             /\ im Bli = (im Ai * n1 / eta0)%dbl
     | TM => re Bli = (re Ai * eta0 / n1)%dbl
             /\ im Bli = (im Ai * eta0 / n1)%dbl
     end)
  /\
  (forall (D : Type) (AD : Arith D) (LD : Libm D) (mode : Mode)
          (neff n1 n2 n3 lambda W : D) (j : Z)
          (x : list D) (o : fields) (i : nat) (d : field_t D),
     (i < length x)%nat -> (i < length (A o))%nat ->
     (i < length (Bl o))%nat ->
     field_at mode neff n1 n2 n3 lambda W j (nth i x (lit 0)) <> None ->
     let o' := mode_1D mode x o neff n1 n2 n3 lambda W j in
     let a := nth i (A o') d in
     let bl := nth i (Bl o') d in
     match mode with
     | TE => re bl = (re a * n1 / eta0)%dbl /\ im bl = (im a * n1 / eta0)%dbl
     | TM => re bl = (re a * eta0 / n1)%dbl /\ im bl = (im a * eta0 / n1)%dbl
     end)
  /\
  (exists e : R,
     eta0 (D := xreal) = Some e /\ 0 < e /\
     forall (mode : Mode) (neff n2 n3 lambda W : xreal) (j : Z) (xi : xreal)
            (Ai Bli Bni : field_t xreal) (n a b : R),
       field_at mode neff (Some n) n2 n3 lambda W j xi = Some (Ai, Bli, Bni) ->
       (mode = TM -> n <> 0) ->
       Ai = mkField (Some a) (Some b) ->
       Bli = match mode with
             | TE => mkField (Some (a * n / e)) (Some (b * n / e))
             | TM => mkField (Some (a * e / n)) (Some (b * e / n))
             end).
Proof.
  assert (sample : forall (D : Type) (AD : Arith D) (LD : Libm D) (mode : Mode)
                     (neff n1 n2 n3 lambda W : D) (j : Z) (xi : D)
                     (Ai Bli Bni : field_t D),
            field_at mode neff n1 n2 n3 lambda W j xi = Some (Ai, Bli, Bni) ->
            match mode with
            | TE => re Bli = (re Ai * n1 / eta0)%dbl
                    /\ im Bli = (im Ai * n1 / eta0)%dbl
            | TM => re Bli = (re Ai * eta0 / n1)%dbl
                    /\ im Bli = (im Ai * eta0 / n1)%dbl
            end).
  { intros D AD LD m neff n1 n2 n3 lambda W j xi Ai Bli Bni Hf.
    rewrite (field_at_lateral _ _ _ _ _ _ _ _ _ _ _ _ Hf).
    destruct m; split; reflexivity. }
  split; [exact sample|]. split.
  - intros D AD LD m neff n1 n2 n3 lambda W j x o i d Hi HA HB Hf o' a bl.
    destruct (field_at m neff n1 n2 n3 lambda W j (nth i x (lit 0)))
      as [[[Ai Bli] Bni]|] eqn:E; [|contradiction].
    destruct (loop_visited m neff n1 n2 n3 lambda W j x (seq 0 (length x)) o i d
                Ai Bli Bni) as [EA EB]; auto.
    + apply seq_NoDup.
    + apply in_seq. lia.
    + subst a bl o'. unfold mode_1D. rewrite EA, EB.
      exact (sample D AD LD m neff n1 n2 n3 lambda W j _ Ai Bli Bni E).
  - destruct xeta0 as (e & Ee & He). exists e.
    split; [exact Ee|]. split; [exact He|].
    intros m neff n2 n3 lambda W j xi Ai Bli Bni n a b Hf Hn ->.
    pose proof (sample xreal _ _ m neff (Some n) n2 n3 lambda W j xi _ Bli Bni
                  Hf) as H.
    destruct Bli as [r i]. cbn [re im] in H. rewrite Ee in H.
    destruct m; destruct H as [-> ->].
    + cbn [mul xreal_Arith xlift2]. rewrite !xdiv_some by lra. reflexivity.
    + cbn [mul xreal_Arith xlift2].
      rewrite !xdiv_some by (apply Hn; reflexivity). reflexivity.
Qed.

Lemma C10_witness :
  exists (e a : R) (Bni : field_t xreal),
    eta0 (D := xreal) = Some e /\ 0 < e
    /\ field_at TM (Some (7 / 4)) (Some (3 / 2)) (Some 2) (Some 1) (Some 1)
                (Some 1) 0 (Some 2)
       = Some (mkField (Some a) (Some 0),
               mkField (Some (a * e / (3 / 2))) (Some (0 * e / (3 / 2))),
               Bni).
Proof.
  destruct (proj2 (proj2 C10_lateral_field_scales_amplitude_by_box_index))
    as (e & Ee & He & H).
  destruct (field_at_region TM (Some (7 / 4)) (Some (3 / 2)) (Some 2) (Some 1)
              (Some 1) 1 2 0) as (Bli & Bni & E).
  destruct (Rlt_dec 2 0) as [Hlt|_]; [lra|].
  destruct (Rle_dec 2 1) as [Hle|_]; [lra|].
  rewrite xA_clad in E by lra.
  unfold of_real in E. rewrite xlit_0 in E.
  rewrite (H TM _ _ _ _ _ _ _ _ _ _ _ _ _ E ltac:(intros _; lra) eq_refl)
    in E.
  exists e. eexists. exists Bni. split; [exact Ee|]. split; [exact He|].
  exact E.
Defined.

End Lateral.
